(** * PE-Visualizer-Online: structural parsers, offset mapper and search

    A shallow embedding of the TypeScript sources
      - [services/peParser.ts]      ([parsePE], [offsetToRva]),
      - [services/searchService.ts] ([searchPE]),
      - the image parsers           ([parsePNG], [parseJPEG], [parseHEIC]),
      - the ELF parser              ([parseELF]),
      - the Mach-O parser           ([parseMachOAtOffset], [parseMachO]),
      - the file-loading dispatcher ([handleFile] of [App.tsx]),
      - the state of the application ([App.tsx]: the sessions, the copy of
        the selection, the navigation between search results),
      - the hex view and the inspector ([components/Inspector.tsx]) and the
        search dialog ([components/SearchDialog.tsx]),
    followed by the properties of the specification that they decide.

    Conventions of the embedding.
      - An [ArrayBuffer] is a [list byte]; a [DataView] read is a function in an
        error monad whose [Throw RangeError] is the exception the accessor
        raises when the read leaves the buffer.
      - A JavaScript string is the list of its UTF-16 code units ([jsstring]);
        strings that are only ever built from bytes and ASCII literals (region
        names, error messages) are Rocq [string]s.
      - A JavaScript number that holds an integer is a [Z]. Sums of 32-bit
        fields stay far below 2^53 and are exact; where a 64-bit field is
        converted with [Number(..)] or added, the rounding of IEEE doubles is
        written out ([js_round], [js_add], [js_sub]).
      - The display-only fields of a region ([color], [description], [value],
        [details]) are not carried, and the palette flag [isDarkMode], which
        only selects colors, is a parameter that is not read. The reads that
        compute display fields are kept, in the order of the source, since a
        read may throw.
      - A [for] loop over a count is a recursion on that count; a [while] loop
        is a recursion on fuel, and the properties show that the fuel given is
        never used up.
      - The state of a React component is passed explicitly: a handler is a
        function from the state (and the event) to the next state. What the
        canvas paints is modelled by the decisions of [draw] (which results
        and which cells are highlighted), not by pixels. *)

From Stdlib Require Import ZArith List String Ascii Lia Bool Permutation Sorted.
From Stdlib.Strings Require Import Byte.
Import ListNotations.
Open Scope Z_scope.

(* ================================================================== *)
(** ** Outcomes: normal return, exception, exhausted fuel *)

Inductive exn : Type :=
| RangeError                 (* DataView accessor out of bounds *)
| SyntaxError                (* new RegExp(..) on an invalid pattern *)
| Error (msg : string).      (* throw new Error(msg) *)

(** [OutOfFuel] is an artefact of the embedding of [while] loops; the
    theorems below show that the parsers never produce it. *)
Inductive outcome (A : Type) : Type :=
| Ok (a : A)
| Throw (e : exn)
| OutOfFuel.

Arguments Ok {A} a.
Arguments Throw {A} e.
Arguments OutOfFuel {A}.

Definition bind {A B : Type} (m : outcome A) (k : A -> outcome B) : outcome B :=
  match m with
  | Ok a => k a
  | Throw e => Throw e
  | OutOfFuel => OutOfFuel
  end.

Notation "'let*' x ':=' m 'in' k" := (bind m (fun x => k))
  (at level 10, x name, m at level 100, k at level 200).

Definition returns {A : Type} (m : outcome A) : Prop := exists a, m = Ok a.
Definition throws {A : Type} (m : outcome A) : Prop := exists e, m = Throw e.

(* ================================================================== *)
(** ** JavaScript numbers holding integers *)

(** Nearest double (ties to even) of an integer: the identity up to 2^53. *)
Definition js_round (z : Z) : Z :=
  let a := Z.abs z in
  if a <=? 2 ^ 53 then z
  else
    let e := Z.log2 a - 52 in
    let q := Z.shiftr a e in
    let r := a - Z.shiftl q e in
    let half := 2 ^ (e - 1) in
    let q' := if r <? half then q
              else if half <? r then q + 1
              else if Z.even q then q else q + 1 in
    Z.sgn z * Z.shiftl q' e.

Definition js_add (a b : Z) : Z := js_round (a + b).
Definition js_sub (a b : Z) : Z := js_round (a - b).

(** [Number(x)] for a [bigint] [x]. *)
Definition Number_of_bigint (x : Z) : Z := js_round x.

(* ================================================================== *)
(** ** Buffers and [DataView] *)

Definition buffer := list byte.

Definition byte_val (b : byte) : Z := Z.of_N (Byte.to_N b).

Definition byte_of_Z (z : Z) : byte :=
  match Byte.of_N (Z.to_N (z mod 256)) with
  | Some b => b
  | None => x00
  end.

(** Concrete buffers are written as lists of numbers. *)
Definition bytes (l : list Z) : buffer := map byte_of_Z l.

Definition byteLength (view : buffer) : Z := Z.of_nat (List.length view).

(** The [n] bytes at [offset], when they all lie inside the view. *)
Definition view_bytes (view : buffer) (offset : Z) (n : nat) : option (list byte) :=
  if (0 <=? offset) && (offset + Z.of_nat n <=? byteLength view)
  then Some (firstn n (skipn (Z.to_nat offset) view))
  else None.

Fixpoint le_value (bs : list byte) : Z :=
  match bs with
  | [] => 0
  | b :: rest => byte_val b + 256 * le_value rest
  end.

Definition be_value (bs : list byte) : Z := le_value (rev bs).

Definition getUint (n : nat) (view : buffer) (offset : Z) (littleEndian : bool)
  : outcome Z :=
  match view_bytes view offset n with
  | Some bs => Ok (if littleEndian then le_value bs else be_value bs)
  | None => Throw RangeError
  end.

Definition getUint8 (view : buffer) (offset : Z) : outcome Z :=
  getUint 1 view offset true.
Definition getUint16 := getUint 2.
Definition getUint32 := getUint 4.
Definition getBigUint64 := getUint 8.

Definition getInt32 (view : buffer) (offset : Z) (littleEndian : bool) : outcome Z :=
  let* u := getUint32 view offset littleEndian in
  Ok (if u <? 2 ^ 31 then u else u - 2 ^ 32).

(** [String.fromCharCode] of a byte. *)
Definition char_of_code (c : Z) : ascii := ascii_of_N (Z.to_N c).

(* ================================================================== *)
(** ** Data model ([types.ts]) *)

(** Modelled from the spec: the region tags. The [types.ts] at hand declares
    the first ten members of [RegionType] ([DOS_HEADER] to [UNKNOWN]); the
    declaration of the others is missing, and they are the members the ELF,
    Mach-O and image parsers name ([RegionType.MACHO_HEADER], ..), within the
    closed set of kinds of the spec (header, table entry, data, load command,
    box, chunk, marker, field, unclassified). *)
Inductive RegionType : Type :=
| DOS_HEADER | NT_HEADERS | FILE_HEADER | OPTIONAL_HEADER | SECTION_HEADER
| SECTION_DATA | DATA_DIRECTORY | OVERLAY | FIELD | UNKNOWN
| ELF_HEADER | PROGRAM_HEADER
| MACHO_HEADER | FAT_HEADER | LOAD_COMMAND | SEGMENT
| IMAGE_HEADER | IMAGE_DATA | PNG_CHUNK | JPEG_SEGMENT | HEIC_BOX.

Definition RegionType_eqb (a b : RegionType) : bool :=
  match a, b with
  | DOS_HEADER, DOS_HEADER | NT_HEADERS, NT_HEADERS | FILE_HEADER, FILE_HEADER
  | OPTIONAL_HEADER, OPTIONAL_HEADER | SECTION_HEADER, SECTION_HEADER
  | SECTION_DATA, SECTION_DATA | DATA_DIRECTORY, DATA_DIRECTORY
  | OVERLAY, OVERLAY | FIELD, FIELD | UNKNOWN, UNKNOWN
  | ELF_HEADER, ELF_HEADER | PROGRAM_HEADER, PROGRAM_HEADER
  | MACHO_HEADER, MACHO_HEADER | FAT_HEADER, FAT_HEADER
  | LOAD_COMMAND, LOAD_COMMAND | SEGMENT, SEGMENT
  | IMAGE_HEADER, IMAGE_HEADER | IMAGE_DATA, IMAGE_DATA
  | PNG_CHUNK, PNG_CHUNK | JPEG_SEGMENT, JPEG_SEGMENT | HEIC_BOX, HEIC_BOX => true
  | _, _ => false
  end.

(** [PERegion]: a node of the region forest. An absent [children] is [[]]. *)
Unset Elimination Schemes.
Inductive PERegion : Type :=
  mkRegion {
    name : string;
    offset : Z;
    size : Z;
    type : RegionType;
    children : list PERegion
  }.
Set Elimination Schemes.

Record SectionMetadata : Type :=
  mkSection {
    sec_name : string;
    virtualAddress : Z;
    virtualSize : Z;
    pointerToRawData : Z;
    sizeOfRawData : Z
  }.

(** Modelled from the spec: the [format] tag of a parsed file, which the
    parsers set (['PE'], ['ELF'], ['Mach-O'], ['PNG'], ['JPEG'], ['HEIC']) and
    which the interface [PEFile] of the [types.ts] at hand does not declare yet. *)
Inductive FileFormat : Type := PE | ELF | MachO | PNG | JPEG | HEIC.

(** [ParsedFile] ([PEFile] in the [types.ts] at hand); [data] is the buffer
    under the [DataView]. *)
Record ParsedFile : Type :=
  mkParsedFile {
    file_name : string;
    file_size : Z;
    data : buffer;
    regions : list PERegion;
    sectionsMetadata : list SectionMetadata;
    isValid : bool;
    error : option string;
    format : FileFormat
  }.

(** [regions.sort((a, b) => a.offset - b.offset)]: the sort of [Array.prototype]
    is stable, so it is the insertion sort that keeps equal offsets in order
    (an element goes in front of the later elements of the same offset). *)
Fixpoint insert_by_offset (r : PERegion) (l : list PERegion) : list PERegion :=
  match l with
  | [] => [r]
  | x :: rest =>
      if offset r <=? offset x then r :: l else x :: insert_by_offset r rest
  end.

Definition sort_by_offset (l : list PERegion) : list PERegion :=
  fold_right insert_by_offset [] l.

(* ================================================================== *)
(** ** [offsetToRva] ([peParser.ts]) *)

(** The [for .. of] loop: the first section that returns decides. *)
Fixpoint offsetToRva_loop (off : Z) (sections : list SectionMetadata) : option Z :=
  match sections with
  | [] => None
  | sec :: rest =>
      if (pointerToRawData sec <=? off)
         && (off <? js_add (pointerToRawData sec) (sizeOfRawData sec))
      then
        let diff := js_sub off (pointerToRawData sec) in
        if diff <? virtualSize sec
        then Some (js_add (virtualAddress sec) diff)
        else offsetToRva_loop off rest
      else offsetToRva_loop off rest
  end.

Definition offsetToRva (off : Z) (sections : list SectionMetadata) : option Z :=
  match offsetToRva_loop off sections with
  | Some rva => Some rva
  | None =>
      match sections with
      | s0 :: _ => if off <? pointerToRawData s0 then Some off else None
      | [] => None
      end
  end.

(* ================================================================== *)
(** ** [searchPE] ([searchService.ts]) *)

(** A JavaScript string: its UTF-16 code units. *)
Definition jsstring := list Z.

Definition code_unit (c : Z) : Prop := 0 <= c < 65536.

(** ['hex' | 'ascii' | 'unicode'] *)
Inductive SearchMode : Type := ModeHex | ModeAscii | ModeUnicode.

Record SearchResult : Type :=
  mkResult {
    res_offset : Z;
    res_size : Z;
    rva : option Z;
    matchVal : jsstring
  }.

(** The class [\s] of a regular expression. *)
Definition isWhiteSpace (c : Z) : bool :=
  ((9 <=? c) && (c <=? 13)) || (c =? 32) || (c =? 160) || (c =? 5760)
  || ((8192 <=? c) && (c <=? 8202)) || (c =? 8232) || (c =? 8233)
  || (c =? 8239) || (c =? 8287) || (c =? 12288) || (c =? 65279).

(** [s.replace(/\s+/g, '')] *)
Definition stripWhiteSpace (s : jsstring) : jsstring :=
  filter (fun c => negb (isWhiteSpace c)) s.

(** [s.replace(/0x/gi, '')]: one pass from the left, matches do not overlap. *)
Fixpoint strip0x (s : jsstring) : jsstring :=
  match s with
  | c1 :: tl =>
      match tl with
      | c2 :: rest =>
          if (c1 =? 48) && ((c2 =? 120) || (c2 =? 88))
          then strip0x rest
          else c1 :: strip0x tl
      | [] => s
      end
  | [] => []
  end.

(** The value of a hexadecimal digit, [None] for any other code unit. *)
Definition hexDigit (c : Z) : option Z :=
  if (48 <=? c) && (c <=? 57) then Some (c - 48)
  else if (65 <=? c) && (c <=? 70) then Some (c - 55)
  else if (97 <=? c) && (c <=? 102) then Some (c - 87)
  else None.

(** [/^[0-9A-Fa-f]+$/.test(s)] *)
Definition isHexString (s : jsstring) : bool :=
  match s with
  | [] => false
  | _ => forallb (fun c => match hexDigit c with Some _ => true | None => false end) s
  end.

Definition hexVal (c : Z) : Z :=
  match hexDigit c with Some v => v | None => 0 end.

(** The loop [for (i = 0; i < cleanQuery.length; i += 2)
    searchBytes.push(parseInt(cleanQuery.substr(i, 2), 16))], on a string of
    hexadecimal digits of even length. *)
Fixpoint hexPairs (s : jsstring) : list Z :=
  match s with
  | c1 :: c2 :: rest => (16 * hexVal c1 + hexVal c2) :: hexPairs rest
  | _ => []
  end.

(** [searchBytes] of the ASCII mode: [query.charCodeAt(i)]. *)
Definition asciiBytes (query : jsstring) : list Z := query.

(** [searchBytes] of the unicode mode:
    [push(code & 0xFF); push((code >> 8) & 0xFF)]. *)
Definition unicodeBytes (query : jsstring) : list Z :=
  flat_map (fun code => [Z.land code 255; Z.land (Z.shiftr code 8) 255]) query.

(** [buffer[i]] of a [Uint8Array]: [None] is [undefined]. *)
Definition byteAt (buf : buffer) (i : Z) : option Z :=
  if i <? 0 then None else option_map byte_val (nth_error buf (Z.to_nat i)).

(** The inner loop over [j]: [true] when no [buffer[i + j] !== searchBytes[j]]. *)
Fixpoint matchAt (buf : buffer) (i j : Z) (searchBytes : list Z) : bool :=
  match searchBytes with
  | [] => true
  | s :: rest =>
      match byteAt buf (i + j) with
      | Some b => if b =? s then matchAt buf i (j + 1) rest else false
      | None => false
      end
  end.

Definition RESULT_LIMIT : nat := 2000.

(** The sliding scan [for (i = 0; i <= len - sLen; i++)], which the three
    literal modes share; [n] counts the iterations that are left. *)
Fixpoint scanLoop (buf : buffer) (sections : list SectionMetadata)
    (searchBytes : list Z) (mv : jsstring)
    (n : nat) (i : Z) (results : list SearchResult) : list SearchResult :=
  match n with
  | O => results
  | S n' =>
      if matchAt buf i 0 searchBytes then
        let results' :=
          results ++ [mkResult i (Z.of_nat (List.length searchBytes))
                               (offsetToRva i sections) mv] in
        if (RESULT_LIMIT <=? List.length results')%nat then results'
        else scanLoop buf sections searchBytes mv n' (i + 1) results'
      else scanLoop buf sections searchBytes mv n' (i + 1) results
  end.

Definition slidingScan (buf : buffer) (sections : list SectionMetadata)
    (searchBytes : list Z) (mv : jsstring) : list SearchResult :=
  let len := byteLength buf in
  let sLen := Z.of_nat (List.length searchBytes) in
  scanLoop buf sections searchBytes mv (Z.to_nat (len - sLen + 1)) 0 [].

(** [new TextDecoder('latin1')]: the label names windows-1252, which maps
    every byte to one code unit, so indices in the text are byte offsets. *)
Definition decode_latin1 (b : byte) : Z :=
  let c := byte_val b in
  if (c <? 128) || (160 <=? c) then c
  else nth (Z.to_nat (c - 128))
         [8364; 129; 8218; 402; 8222; 8230; 8224; 8225;
          710; 8240; 352; 8249; 338; 141; 381; 143;
          144; 8216; 8217; 8220; 8221; 8226; 8211; 8212;
          732; 8482; 353; 8250; 339; 157; 382; 376] c.

Definition substring (s : jsstring) (start len : Z) : jsstring :=
  firstn (Z.to_nat len) (skipn (Z.to_nat start) s).

Section Search.

(** The regular-expression engine of the host is not part of the program.
    [regex_valid p] tells whether [new RegExp(p, 'g')] succeeds, and
    [regex_exec p str lastIndex] is one call of [exec] on a global regex:
    the index and the length of the match, or [None] for [null]. *)
Variable regex_valid : jsstring -> bool.
Variable regex_exec : jsstring -> jsstring -> Z -> option (Z * Z).

(** [while ((match = regex.exec(str)) !== null)]: a successful [exec] leaves
    [lastIndex] at the end of the match. At most [RESULT_LIMIT] iterations
    push a result, which is the fuel [searchPE] gives. *)
Fixpoint regexLoop (sections : list SectionMetadata) (query str : jsstring)
    (fuel : nat) (lastIndex : Z) (results : list SearchResult)
  : outcome (list SearchResult) :=
  match fuel with
  | O => OutOfFuel
  | S fuel' =>
      match regex_exec query str lastIndex with
      | None => Ok results
      | Some (index, mlen) =>
          let results' :=
            results ++ [mkResult index mlen (offsetToRva index sections)
                                 (substring str index mlen)] in
          if (RESULT_LIMIT <=? List.length results')%nat then Ok results'
          else regexLoop sections query str fuel' (index + mlen) results'
      end
  end.

Definition searchPE (file : ParsedFile) (query : jsstring) (mode : SearchMode)
    (useRegex : bool) : outcome (list SearchResult) :=
  let buf := data file in
  let sections := sectionsMetadata file in
  let len := byteLength buf in
  match query with
  | [] => Ok []
  | _ =>
      match mode with
      | ModeHex =>
          let cleanQuery := strip0x (stripWhiteSpace query) in
          if negb (Z.of_nat (List.length cleanQuery) mod 2 =? 0)
             || negb (isHexString cleanQuery)
          then Throw (Error "Invalid Hex String")
          else Ok (slidingScan buf sections (hexPairs cleanQuery) cleanQuery)
      | ModeAscii =>
          if useRegex then
            if 50 * 1024 * 1024 <? len
            then Throw (Error "File too large for Regex search (max 50MB)")
            else
              let str := map decode_latin1 buf in
              if regex_valid query
              then regexLoop sections query str RESULT_LIMIT 0 []
              else Throw SyntaxError
          else Ok (slidingScan buf sections (asciiBytes query) query)
      | ModeUnicode =>
          if useRegex
          then Throw (Error "Regex not supported for Unicode (Raw) search in this version.")
          else Ok (slidingScan buf sections (unicodeBytes query) query)
      end
  end.

End Search.

(* ================================================================== *)
(** ** String helpers shared by the parsers *)

Definition hexChar (d : Z) : ascii :=
  if d <? 10 then char_of_code (48 + d) else char_of_code (55 + d).

Fixpoint hexDigits (fuel : nat) (z : Z) (acc : string) : string :=
  match fuel with
  | O => acc
  | S fuel' =>
      let acc' := String (hexChar (z mod 16)) acc in
      if z / 16 =? 0 then acc' else hexDigits fuel' (z / 16) acc'
  end.

(** [val.toString(16).toUpperCase()] *)
Definition toStringHex (val : Z) : string :=
  let a := Z.abs val in
  let digits := hexDigits (S (Z.to_nat (Z.log2 a))) a "" in
  if val <? 0 then String "-" digits else digits.

Fixpoint padZeros (n : nat) (s : string) : string :=
  match n with
  | O => s
  | S n' => String "0" (padZeros n' s)
  end.

(** [formatHex]: ['0x' + val.toString(16).toUpperCase().padStart(pad, '0')] *)
Definition formatHex (val : Z) (pad : nat) : string :=
  let s := toStringHex val in
  ("0x" ++ padZeros (pad - String.length s) s)%string.

(** [s.split(' ')[0]] *)
Fixpoint firstWord (s : string) : string :=
  match s with
  | EmptyString => EmptyString
  | String c rest => if Ascii.eqb c " " then EmptyString else String c (firstWord rest)
  end.

(** The loop of the [readString] helpers: up to [n] bytes from [off + i],
    stopping at the first NUL. *)
Fixpoint readString_loop (view : buffer) (off : Z) (n : nat) (i : Z) : outcome string :=
  match n with
  | O => Ok EmptyString
  | S n' =>
      let* charCode := getUint8 view (off + i) in
      if charCode =? 0 then Ok EmptyString
      else
        let* rest := readString_loop view off n' (i + 1) in
        Ok (String (char_of_code charCode) rest)
  end.

(** [readString] of the PE and Mach-O parsers: no clamp on [length]. *)
Definition readString (view : buffer) (off : Z) (length : Z) : outcome string :=
  readString_loop view off (Z.to_nat length) 0.

(** [readString] of the image parsers: [length] clamped to the bytes left. *)
Definition readString_clamped (view : buffer) (off : Z) (length : Z) : outcome string :=
  let maxLen := Z.min length (byteLength view - off) in
  readString_loop view off (Z.to_nat maxLen) 0.

(** A field region: a leaf of type [FIELD]. *)
Definition field (nm : string) (off sz : Z) : PERegion :=
  mkRegion nm off sz FIELD [].

(* ================================================================== *)
(** ** [parsePNG] *)

(** The [while (offset < view.byteLength)] loop. Every iteration that goes on
    moves [offset] forward by at least 12. *)
Fixpoint parsePNG_loop (view : buffer) (fuel : nat) (off : Z)
    (regions : list PERegion) : outcome (list PERegion) :=
  match fuel with
  | O => OutOfFuel
  | S fuel' =>
      if negb (off <? byteLength view) then Ok regions
      else if byteLength view <? off + 8 then Ok regions
      else
        let* length := getUint32 view off false in
        let* type := readString_clamped view (off + 4) 4 in
        let totalSize := 12 + length in
        if byteLength view <? off + totalSize then Ok regions
        else
          (* details.CRC *)
          let* _ := getUint32 view (off + 8 + length) false in
          let children0 := [field "Length" off 4; field "Type" (off + 4) 4] in
          let* ihdr :=
            if String.eqb type "IHDR" && (13 <=? length) then
              let* _ := getUint32 view (off + 8) false in
              let* _ := getUint32 view (off + 12) false in
              let* _ := getUint8 view (off + 16) in
              let* _ := getUint8 view (off + 17) in
              let* _ := getUint8 view (off + 18) in
              let* _ := getUint8 view (off + 19) in
              let* _ := getUint8 view (off + 20) in
              Ok [field "Width" (off + 8) 4; field "Height" (off + 12) 4;
                  field "BitDepth" (off + 16) 1; field "ColorType" (off + 17) 1]
            else Ok [] in
          let dataRegion :=
            if 0 <? length
            then [mkRegion "Data" (off + 8) length IMAGE_DATA []]
            else [] in
          let* _ := getUint32 view (off + 8 + length) false in
          let chunkRegion :=
            mkRegion ("Chunk: " ++ type) off totalSize PNG_CHUNK
              (children0 ++ ihdr ++ dataRegion
                 ++ [field "CRC" (off + 8 + length) 4]) in
          let regions' := regions ++ [chunkRegion] in
          if String.eqb type "IEND" then Ok regions'
          else parsePNG_loop view fuel' (off + totalSize) regions'
  end.

Definition parsePNG (buf : buffer) (fileName : string) (isDarkMode : bool)
  : outcome ParsedFile :=
  let view := buf in
  let regions := [mkRegion "PNG Signature" 0 8 IMAGE_HEADER []] in
  let* regions' := parsePNG_loop view (S (List.length view)) 8 regions in
  Ok (mkParsedFile fileName (byteLength buf) view regions' [] true None PNG).

(* ================================================================== *)
(** ** [parseJPEG] *)

(** Lookup in one of the constant tables ([Record<number, string>]). *)
Fixpoint lookup (table : list (Z * string)) (key : Z) : option string :=
  match table with
  | [] => None
  | (k, v) :: rest => if k =? key then Some v else lookup rest key
  end.

Definition JPEG_MARKERS : list (Z * string) :=
  [ (0xD8, "SOI (Start of Image)");
    (0xE0, "APP0 (JFIF)");
    (0xE1, "APP1 (EXIF)");
    (0xE2, "APP2"); (0xE3, "APP3"); (0xE4, "APP4"); (0xE5, "APP5");
    (0xE6, "APP6"); (0xE7, "APP7"); (0xE8, "APP8"); (0xE9, "APP9");
    (0xEA, "APP10"); (0xEB, "APP11"); (0xEC, "APP12"); (0xED, "APP13");
    (0xEE, "APP14"); (0xEF, "APP15");
    (0xDB, "DQT (Define Quantization Table)");
    (0xC0, "SOF0 (Baseline DCT)");
    (0xC2, "SOF2 (Progressive DCT)");
    (0xC4, "DHT (Define Huffman Table)");
    (0xDA, "SOS (Start of Scan)");
    (0xFE, "COM (Comment)");
    (0xD9, "EOI (End of Image)");
    (0xDD, "DRI (Define Restart Interval)");
    (0xD0, "RST0"); (0xD1, "RST1"); (0xD2, "RST2"); (0xD3, "RST3");
    (0xD4, "RST4"); (0xD5, "RST5"); (0xD6, "RST6"); (0xD7, "RST7") ]%string.

Definition jpegMarkerName (markerByte : Z) : string :=
  match lookup JPEG_MARKERS markerByte with
  | Some s => s
  | None => ("Unknown Marker (0xFF" ++ toStringHex markerByte ++ ")")%string
  end.

(** The inner [while (scanEnd < view.byteLength - 1)] loop after an SOS
    segment: the position of the next marker, or the last byte of the file. *)
Fixpoint entropyScan (view : buffer) (fuel : nat) (scanEnd : Z) : outcome Z :=
  match fuel with
  | O => OutOfFuel
  | S fuel' =>
      if negb (scanEnd <? byteLength view - 1) then Ok scanEnd
      else
        let* b := getUint8 view scanEnd in
        if b =? 255 then
          let* nextByte := getUint8 view (scanEnd + 1) in
          if negb (nextByte =? 0) && negb ((208 <=? nextByte) && (nextByte <=? 215))
          then Ok scanEnd
          else entropyScan view fuel' (scanEnd + 1 + 1)
        else entropyScan view fuel' (scanEnd + 1)
  end.

(** The outer [while (offset < view.byteLength - 1)] loop. *)
Fixpoint parseJPEG_loop (view : buffer) (fuel : nat) (off : Z)
    (regions : list PERegion) : outcome (list PERegion) :=
  match fuel with
  | O => OutOfFuel
  | S fuel' =>
      if negb (off <? byteLength view - 1) then Ok regions
      else
        let* b := getUint8 view off in
        if negb (b =? 255) then parseJPEG_loop view fuel' (off + 1) regions
        else
          let* markerByte := getUint8 view (off + 1) in
          if markerByte =? 255 then parseJPEG_loop view fuel' (off + 1) regions
          else if markerByte =? 0 then parseJPEG_loop view fuel' (off + 2) regions
          else
            let markerName := jpegMarkerName markerByte in
            let isStandalone :=
              ((208 <=? markerByte) && (markerByte <=? 217)) || (markerByte =? 1) in
            if isStandalone then
              let regions' :=
                regions ++ [mkRegion (firstWord markerName) off 2 JPEG_SEGMENT []] in
              if markerByte =? 217 then Ok regions'
              else parseJPEG_loop view fuel' (off + 2) regions'
            else if byteLength view <? off + 4 then Ok regions
            else
              let* length := getUint16 view (off + 2) false in
              let totalSize := 2 + length in
              if byteLength view <? off + totalSize then Ok regions
              else
                let children0 :=
                  [field "Marker" off 2; field "Length" (off + 2) 2;
                   mkRegion "Data" (off + 4) (length - 2) IMAGE_DATA []] in
                let* sof :=
                  if (markerByte =? 192) && (5 <? length) then
                    let* _ := getUint8 view (off + 4) in
                    let* _ := getUint16 view (off + 5) false in
                    let* _ := getUint16 view (off + 7) false in
                    Ok [field "Precision" (off + 4) 1; field "Height" (off + 5) 2;
                        field "Width" (off + 7) 2]
                  else Ok [] in
                let segmentRegion :=
                  mkRegion (firstWord markerName) off totalSize JPEG_SEGMENT
                    (children0 ++ sof) in
                let regions' := regions ++ [segmentRegion] in
                let off' := off + totalSize in
                if markerByte =? 218 then
                  let scanStart := off' in
                  let* scanEnd := entropyScan view (S (List.length view)) scanStart in
                  if scanStart <? scanEnd then
                    parseJPEG_loop view fuel' scanEnd
                      (regions' ++ [mkRegion "Entropy Data" scanStart
                                      (scanEnd - scanStart) IMAGE_DATA []])
                  else parseJPEG_loop view fuel' off' regions'
                else parseJPEG_loop view fuel' off' regions'
  end.

Definition parseJPEG (buf : buffer) (fileName : string) (isDarkMode : bool)
  : outcome ParsedFile :=
  let view := buf in
  let* regions := parseJPEG_loop view (S (List.length view)) 0 [] in
  Ok (mkParsedFile fileName (byteLength buf) view regions [] true None JPEG).

(* ================================================================== *)
(** ** [parsePE] ([peParser.ts]) *)

(** [is64Bit ? view.getBigUint64(off, true) : BigInt(view.getUint32(off, true))] *)
Definition getWord (view : buffer) (off : Z) (is64Bit : bool) : outcome Z :=
  if is64Bit then getBigUint64 view off true else getUint32 view off true.

Definition wordSize (is64Bit : bool) : Z := if is64Bit then 8 else 4.

Definition dirNames : list string :=
  [ "Export"; "Import"; "Resource"; "Exception"; "Security"; "BaseReloc";
    "Debug"; "Architecture"; "GlobalPtr"; "TLS"; "LoadConfig"; "BoundImport";
    "IAT"; "DelayImport"; "COM"; "Reserved" ]%string.

(** The fields of the optional header, in the order they are read and pushed:
    the list of field regions, the offset behind the last one (where the data
    directories start) and [NumberOfRvaAndSizes]. *)
Definition optionalHeaderFields (view : buffer) (optHeaderOffset : Z) (is64Bit : bool)
  : outcome (list PERegion * Z * Z) :=
  let off := optHeaderOffset in
  let* _ := getUint8 view (off + 2) in
  let* _ := getUint8 view (off + 3) in
  let* _ := getUint32 view (off + 4) true in
  let* _ := getUint32 view (off + 8) true in
  let* _ := getUint32 view (off + 12) true in
  let* _ := getUint32 view (off + 16) true in
  let* _ := getUint32 view (off + 20) true in
  let standard :=
    [ field "Magic" off 2; field "MajorLinkerVersion" (off + 2) 1;
      field "MinorLinkerVersion" (off + 3) 1; field "SizeOfCode" (off + 4) 4;
      field "SizeOfInitializedData" (off + 8) 4;
      field "SizeOfUninitializedData" (off + 12) 4;
      field "AddressOfEntryPoint" (off + 16) 4; field "BaseOfCode" (off + 20) 4 ] in
  let off := off + 24 in
  let* baseOfData :=
    if negb is64Bit then
      let* _ := getUint32 view off true in
      Ok ([field "BaseOfData" off 4], off + 4)
    else Ok ([], off) in
  let off := snd baseOfData in
  let w := wordSize is64Bit in
  let* _ := getWord view off is64Bit in
  let f_imageBase := field "ImageBase" off w in
  let off := off + w in
  let* _ := getUint32 view off true in
  let f_sectionAlignment := field "SectionAlignment" off 4 in
  let off := off + 4 in
  let* _ := getUint32 view off true in
  let f_fileAlignment := field "FileAlignment" off 4 in
  let off := off + 4 in
  let* _ := getUint16 view off true in
  let f_majorOS := field "MajorOSVersion" off 2 in
  let off := off + 2 in
  let* _ := getUint16 view off true in
  let f_minorOS := field "MinorOSVersion" off 2 in
  let off := off + 2 in
  let* _ := getUint16 view off true in
  let f_majorImage := field "MajorImageVersion" off 2 in
  let off := off + 2 in
  let* _ := getUint16 view off true in
  let f_minorImage := field "MinorImageVersion" off 2 in
  let off := off + 2 in
  let* _ := getUint16 view off true in
  let f_majorSub := field "MajorSubsystemVersion" off 2 in
  let off := off + 2 in
  let* _ := getUint16 view off true in
  let f_minorSub := field "MinorSubsystemVersion" off 2 in
  let off := off + 2 in
  let* _ := getUint32 view off true in
  let f_win32 := field "Win32VersionValue" off 4 in
  let off := off + 4 in
  let* _ := getUint32 view off true in
  let f_sizeOfImage := field "SizeOfImage" off 4 in
  let off := off + 4 in
  let* _ := getUint32 view off true in
  let f_sizeOfHeaders := field "SizeOfHeaders" off 4 in
  let off := off + 4 in
  let* _ := getUint32 view off true in
  let f_checkSum := field "CheckSum" off 4 in
  let off := off + 4 in
  let* _ := getUint16 view off true in
  let f_subsystem := field "Subsystem" off 2 in
  let off := off + 2 in
  let* _ := getUint16 view off true in
  let f_dllChar := field "DllCharacteristics" off 2 in
  let off := off + 2 in
  let* _ := getWord view off is64Bit in
  let f_stackRes := field "SizeOfStackReserve" off w in
  let off := off + w in
  let* _ := getWord view off is64Bit in
  let f_stackCom := field "SizeOfStackCommit" off w in
  let off := off + w in
  let* _ := getWord view off is64Bit in
  let f_heapRes := field "SizeOfHeapReserve" off w in
  let off := off + w in
  let* _ := getWord view off is64Bit in
  let f_heapCom := field "SizeOfHeapCommit" off w in
  let off := off + w in
  let* _ := getUint32 view off true in
  let f_loaderFlags := field "LoaderFlags" off 4 in
  let off := off + 4 in
  let* numberOfRvaAndSizes := getUint32 view off true in
  let f_numberOfRva := field "NumberOfRvaAndSizes" off 4 in
  let off := off + 4 in
  Ok (standard ++ fst baseOfData
        ++ [ f_imageBase; f_sectionAlignment; f_fileAlignment;
             f_majorOS; f_minorOS; f_majorImage; f_minorImage;
             f_majorSub; f_minorSub; f_win32; f_sizeOfImage; f_sizeOfHeaders;
             f_checkSum; f_subsystem; f_dllChar; f_stackRes; f_stackCom;
             f_heapRes; f_heapCom; f_loaderFlags; f_numberOfRva ],
      off, numberOfRvaAndSizes).

(** The loop over the data directories; [limit] is the end of the optional
    header, [n] the iterations that are left. *)
Fixpoint dataDirs_loop (view : buffer) (dataDirsOffset limit : Z)
    (n : nat) (i : Z) (acc : list PERegion) : outcome (list PERegion) :=
  match n with
  | O => Ok acc
  | S n' =>
      let currentDirOffset := dataDirsOffset + i * 8 in
      if limit <? currentDirOffset + 8 then Ok acc
      else
        let* rva := getUint32 view currentDirOffset true in
        let* sz := getUint32 view (currentDirOffset + 4) true in
        let acc' :=
          if (0 <? sz) || (0 <? rva) then
            acc ++ [mkRegion (nth (Z.to_nat i) dirNames "undefined"%string ++ " Directory")
                      currentDirOffset 8 DATA_DIRECTORY
                      [field "RVA" currentDirOffset 4;
                       field "Size" (currentDirOffset + 4) 4]]
          else acc in
        dataDirs_loop view dataDirsOffset limit n' (i + 1) acc'
  end.

(** What the loop over the section headers collects. *)
Record SectionScan : Type :=
  mkSectionScan {
    scan_meta : list SectionMetadata;
    scan_headers : list PERegion;
    scan_data : list PERegion
  }.

Fixpoint sections_loop (view : buffer) (sectionHeadersOffset : Z)
    (n : nat) (i : Z) (acc : SectionScan) : outcome SectionScan :=
  match n with
  | O => Ok acc
  | S n' =>
      let off := sectionHeadersOffset + i * 40 in
      let* nm := readString view off 8 in
      let* vSize := getUint32 view (off + 8) true in
      let* vAddr := getUint32 view (off + 12) true in
      let* rawSize := getUint32 view (off + 16) true in
      let* rawPtr := getUint32 view (off + 20) true in
      let meta := mkSection nm vAddr vSize rawPtr rawSize in
      let header := mkRegion ("Header: " ++ nm) off 40 SECTION_HEADER [] in
      let dataRegion :=
        if (0 <? rawSize) && (0 <? rawPtr) && (rawPtr <? byteLength view) then
          let actualSize := Z.min rawSize (byteLength view - rawPtr) in
          [mkRegion ("Section: " ++ nm) rawPtr actualSize SECTION_DATA []]
        else [] in
      sections_loop view sectionHeadersOffset n' (i + 1)
        (mkSectionScan (scan_meta acc ++ [meta]) (scan_headers acc ++ [header])
                       (scan_data acc ++ dataRegion))
  end.

Definition invalidFile (fileName : string) (buf : buffer) (regions : list PERegion)
    (msg : string) (fmt : FileFormat) : ParsedFile :=
  mkParsedFile fileName (byteLength buf) buf regions [] false (Some msg) fmt.

Definition parsePE (buf : buffer) (fileName : string) (isDarkMode : bool)
  : outcome ParsedFile :=
  let view := buf in
  if byteLength view <? 64 then
    Ok (invalidFile fileName buf [] "File too small" PE)
  else
    (* 1. DOS Header *)
    let* e_magic := getUint16 view 0 true in
    if negb (e_magic =? 0x5A4D) then
      Ok (invalidFile fileName buf [] "Invalid DOS signature (not MZ)" PE)
    else
      let* e_lfanew := getUint32 view 0x3C true in
      let regions := [mkRegion "DOS Header" 0 64 DOS_HEADER []] in
      if byteLength view <? e_lfanew + 4 then
        Ok (invalidFile fileName buf regions "Invalid PE offset" PE)
      else
        (* 2. NT Headers (Signature) *)
        let* signature := getUint32 view e_lfanew true in
        if negb (signature =? 0x00004550) then
          Ok (invalidFile fileName buf regions "Invalid PE signature" PE)
        else
          let signatureRegion := field "Signature" e_lfanew 4 in
          (* 3. File Header *)
          let fileHeaderOffset := e_lfanew + 4 in
          let* machine := getUint16 view fileHeaderOffset true in
          let* numberOfSections := getUint16 view (fileHeaderOffset + 2) true in
          let* timeDateStamp := getUint32 view (fileHeaderOffset + 4) true in
          let* pointerToSymbolTable := getUint32 view (fileHeaderOffset + 8) true in
          let* numberOfSymbols := getUint32 view (fileHeaderOffset + 12) true in
          let* sizeOfOptionalHeader := getUint16 view (fileHeaderOffset + 16) true in
          let* characteristics := getUint16 view (fileHeaderOffset + 18) true in
          let fileHeaderRegion :=
            mkRegion "File Header" fileHeaderOffset 20 FILE_HEADER
              [ field "Machine" fileHeaderOffset 2;
                field "NumberOfSections" (fileHeaderOffset + 2) 2;
                field "TimeDateStamp" (fileHeaderOffset + 4) 4;
                field "PointerToSymbolTable" (fileHeaderOffset + 8) 4;
                field "NumberOfSymbols" (fileHeaderOffset + 12) 4;
                field "SizeOfOptionalHeader" (fileHeaderOffset + 16) 2;
                field "Characteristics" (fileHeaderOffset + 18) 2 ] in
          (* 4. Optional Header *)
          let optHeaderOffset := fileHeaderOffset + 20 in
          let* magic :=
            if 0 <? sizeOfOptionalHeader
            then getUint16 view optHeaderOffset true
            else Ok 0 in
          let is64Bit := magic =? 0x20b in
          let* optChildren :=
            if 0 <? sizeOfOptionalHeader then
              let* parsed := optionalHeaderFields view optHeaderOffset is64Bit in
              let '(fields, dataDirsOffset, numberOfRvaAndSizes) := parsed in
              let safeNumDirs := Z.min numberOfRvaAndSizes 16 in
              let* dirs :=
                dataDirs_loop view dataDirsOffset
                  (optHeaderOffset + sizeOfOptionalHeader)
                  (Z.to_nat safeNumDirs) 0 [] in
              let dataDirsRegion :=
                mkRegion "Data Directories" dataDirsOffset (safeNumDirs * 8)
                  DATA_DIRECTORY dirs in
              Ok (fields ++ [dataDirsRegion])
            else Ok [] in
          let optionalHeaderRegion :=
            mkRegion "Optional Header" optHeaderOffset sizeOfOptionalHeader
              OPTIONAL_HEADER optChildren in
          let ntHeadersRegion :=
            mkRegion "NT Headers" e_lfanew (4 + 20 + sizeOfOptionalHeader) NT_HEADERS
              [signatureRegion; fileHeaderRegion; optionalHeaderRegion] in
          let regions := regions ++ [ntHeadersRegion] in
          (* 5. Section Headers *)
          let sectionHeadersOffset := optHeaderOffset + sizeOfOptionalHeader in
          let* scan :=
            sections_loop view sectionHeadersOffset (Z.to_nat numberOfSections) 0
              (mkSectionScan [] [] []) in
          let sectionHeadersRegion :=
            mkRegion "Section Headers" sectionHeadersOffset (numberOfSections * 40)
              SECTION_HEADER (scan_headers scan) in
          let regions := regions ++ [sectionHeadersRegion] in
          let regions := regions ++ sort_by_offset (scan_data scan) in
          let endOfLastRegion :=
            match last (map Some regions) None with
            | Some lastRegion => offset lastRegion + size lastRegion
            | None => 0
            end in
          let regions :=
            if endOfLastRegion <? byteLength view then
              regions ++ [mkRegion "Overlay / EOF" endOfLastRegion
                            (byteLength view - endOfLastRegion) OVERLAY []]
            else regions in
          Ok (mkParsedFile fileName (byteLength buf) view regions (scan_meta scan)
                           true None PE).

(* ================================================================== *)
(** ** [parseMachOAtOffset] and [parseMachO] *)

Definition MAGIC_32_LE : Z := 0xFEEDFACE.
Definition MAGIC_32_BE : Z := 0xCEFAEDFE.
Definition MAGIC_64_LE : Z := 0xFEEDFACF.
Definition MAGIC_64_BE : Z := 0xCFFAEDFE.

Definition FAT_MAGIC_BE : Z := 0xCAFEBABE.
Definition FAT_CIGAM_LE : Z := 0xBEBAFECA.
Definition FAT_MAGIC_64_BE : Z := 0xCAFEBABF.
Definition FAT_CIGAM_64_LE : Z := 0xBFBAFECA.

(** The key [[0x22 | LC_REQ_DYLD]] is computed with the 32-bit signed [|],
    hence negative. *)
Definition LC_TYPES : list (Z * string) :=
  [ (0x1, "LC_SEGMENT"); (0x2, "LC_SYMTAB"); (0x3, "LC_SYMSEG");
    (0x4, "LC_THREAD"); (0x5, "LC_UNIXTHREAD"); (0x6, "LC_LOADFVMLIB");
    (0x7, "LC_IDFVMLIB"); (0x8, "LC_IDENT"); (0x9, "LC_FVMFILE");
    (0xa, "LC_PREPAGE"); (0xb, "LC_DYSYMTAB"); (0xc, "LC_LOAD_DYLIB");
    (0xd, "LC_ID_DYLIB"); (0xe, "LC_LOAD_DYLINKER"); (0xf, "LC_ID_DYLINKER");
    (0x10, "LC_PREBOUND_DYLIB"); (0x11, "LC_ROUTINES");
    (0x12, "LC_SUB_FRAMEWORK"); (0x13, "LC_SUB_UMBRELLA");
    (0x14, "LC_SUB_CLIENT"); (0x15, "LC_SUB_LIBRARY");
    (0x16, "LC_TWOLEVEL_HINTS"); (0x17, "LC_PREBIND_CKSUM");
    (0x18, "LC_LOAD_WEAK_DYLIB"); (0x19, "LC_SEGMENT_64");
    (0x1a, "LC_ROUTINES_64"); (0x1b, "LC_UUID"); (0x1c, "LC_RPATH");
    (0x1d, "LC_CODE_SIGNATURE"); (0x1e, "LC_SEGMENT_SPLIT_INFO");
    (0x1f, "LC_REEXPORT_DYLIB"); (0x20, "LC_LAZY_LOAD_DYLIB");
    (0x21, "LC_ENCRYPTION_INFO"); (0x22, "LC_DYLD_INFO");
    (0x22 - 0x80000000, "LC_DYLD_INFO_ONLY");
    (0x23, "LC_LOAD_UPWARD_DYLIB"); (0x24, "LC_VERSION_MIN_MACOSX");
    (0x25, "LC_VERSION_MIN_IPHONEOS"); (0x26, "LC_FUNCTION_STARTS");
    (0x27, "LC_DYLD_ENVIRONMENT"); (0x28, "LC_MAIN");
    (0x29, "LC_DATA_IN_CODE"); (0x2A, "LC_SOURCE_VERSION");
    (0x2B, "LC_DYLIB_CODE_SIGN_DRS"); (0x2C, "LC_ENCRYPTION_INFO_64");
    (0x2D, "LC_LINKER_OPTION"); (0x2E, "LC_LINKER_OPTIMIZATION_HINT");
    (0x32, "LC_BUILD_VERSION") ]%string.

Definition CPU_TYPES : list (Z * string) :=
  [ (7, "x86"); (0x1000007, "x86_64"); (12, "ARM"); (0x100000C, "ARM64") ]%string.

(** [TABLE[key] || formatHex(key)] *)
Definition nameOrHex (table : list (Z * string)) (key : Z) : string :=
  match lookup table key with
  | Some s => s
  | None => formatHex key 0
  end.

(** [isSeg64 ? view.getBigUint64(a, isLE) : BigInt(view.getUint32(b, isLE))] *)
Definition getSegWord (view : buffer) (isSeg64 isLE : bool) (a b : Z) : outcome Z :=
  if isSeg64 then getBigUint64 view a isLE else getUint32 view b isLE.

(** The loop over the section headers embedded in a segment command. [base]
    is the file offset of the slice being parsed. *)
Fixpoint machoSections_loop (view : buffer) (base : Z) (prefix : string)
    (isLE isSeg64 : bool) (n : nat) (sectOffset : Z)
    (kids : list PERegion) (meta : list SectionMetadata)
  : outcome (list PERegion * list SectionMetadata) :=
  match n with
  | O => Ok (kids, meta)
  | S n' =>
      let sectionHeaderSize := if isSeg64 then 80 else 68 in
      if byteLength view <? sectOffset + sectionHeaderSize then Ok (kids, meta)
      else
        let* sName := readString view sectOffset 16 in
        let* segNameRef := readString view (sectOffset + 16) 16 in
        let* sAddr := getSegWord view isSeg64 isLE (sectOffset + 32) (sectOffset + 32) in
        let* sSize := getSegWord view isSeg64 isLE (sectOffset + 40) (sectOffset + 36) in
        let* sOffset := getUint32 view (sectOffset + (if isSeg64 then 48 else 40)) isLE in
        let sSizeNum := Number_of_bigint sSize in
        let sOffsetNum := sOffset in
        let sAddrNum := Number_of_bigint sAddr in
        let absoluteSectionOffset := base + sOffsetNum in
        let kid :=
          mkRegion ("Section: " ++ sName) sectOffset sectionHeaderSize SECTION_HEADER [] in
        let m :=
          mkSection (prefix ++ segNameRef ++ "." ++ sName) sAddrNum sSizeNum
                    absoluteSectionOffset sSizeNum in
        machoSections_loop view base prefix isLE isSeg64 n'
          (sectOffset + sectionHeaderSize) (kids ++ [kid]) (meta ++ [m])
  end.

(** What the walk over the load commands collects: the children of the
    ["Load Commands"] region, the segment data regions pushed to the regions of
    the slice, and the section metadata. *)
Record CmdScan : Type :=
  mkCmdScan {
    cmd_children : list PERegion;
    cmd_segments : list PERegion;
    cmd_meta : list SectionMetadata
  }.

Fixpoint loadCommands_loop (view : buffer) (base : Z) (prefix : string)
    (isLE : bool) (headerSize sizeofCmds : Z)
    (n : nat) (currentCmdOffset : Z) (acc : CmdScan) : outcome CmdScan :=
  match n with
  | O => Ok acc
  | S n' =>
      if byteLength view <? currentCmdOffset + 8 then Ok acc
      else
        let* cmd := getUint32 view currentCmdOffset isLE in
        let* cmdSize := getUint32 view (currentCmdOffset + 4) isLE in
        let cmdName := nameOrHex LC_TYPES cmd in
        let kids0 :=
          [field "Command" currentCmdOffset 4; field "CmdSize" (currentCmdOffset + 4) 4] in
        let* seg :=
          if (cmd =? 0x1) || (cmd =? 0x19) then
            let isSeg64 := cmd =? 0x19 in
            if currentCmdOffset + (if isSeg64 then 72 else 56) <=? byteLength view then
              let* segName := readString view (currentCmdOffset + 8) 16 in
              let* vmAddr := getSegWord view isSeg64 isLE
                               (currentCmdOffset + 24) (currentCmdOffset + 24) in
              let* vmSize := getSegWord view isSeg64 isLE
                               (currentCmdOffset + 32) (currentCmdOffset + 28) in
              let* fileOff := getSegWord view isSeg64 isLE
                                (currentCmdOffset + 40) (currentCmdOffset + 32) in
              let* fileSize := getSegWord view isSeg64 isLE
                                 (currentCmdOffset + 48) (currentCmdOffset + 36) in
              let nSectsOffset := currentCmdOffset + (if isSeg64 then 64 else 48) in
              let* nSects := getUint32 view nSectsOffset isLE in
              let sectOffset := currentCmdOffset + (if isSeg64 then 72 else 56) in
              let* sects :=
                machoSections_loop view base prefix isLE isSeg64
                  (Z.to_nat nSects) sectOffset kids0 (cmd_meta acc) in
              let fileOffNum := Number_of_bigint fileOff in
              let fileSizeNum := Number_of_bigint fileSize in
              let absoluteSegmentOffset := js_add base fileOffNum in
              let segments :=
                if (0 <? fileSizeNum)
                   && (js_add absoluteSegmentOffset fileSizeNum <=? byteLength view)
                   && (headerSize + sizeofCmds <=? fileOffNum)
                then
                  cmd_segments acc
                    ++ [mkRegion (prefix ++ "Segment: " ++ segName)
                          absoluteSegmentOffset fileSizeNum SEGMENT []]
                else cmd_segments acc in
              Ok (fst sects, segments, snd sects)
            else Ok (kids0, cmd_segments acc, cmd_meta acc)
          else Ok (kids0, cmd_segments acc, cmd_meta acc) in
        let '(kids, segments, meta) := seg in
        (* LC_MAIN: details.EntryOffset *)
        let* _ :=
          if cmd =? 0x80000028
          then getBigUint64 view (currentCmdOffset + 8) isLE
          else Ok 0 in
        let cmdRegion := mkRegion cmdName currentCmdOffset cmdSize LOAD_COMMAND kids in
        loadCommands_loop view base prefix isLE headerSize sizeofCmds n'
          (currentCmdOffset + cmdSize)
          (mkCmdScan (cmd_children acc ++ [cmdRegion]) segments meta)
  end.

(** [sizeLimit] is a parameter of the source function that its body never
    reads. *)
Definition parseMachOAtOffset (view : buffer) (base : Z) (sizeLimit : Z)
    (prefix : string) : outcome (list PERegion * list SectionMetadata) :=
  if byteLength view <? base + 4 then Ok ([], [])
  else
    let* magic := getUint32 view base false in
    let arch :=
      if magic =? MAGIC_32_LE then Some (false, false)
      else if magic =? MAGIC_32_BE then Some (true, false)
      else if magic =? MAGIC_64_LE then Some (false, true)
      else if magic =? MAGIC_64_BE then Some (true, true)
      else None in
    match arch with
    | None => Ok ([], [])
    | Some (isLE, is64) =>
        let headerSize := if is64 then 32 else 28 in
        if byteLength view <? base + headerSize then Ok ([], [])
        else
          let* cpuType := getInt32 view (base + 4) isLE in
          let* cpuSubtype := getInt32 view (base + 8) isLE in
          let* fileType := getUint32 view (base + 12) isLE in
          let* nCmds := getUint32 view (base + 16) isLE in
          let* sizeofCmds := getUint32 view (base + 20) isLE in
          let* flags := getUint32 view (base + 24) isLE in
          let header :=
            mkRegion (prefix ++ "Mach-O Header") base headerSize MACHO_HEADER [] in
          let currentCmdOffset := base + headerSize in
          let* scan :=
            loadCommands_loop view base prefix isLE headerSize sizeofCmds
              (Z.to_nat nCmds) currentCmdOffset (mkCmdScan [] [] []) in
          let loadCommandsRegion :=
            mkRegion (prefix ++ "Load Commands") currentCmdOffset sizeofCmds
              LOAD_COMMAND (cmd_children scan) in
          Ok ([header] ++ cmd_segments scan ++ [loadCommandsRegion], cmd_meta scan)
    end.

(** The loop over the [fat_arch] entries of a Fat header. *)
Fixpoint fatArch_loop (view : buffer) (isLE : bool) (n : nat) (off : Z)
    (regions : list PERegion) (meta : list SectionMetadata)
  : outcome (list PERegion * list SectionMetadata) :=
  match n with
  | O => Ok (regions, meta)
  | S n' =>
      let archStructSize := 20 in
      if byteLength view <? off + archStructSize then Ok (regions, meta)
      else
        let* cputype := getInt32 view off isLE in
        let* cpusubtype := getInt32 view (off + 4) isLE in
        let* sliceOffset := getUint32 view (off + 8) isLE in
        let* sliceSize := getUint32 view (off + 12) isLE in
        let* align := getUint32 view (off + 16) isLE in
        let cpuName := nameOrHex CPU_TYPES cputype in
        let regions :=
          regions ++ [mkRegion ("Arch Def: " ++ cpuName) off archStructSize FAT_HEADER []] in
        let* sliced :=
          if (0 <? sliceOffset) && (sliceOffset + sliceSize <=? byteLength view) then
            let* sliceParse :=
              parseMachOAtOffset view sliceOffset sliceSize ("[" ++ cpuName ++ "] ") in
            Ok (regions ++ [mkRegion ("Slice: " ++ cpuName) sliceOffset sliceSize
                              SEGMENT (fst sliceParse)],
                meta ++ snd sliceParse)
          else Ok (regions, meta) in
        fatArch_loop view isLE n' (off + archStructSize) (fst sliced) (snd sliced)
  end.

Definition isFatMagic (magic : Z) : bool :=
  (magic =? FAT_MAGIC_BE) || (magic =? FAT_CIGAM_LE)
  || (magic =? FAT_MAGIC_64_BE) || (magic =? FAT_CIGAM_64_LE).

Definition parseMachO (buf : buffer) (fileName : string) (isDarkMode : bool)
  : outcome ParsedFile :=
  let view := buf in
  if byteLength view <? 28 then
    Ok (invalidFile fileName buf [] "File too small" MachO)
  else
    let* magic := getUint32 view 0 false in
    let* parsed :=
      if isFatMagic magic then
        let isLE := (magic =? FAT_CIGAM_LE) || (magic =? FAT_CIGAM_64_LE) in
        let* nFatArch := getUint32 view 4 isLE in
        let regions := [mkRegion "Fat Header" 0 8 FAT_HEADER []] in
        fatArch_loop view isLE (Z.to_nat nFatArch) 8 regions []
      else parseMachOAtOffset view 0 (byteLength view) "" in
    let regions := sort_by_offset (fst parsed) in
    Ok (mkParsedFile fileName (byteLength buf) view regions (snd parsed)
                     true None MachO).

(* ================================================================== *)
(** ** [parseELF] *)

Definition PT_TYPES : list (Z * string) :=
  [ (0, "PT_NULL"); (1, "PT_LOAD"); (2, "PT_DYNAMIC"); (3, "PT_INTERP");
    (4, "PT_NOTE"); (5, "PT_SHLIB"); (6, "PT_PHDR"); (7, "PT_TLS") ]%string.

Definition SH_TYPES : list (Z * string) :=
  [ (0, "SHT_NULL"); (1, "SHT_PROGBITS"); (2, "SHT_SYMTAB"); (3, "SHT_STRTAB");
    (4, "SHT_RELA"); (5, "SHT_HASH"); (6, "SHT_DYNAMIC"); (7, "SHT_NOTE");
    (8, "SHT_NOBITS"); (9, "SHT_REL"); (10, "SHT_SHLIB"); (11, "SHT_DYNSYM") ]%string.

Fixpoint decDigits (fuel : nat) (z : Z) (acc : string) : string :=
  match fuel with
  | O => acc
  | S fuel' =>
      let acc' := String (char_of_code (48 + z mod 10)) acc in
      if z / 10 =? 0 then acc' else decDigits fuel' (z / 10) acc'
  end.

(** The decimal text of a non-negative integer in a template string. *)
Definition toStringDec (z : Z) : string :=
  decDigits (S (Z.to_nat (Z.log2 z))) z "".

(** [readString] of the ELF parser: up to 256 bytes, clamped to the view. *)
Definition readString_elf (view : buffer) (off : Z) : outcome string :=
  let maxLen := byteLength view - off in
  if maxLen <=? 0 then Ok EmptyString
  else readString_loop view off (Z.to_nat (Z.min maxLen 256)) 0.

(** [is64 ? view.getBigUint64(off, isLE) : BigInt(view.getUint32(off, isLE))] *)
Definition getElfWord (view : buffer) (off : Z) (is64 isLE : bool) : outcome Z :=
  if is64 then getBigUint64 view off isLE else getUint32 view off isLE.

(** The loop over the program headers. *)
Fixpoint programHeaders_loop (view : buffer) (is64 isLE : bool)
    (phOffset e_phentsize : Z) (n : nat) (i : Z) (kids : list PERegion)
  : outcome (list PERegion) :=
  match n with
  | O => Ok kids
  | S n' =>
      let currOff := phOffset + i * e_phentsize in
      let* p_type :=
        if is64 then
          let* p_type := getUint32 view currOff isLE in
          let* _ := getUint32 view (currOff + 4) isLE in
          let* _ := getBigUint64 view (currOff + 8) isLE in
          let* _ := getBigUint64 view (currOff + 16) isLE in
          let* _ := getBigUint64 view (currOff + 24) isLE in
          let* _ := getBigUint64 view (currOff + 32) isLE in
          let* _ := getBigUint64 view (currOff + 40) isLE in
          let* _ := getBigUint64 view (currOff + 48) isLE in
          Ok p_type
        else
          let* p_type := getUint32 view currOff isLE in
          let* _ := getUint32 view (currOff + 4) isLE in
          let* _ := getUint32 view (currOff + 8) isLE in
          let* _ := getUint32 view (currOff + 12) isLE in
          let* _ := getUint32 view (currOff + 16) isLE in
          let* _ := getUint32 view (currOff + 20) isLE in
          let* _ := getUint32 view (currOff + 24) isLE in
          let* _ := getUint32 view (currOff + 28) isLE in
          Ok p_type in
      let typeStr := nameOrHex PT_TYPES p_type in
      let kid :=
        mkRegion ("PH " ++ toStringDec i ++ ": " ++ typeStr) currOff e_phentsize
                 PROGRAM_HEADER [] in
      programHeaders_loop view is64 isLE phOffset e_phentsize n' (i + 1) (kids ++ [kid])
  end.

(** [TempSection], with the fields that are used after the first pass. *)
Record TempSection : Type :=
  mkTempSection {
    ts_index : Z;
    ts_nameIdx : Z;
    ts_type : Z;
    ts_addr : Z;
    ts_offset : Z;
    ts_size : Z;
    ts_headerOffset : Z
  }.

(** First pass over the section headers. *)
Fixpoint tempSections_loop (view : buffer) (is64 isLE : bool)
    (shOffset e_shentsize : Z) (n : nat) (i : Z) (acc : list TempSection)
  : outcome (list TempSection) :=
  match n with
  | O => Ok acc
  | S n' =>
      let currOff := shOffset + i * e_shentsize in
      let* sec :=
        if is64 then
          let* sh_name := getUint32 view currOff isLE in
          let* sh_type := getUint32 view (currOff + 4) isLE in
          let* _ := getBigUint64 view (currOff + 8) isLE in
          let* sh_addr := getBigUint64 view (currOff + 16) isLE in
          let* sh_offset := getBigUint64 view (currOff + 24) isLE in
          let* sh_size := getBigUint64 view (currOff + 32) isLE in
          let* _ := getUint32 view (currOff + 40) isLE in
          let* _ := getUint32 view (currOff + 44) isLE in
          let* _ := getBigUint64 view (currOff + 48) isLE in
          let* _ := getBigUint64 view (currOff + 56) isLE in
          Ok (mkTempSection i sh_name sh_type sh_addr sh_offset sh_size currOff)
        else
          let* sh_name := getUint32 view currOff isLE in
          let* sh_type := getUint32 view (currOff + 4) isLE in
          let* _ := getUint32 view (currOff + 8) isLE in
          let* sh_addr := getUint32 view (currOff + 12) isLE in
          let* sh_offset := getUint32 view (currOff + 16) isLE in
          let* sh_size := getUint32 view (currOff + 20) isLE in
          let* _ := getUint32 view (currOff + 24) isLE in
          let* _ := getUint32 view (currOff + 28) isLE in
          let* _ := getUint32 view (currOff + 32) isLE in
          let* _ := getUint32 view (currOff + 36) isLE in
          Ok (mkTempSection i sh_name sh_type sh_addr sh_offset sh_size currOff) in
      tempSections_loop view is64 isLE shOffset e_shentsize n' (i + 1) (acc ++ [sec])
  end.

(** Second pass ([tempSections.forEach]): names, header regions, metadata and
    data regions. *)
Fixpoint elfSections_loop (view : buffer) (stringTableOffset e_shentsize : Z)
    (secs : list TempSection) (acc : SectionScan) : outcome SectionScan :=
  match secs with
  | [] => Ok acc
  | sec :: rest =>
      let* nm :=
        if (0 <? stringTableOffset) && (0 <? ts_nameIdx sec) then
          let nameOff := js_add stringTableOffset (ts_nameIdx sec) in
          if nameOff <? byteLength view then readString_elf view nameOff
          else Ok ("Section " ++ toStringDec (ts_index sec))%string
        else Ok ("Section " ++ toStringDec (ts_index sec))%string in
      let typeStr := nameOrHex SH_TYPES (ts_type sec) in
      let offsetNum := Number_of_bigint (ts_offset sec) in
      let sizeNum := Number_of_bigint (ts_size sec) in
      let header :=
        mkRegion ("SH: " ++ (if String.eqb nm "" then typeStr else nm))
                 (ts_headerOffset sec) e_shentsize SECTION_HEADER [] in
      let meta :=
        mkSection nm (Number_of_bigint (ts_addr sec)) sizeNum offsetNum sizeNum in
      let dataRegion :=
        if negb (ts_type sec =? 8) && (0 <? sizeNum)
           && (js_add offsetNum sizeNum <=? byteLength view)
        then [mkRegion ("Section: " ++ nm) offsetNum sizeNum SECTION_DATA []]
        else [] in
      elfSections_loop view stringTableOffset e_shentsize rest
        (mkSectionScan (scan_meta acc ++ [meta]) (scan_headers acc ++ [header])
                       (scan_data acc ++ dataRegion))
  end.

Definition parseELF (buf : buffer) (fileName : string) (isDarkMode : bool)
  : outcome ParsedFile :=
  let view := buf in
  if byteLength view <? 16 then
    Ok (invalidFile fileName buf [] "File too small" ELF)
  else
    let* m0 := getUint8 view 0 in
    let* m1 := getUint8 view 1 in
    let* m2 := getUint8 view 2 in
    let* m3 := getUint8 view 3 in
    if negb (m0 =? 0x7F) || negb (m1 =? 0x45) || negb (m2 =? 0x4C) || negb (m3 =? 0x46)
    then Ok (invalidFile fileName buf [] "Invalid ELF magic" ELF)
    else
      let* classByte := getUint8 view 4 in
      let* dataByte := getUint8 view 5 in
      let is64 := classByte =? 2 in
      let isLE := dataByte =? 1 in
      let headerSize := if is64 then 64 else 52 in
      let w := if is64 then 8 else 4 in
      let* e_type := getUint16 view 16 isLE in
      let* e_machine := getUint16 view 18 isLE in
      let* e_version := getUint32 view 20 isLE in
      let off := 24 in
      let* e_entry := getElfWord view off is64 isLE in
      let off := off + w in
      let* e_phoff := getElfWord view off is64 isLE in
      let off := off + w in
      let* e_shoff := getElfWord view off is64 isLE in
      let off := off + w in
      let* e_flags := getUint32 view off isLE in
      let off := off + 4 in
      let* e_ehsize := getUint16 view off isLE in
      let off := off + 2 in
      let* e_phentsize := getUint16 view off isLE in
      let off := off + 2 in
      let* e_phnum := getUint16 view off isLE in
      let off := off + 2 in
      let* e_shentsize := getUint16 view off isLE in
      let off := off + 2 in
      let* e_shnum := getUint16 view off isLE in
      let off := off + 2 in
      let* e_shstrndx := getUint16 view off isLE in
      let regions :=
        [mkRegion "ELF Header" 0 headerSize ELF_HEADER
           [ field "Magic" 0 4; field "Class" 4 1; field "Data" 5 1;
             field "Type" 16 2; field "Machine" 18 2; field "Entry" 24 w ]] in
      (* 3. Program headers *)
      let* regions :=
        if (0 <? e_phnum) && (0 <? e_phoff) then
          let phOffset := Number_of_bigint e_phoff in
          let phSize := e_phnum * e_phentsize in
          if js_add phOffset phSize <=? byteLength view then
            let* kids :=
              programHeaders_loop view is64 isLE phOffset e_phentsize
                (Z.to_nat e_phnum) 0 [] in
            Ok (regions ++ [mkRegion "Program Headers" phOffset phSize
                              PROGRAM_HEADER kids])
          else Ok regions
        else Ok regions in
      (* 4. Section headers *)
      let* parsed :=
        if (0 <? e_shnum) && (0 <? e_shoff) then
          let shOffset := Number_of_bigint e_shoff in
          let shTotalSize := e_shnum * e_shentsize in
          if js_add shOffset shTotalSize <=? byteLength view then
            let* tempSections :=
              tempSections_loop view is64 isLE shOffset e_shentsize
                (Z.to_nat e_shnum) 0 [] in
            let stringTableOffset :=
              if negb (e_shstrndx =? 0)
                 && (e_shstrndx <? Z.of_nat (List.length tempSections))
              then
                match nth_error tempSections (Z.to_nat e_shstrndx) with
                | Some strTabSection =>
                    if ts_type strTabSection =? 3
                    then Number_of_bigint (ts_offset strTabSection)
                    else -1
                | None => -1
                end
              else -1 in
            let* scan :=
              elfSections_loop view stringTableOffset e_shentsize tempSections
                (mkSectionScan [] [] []) in
            let sectionsRegion :=
              mkRegion "Section Headers" shOffset shTotalSize SECTION_HEADER
                       (scan_headers scan) in
            Ok (regions ++ [sectionsRegion] ++ scan_data scan, scan_meta scan)
          else Ok (regions, [])
        else Ok (regions, []) in
      Ok (mkParsedFile fileName (byteLength buf) view (sort_by_offset (fst parsed))
                       (snd parsed) true None ELF).

(* ================================================================== *)
(** ** [parseHEIC] *)

Definition BOX_CONTAINERS : list string :=
  [ "moov"; "trak"; "edts"; "mdia"; "minf"; "dinf"; "stbl"; "mvex";
    "moof"; "traf"; "mfra"; "skip"; "udta"; "meta"; "ipro"; "sinf";
    "fiin"; "paen"; "strk" ]%string.

Definition isContainer (type : string) : bool :=
  existsb (String.eqb type) BOX_CONTAINERS.

(** [parseBoxes(start, end)]: the [while (offset < end)] loop together with
    the recursion into container boxes. Each call, nested or following, starts
    at least 8 bytes further in the file and takes one unit of fuel. *)
Fixpoint parseBoxes (view : buffer) (fuel : nat) (off endOff : Z)
    (boxes : list PERegion) : outcome (list PERegion) :=
  match fuel with
  | O => OutOfFuel
  | S fuel' =>
      if negb (off <? endOff) then Ok boxes
      else if endOff <? off + 8 then Ok boxes
      else
        let* size32 := getUint32 view off false in
        let* type := readString_clamped view (off + 4) 4 in
        let* sized :=
          if size32 =? 1 then
            if endOff <? off + 16 then Ok None
            else
              let* size64 := getBigUint64 view (off + 8) false in
              Ok (Some (Number_of_bigint size64, 16))
          else if size32 =? 0 then Ok (Some (endOff - off, 8))
          else Ok (Some (size32, 8)) in
        match sized with
        | None => Ok boxes
        | Some (boxSize, headerSize) =>
            if (boxSize <? headerSize) || (endOff + 100 <? js_add off boxSize)
            then Ok boxes
            else
              let effectiveEnd := Z.min (js_add off boxSize) endOff in
              let kids0 := [field "Size" off 4; field "Type" (off + 4) 4] in
              let* _ :=
                if String.eqb type "ftyp" then
                  let* _ := readString_clamped view (off + 8) 4 in
                  getUint32 view (off + 12) false
                else Ok 0 in
              let* kids :=
                if isContainer type then
                  let* meta :=
                    if String.eqb type "meta" then
                      let* _ := getUint32 view (off + headerSize) false in
                      Ok (off + headerSize + 4,
                          kids0 ++ [field "Ver/Flags" (off + headerSize) 4])
                    else Ok (off + headerSize, kids0) in
                  let* nested := parseBoxes view fuel' (fst meta) effectiveEnd [] in
                  Ok (snd meta ++ nested)
                else if (off + headerSize <? effectiveEnd)
                        && negb (String.eqb type "mdat")
                then Ok (kids0 ++ [mkRegion "Data" (off + headerSize)
                                     (effectiveEnd - (off + headerSize)) IMAGE_DATA []])
                else Ok kids0 in
              let boxRegion :=
                mkRegion ("Box: " ++ type) off (effectiveEnd - off) HEIC_BOX kids in
              parseBoxes view fuel' (js_add off boxSize) endOff (boxes ++ [boxRegion])
        end
  end.

Definition parseHEIC (buf : buffer) (fileName : string) (isDarkMode : bool)
  : outcome ParsedFile :=
  let view := buf in
  let* regions := parseBoxes view (S (List.length view)) 0 (byteLength view) [] in
  Ok (mkParsedFile fileName (byteLength buf) view regions [] true None HEIC).

(* ================================================================== *)
(** ** [handleFile] ([App.tsx]): format detection and the parse boundary *)

(** The body of the [try] block up to the parsed file: the magic sniffing and
    the dispatch to a parser. *)
Definition detectAndParse (buf : buffer) (fileName : string) (isDarkMode : bool)
  : outcome ParsedFile :=
  let view := buf in
  if 4 <=? byteLength view then
    let* magic := getUint32 view 0 false in
    let* mz := getUint16 view 0 true in
    if mz =? 0x5A4D then parsePE buf fileName isDarkMode
    else
      let* b0 := getUint8 view 0 in
      let* b1 := getUint8 view 1 in
      let* b2 := getUint8 view 2 in
      let* b3 := getUint8 view 3 in
      if (b0 =? 0x7F) && (b1 =? 0x45) && (b2 =? 0x4C) && (b3 =? 0x46)
      then parseELF buf fileName isDarkMode
      else if (magic =? 0xFEEDFACE) || (magic =? 0xCEFAEDFE)
              || (magic =? 0xFEEDFACF) || (magic =? 0xCFFAEDFE)
              || (magic =? 0xCAFEBABE) || (magic =? 0xBEBAFECA)
              || (magic =? 0xCAFEBABF) || (magic =? 0xBFBAFECA)
      then parseMachO buf fileName isDarkMode
      else parsePE buf fileName isDarkMode
  else parsePE buf fileName isDarkMode.

(** The first four bytes carry one of the signatures the detector knows. *)
Definition recognizedMagic (buf : buffer) : bool :=
  match buf with
  | b0 :: b1 :: b2 :: b3 :: _ =>
      let bs := [b0; b1; b2; b3] in
      (le_value [b0; b1] =? 0x5A4D)
      || ((byte_val b0 =? 0x7F) && (byte_val b1 =? 0x45)
          && (byte_val b2 =? 0x4C) && (byte_val b3 =? 0x46))
      || existsb (Z.eqb (be_value bs))
           [0xFEEDFACE; 0xCEFAEDFE; 0xFEEDFACF; 0xCFFAEDFE;
            0xCAFEBABE; 0xBEBAFECA; 0xCAFEBABF; 0xBFBAFECA]
  | _ => false
  end.

(** [e.message]; the text of a [RangeError] is the host's. *)
Definition exn_message (e : exn) : string :=
  match e with
  | RangeError => "Offset is outside the bounds of the DataView"
  | SyntaxError => "Invalid regular expression"
  | Error msg => msg
  end.

(** What [handleFile] leaves behind: a new session on the parsed file, or the
    error message it sets. *)
Inductive LoadResult : Type :=
| SessionOpened (file : ParsedFile)
| ErrorMsg (msg : string).

(** [handleFile], from the buffer on: [try { .. } catch (e) { setErrorMsg(..) }].
    [parsedFile?.error || '..'] takes the default for an empty message too. *)
Definition handleFile (buf : buffer) (fileName : string) (isDarkMode : bool)
  : outcome LoadResult :=
  match detectAndParse buf fileName isDarkMode with
  | Ok parsedFile =>
      if negb (isValid parsedFile) then
        Ok (ErrorMsg
              match error parsedFile with
              | Some msg =>
                  if String.eqb msg "" then "Unrecognized or Invalid Binary File" else msg
              | None => "Unrecognized or Invalid Binary File"
              end)
      else Ok (SessionOpened parsedFile)
  | Throw e => Ok (ErrorMsg ("Failed to parse file: " ++ exn_message e))
  | OutOfFuel => OutOfFuel
  end.

(* ================================================================== *)
(** ** Vocabulary of the properties *)

(** *** Regions *)

(** [p] holds of [r] and of every region below it. *)
Fixpoint deep_forallb (p : PERegion -> bool) (r : PERegion) : bool :=
  match r with
  | mkRegion _ _ _ _ kids => p r && forallb (deep_forallb p) kids
  end.

(** The byte range of [c] lies within the byte range of [r]. *)
Definition withinb (r c : PERegion) : bool :=
  (offset r <=? offset c) && (offset c + size c <=? offset r + size r).

(** The region invariant of the data model at one node: a size that is not
    negative, a range that ends inside the file, children inside the node. *)
Definition node_okb (fileSize : Z) (r : PERegion) : bool :=
  (0 <=? size r) && (offset r + size r <=? fileSize)
  && forallb (withinb r) (children r).

(** The invariant over a whole forest. *)
Definition regions_okb (fileSize : Z) (forest : list PERegion) : bool :=
  forallb (deep_forallb (node_okb fileSize)) forest.

(** [r] and every region below it start at or after [base]. *)
Definition starts_from (base : Z) (r : PERegion) : bool :=
  deep_forallb (fun x => base <=? offset x) r.

(** Two byte ranges that share a byte. *)
Definition overlap (r1 r2 : PERegion) : Prop :=
  offset r1 < offset r2 + size r2 /\ offset r2 < offset r1 + size r1.

(** The slice regions of a Fat Mach-O parse: its top-level regions of type
    [SEGMENT] (the other top-level regions are of type [FAT_HEADER]). *)
Definition isSlice (r : PERegion) : bool := RegionType_eqb (type r) SEGMENT.

Definition slice_regions (pf : ParsedFile) : list PERegion :=
  filter isSlice (regions pf).

(** The chunk regions of a PNG parse. *)
Definition chunk_regions (pf : ParsedFile) : list PERegion :=
  filter (fun r => RegionType_eqb (type r) PNG_CHUNK) (regions pf).

(** Every region of the list, with the regions below it, starts at or after
    [base]. *)
Definition all_from (base : Z) (l : list PERegion) : Prop :=
  forallb (starts_from base) l = true.

Definition range_of (r : PERegion) : Z * Z := (offset r, size r).

(** *** Fat Mach-O: the slices a header declares *)

(** The 32-bit value at [off], 0 when the read leaves the buffer. *)
Definition readU32 (view : buffer) (off : Z) (isLE : bool) : Z :=
  match getUint32 view off isLE with
  | Ok v => v
  | _ => 0
  end.

(** The slice that the [fat_arch] entry number [i] (20 bytes at [8 + 20 i])
    contributes: its declared range, when the entry lies inside the buffer,
    the declared offset is not 0 and the declared range ends inside the
    file. *)
Definition sliceAt (view : buffer) (isLE : bool) (i : Z) : list (Z * Z) :=
  let off := 8 + 20 * i in
  if off + 20 <=? byteLength view then
    let sliceOffset := readU32 view (off + 8) isLE in
    let sliceSize := readU32 view (off + 12) isLE in
    if (0 <? sliceOffset) && (sliceOffset + sliceSize <=? byteLength view)
    then [(sliceOffset, sliceSize)]
    else []
  else [].

Fixpoint slicesFrom (view : buffer) (isLE : bool) (n : nat) (i : Z) : list (Z * Z) :=
  match n with
  | O => []
  | S n' => sliceAt view isLE i ++ slicesFrom view isLE n' (i + 1)
  end.

(** The slices of the entries 0 .. [nFatArch] - 1, in the order of the header. *)
Definition declaredSlices (view : buffer) (isLE : bool) (nFatArch : Z) : list (Z * Z) :=
  slicesFrom view isLE (Z.to_nat nFatArch) 0.

(** What holds of a slice region by itself: a start that is not 0, an end
    inside the file, and nested regions that start at or after its start. *)
Definition slice_ok (fileSize : Z) (r : PERegion) : Prop :=
  0 < offset r /\ offset r + size r <= fileSize
  /\ all_from (offset r) (children r).

(** *** Offset mapping *)

(** The raw-file range of [sec] contains [off]; sums and differences are
    those of JavaScript numbers. *)
Definition in_raw_range (off : Z) (sec : SectionMetadata) : Prop :=
  pointerToRawData sec <= off
  /\ off < js_add (pointerToRawData sec) (sizeOfRawData sec).

(** [sec] yields a result for [off]: the range contains it and the delta is
    below the virtual size. *)
Definition maps_offset (off : Z) (sec : SectionMetadata) : Prop :=
  in_raw_range off sec /\ js_sub off (pointerToRawData sec) < virtualSize sec.

(** Fields on which the arithmetic of doubles is that of the integers. *)
Definition safe_section (sec : SectionMetadata) : Prop :=
  0 <= pointerToRawData sec /\ 0 <= sizeOfRawData sec
  /\ pointerToRawData sec + sizeOfRawData sec <= 2 ^ 53
  /\ 0 <= virtualAddress sec /\ 0 <= virtualSize sec
  /\ virtualAddress sec + virtualSize sec <= 2 ^ 53.

(** The same condition in exact integers: the raw-file range
    [[pointerToRawData, pointerToRawData + sizeOfRawData)] contains [off] and
    the delta [off - pointerToRawData] is below the virtual size. *)
Definition yields_rva (off : Z) (sec : SectionMetadata) : Prop :=
  pointerToRawData sec <= off < pointerToRawData sec + sizeOfRawData sec
  /\ off - pointerToRawData sec < virtualSize sec.

(** The metadata of a section of 4096 bytes at file offset 128 that is mapped
    at [0xffffffff81000000], as [parseELF] records it for a 64-bit kernel
    image ([virtualAddress: Number(sec.addr)]); the address is a double. *)
Definition kernelText : SectionMetadata :=
  mkSection ".text" 0xffffffff81000000 4096 128 4096.

(** *** Search *)

(** Results in ascending order of offset. *)
Definition ascending (results : list SearchResult) : Prop :=
  StronglySorted Z.le (map res_offset results).

(** What the loop of [searchPE] relies on from [RegExp.prototype.exec] on a
    global regex: a match starts at or after [lastIndex], and has a length. *)
Definition exec_advances (regex_exec : jsstring -> jsstring -> Z -> option (Z * Z))
  : Prop :=
  forall pattern str lastIndex index mlen,
    regex_exec pattern str lastIndex = Some (index, mlen) ->
    lastIndex <= index /\ 0 <= mlen.

(** UTF-16LE: two bytes per code unit, low byte first. *)
Definition utf16le (s : jsstring) : list Z :=
  flat_map (fun c => [c mod 256; c / 256]) s.

(** The values of the [n] bytes of [buf] from [off] on. *)
Definition bytes_at (buf : buffer) (off n : Z) : list Z :=
  map byte_val (firstn (Z.to_nat n) (skipn (Z.to_nat off) buf)).

(** An engine that never matches, and one that matches the empty string
    wherever it is asked to: two hosts to run [searchPE] with. *)
Definition exec_never : jsstring -> jsstring -> Z -> option (Z * Z) :=
  fun _ _ _ => None.
Definition exec_empty : jsstring -> jsstring -> Z -> option (Z * Z) :=
  fun _ _ lastIndex => Some (lastIndex, 0).

(** *** Outcomes of the parsers *)

(** [wp Q m]: the computation [m] returns a value that satisfies [Q], or it
    throws [RangeError]; it throws nothing else and does not run out of
    fuel. *)
Definition wp {A : Type} (Q : A -> Prop) (m : outcome A) : Prop :=
  match m with
  | Ok a => Q a
  | Throw e => e = RangeError
  | OutOfFuel => False
  end.


(** *** Concrete inputs *)

Definition MB50 : Z := 50 * 1024 * 1024.

(** A buffer of 50 MB and one byte. *)
Definition bigBuffer : buffer := repeat x00 (Z.to_nat (MB50 + 1)).

Definition fileOf (buf : buffer) (sections : list SectionMetadata) : ParsedFile :=
  mkParsedFile "" (byteLength buf) buf [] sections true None PE.

(** A JPEG of four bytes: the marker APP0 with a declared length of 0. *)
Definition jpegShortSegment : buffer := bytes [0xFF; 0xE0; 0x00; 0x00].

(** A JPEG of eight bytes: SOF0 with a declared length of 6 that ends the file. *)
Definition jpegShortSOF0 : buffer := bytes [0xFF; 0xC0; 0x00; 0x06; 8; 0; 1; 0].

(** "MZ", [e_lfanew] = 64 at 0x3C, "PE\0\0" at 64, and nothing behind it. *)
Definition peTruncated : buffer :=
  bytes ([0x4D; 0x5A] ++ repeat 0 58 ++ [64; 0; 0; 0] ++ [0x50; 0x45; 0; 0]).

(** A Fat header with two [fat_arch] entries that both declare the slice
    [48, 76), which holds a 32-bit Mach-O header with no load command and
    [sizeofcmds] = 1000. *)
Definition fatArchEntry (sliceOffset sliceSize : Z) : list Z :=
  [0; 0; 0; 7] ++ [0; 0; 0; 3] ++ [0; 0; 0; sliceOffset] ++ [0; 0; 0; sliceSize]
  ++ [0; 0; 0; 0].

Definition fatTwice : buffer :=
  bytes ([0xCA; 0xFE; 0xBA; 0xBE] ++ [0; 0; 0; 2]
         ++ fatArchEntry 48 28 ++ fatArchEntry 48 28
         ++ [0xFE; 0xED; 0xFA; 0xCE] ++ [0; 0; 0; 7] ++ [0; 0; 0; 3]
         ++ [0; 0; 0; 2] ++ [0; 0; 0; 0] ++ [0; 0; 0x03; 0xE8] ++ [0; 0; 0; 0]).

(** A PE of 184 bytes: no section, and an optional header that declares a
    size of 2 bytes ([SizeOfOptionalHeader] at 84). *)
Definition peShortOptional : buffer :=
  bytes ([0x4D; 0x5A] ++ repeat 0 58 ++ [64; 0; 0; 0] ++ [0x50; 0x45; 0; 0]
         ++ repeat 0 16 ++ [2; 0] ++ repeat 0 98).

(** A 32-bit Mach-O of 36 bytes: one load command, LC_MAIN with a [cmdsize]
    of 8, that ends the file. *)
Definition machoShortMain : buffer :=
  bytes ([0xFE; 0xED; 0xFA; 0xCE] ++ [0; 0; 0; 7] ++ [0; 0; 0; 3] ++ [0; 0; 0; 2]
         ++ [0; 0; 0; 1] ++ [0; 0; 0; 8] ++ [0; 0; 0; 0]
         ++ [0x80; 0x00; 0x00; 0x28] ++ [0; 0; 0; 8]).


(* ================================================================== *)
(** ** Vocabulary of the properties of the search *)

(** [searchBytes] of the three literal modes of [searchPE]. *)
Definition literalBytes (mode : SearchMode) (query : jsstring) : list Z :=
  match mode with
  | ModeHex => hexPairs (strip0x (stripWhiteSpace query))
  | ModeAscii => asciiBytes query
  | ModeUnicode => unicodeBytes query
  end.

(** The bytes [pattern] stand in [buf] at offset [i]. *)
Definition occurs_at (buf : buffer) (pattern : list Z) (i : Z) : Prop :=
  0 <= i /\ i + Z.of_nat (List.length pattern) <= byteLength buf
  /\ bytes_at buf i (Z.of_nat (List.length pattern)) = pattern.

(** The code unit of an upper-case hexadecimal digit. *)
Definition is_upper_hex (c : Z) : bool :=
  ((48 <=? c) && (c <=? 57)) || ((65 <=? c) && (c <=? 70)).

(* ================================================================== *)
(** ** JavaScript strings built by the views *)

(** The code units of an ASCII literal. *)
Definition js (s : string) : jsstring :=
  map (fun a => Z.of_N (N_of_ascii a)) (list_ascii_of_string s).

(** The digit of value [d] in the text of a number: ['0'..'9'], ['a'..'z']. *)
Definition digitCode (d : Z) : Z := if d <? 10 then 48 + d else 87 + d.

Fixpoint digitsRadix (radix : Z) (fuel : nat) (z : Z) (acc : jsstring) : jsstring :=
  match fuel with
  | O => acc
  | S fuel' =>
      let acc' := digitCode (z mod radix) :: acc in
      if z / radix =? 0 then acc' else digitsRadix radix fuel' (z / radix) acc'
  end.

(** [z.toString(radix)] of an integer [z], for a radix from 2 to 36. *)
Definition toStringRadix (radix z : Z) : jsstring :=
  let a := Z.abs z in
  let digits := digitsRadix radix (S (Z.to_nat (Z.log2 a))) a [] in
  if z <? 0 then 45 :: digits else digits.

(** [s.padStart(targetLength, c)] for a pad string of one code unit. *)
Definition padStart (targetLength : nat) (c : Z) (s : jsstring) : jsstring :=
  repeat c (targetLength - List.length s) ++ s.

(** [s.toUpperCase()] on a string of ASCII code units. *)
Definition toUpperCase (s : jsstring) : jsstring :=
  map (fun c => if (97 <=? c) && (c <=? 122) then c - 32 else c) s.

(** [l.join(sep)] *)
Fixpoint join (sep : jsstring) (l : list jsstring) : jsstring :=
  match l with
  | [] => []
  | x :: rest =>
      match rest with
      | [] => x
      | _ => x ++ sep ++ join sep rest
      end
  end.

(* ================================================================== *)
(** ** Sessions and the state of the application ([types.ts], [App.tsx]) *)

(** [selection] of a session: [{ offset, size, region }]. *)
Record Selection : Type :=
  mkSelection {
    sel_offset : Z;
    sel_size : Z;
    sel_region : option PERegion
  }.

Record FileSession : Type :=
  mkSession {
    session_id : string;
    file : ParsedFile;
    selection : option Selection;
    viewOffset : Z;
    searchResults : list SearchResult;
    currentSearchIndex : Z;
    isSearchOpen : bool
  }.

Inductive Theme : Type := dark | light.

Record AppState : Type :=
  mkAppState {
    sessions : list FileSession;
    activeSessionId : option string;
    hoverOffset : option Z;
    theme : Theme;
    isAnimating : bool;
    isAboutOpen : bool
  }.

(** [Partial<FileSession>], for the fields that the handlers update. *)
Record PartialSession : Type :=
  mkPartial {
    p_selection : option (option Selection);
    p_viewOffset : option Z;
    p_searchResults : option (list SearchResult);
    p_currentSearchIndex : option Z;
    p_isSearchOpen : option bool
  }.

Definition orElse {A : Type} (o : option A) (d : A) : A :=
  match o with Some a => a | None => d end.

(** [{ ...s, ...partial }] *)
Definition merge (s : FileSession) (partial : PartialSession) : FileSession :=
  mkSession (session_id s) (file s)
    (orElse (p_selection partial) (selection s))
    (orElse (p_viewOffset partial) (viewOffset s))
    (orElse (p_searchResults partial) (searchResults s))
    (orElse (p_currentSearchIndex partial) (currentSearchIndex s))
    (orElse (p_isSearchOpen partial) (isSearchOpen s)).

(** [{ ...prev, sessions }] *)
Definition withSessions (prev : AppState) (l : list FileSession) : AppState :=
  mkAppState l (activeSessionId prev) (hoverOffset prev) (theme prev)
             (isAnimating prev) (isAboutOpen prev).


(** [s.id === activeSessionId] *)
Definition isActive (activeId : option string) (s : FileSession) : bool :=
  match activeId with
  | Some a => String.eqb (session_id s) a
  | None => false
  end.

(** [sessions.find(s => s.id === activeSessionId) || null] *)
Definition activeSession (st : AppState) : option FileSession :=
  find (isActive (activeSessionId st)) (sessions st).

(** [updateActiveSession(partial)]. The guard reads the state the component
    was rendered with ([rendered]); the update itself is functional and runs
    on the state of the moment ([prev]). *)
Definition updateActiveSession (rendered : AppState) (partial : PartialSession)
    (prev : AppState) : AppState :=
  match activeSessionId rendered with
  | None => prev
  | Some a =>
      if String.eqb a "" then prev
      else
        withSessions prev
          (map (fun s => if isActive (activeSessionId prev) s then merge s partial else s)
               (sessions prev))
  end.







(** [Math.floor(off / 16) * 16] *)
Definition rowStart (off : Z) : Z := off / 16 * 16.

(** [handleRegionSelect(region)] *)
Definition handleRegionSelect (region : PERegion) (st : AppState) : AppState :=
  match activeSession st with
  | None => st
  | Some _ =>
      updateActiveSession st
        (mkPartial (Some (Some (mkSelection (offset region) (size region) (Some region))))
                   (Some (rowStart (offset region))) None None None)
        st
  end.

(** *** Copy *)

(** [buffer.slice(begin, end)] of an [ArrayBuffer]: negative indices count
    from the end, and the range is clamped to the buffer. *)
Definition slice (buf : buffer) (begin final : Z) : buffer :=
  let len := byteLength buf in
  let first := if begin <? 0 then Z.max (len + begin) 0 else Z.min begin len in
  let fin := if final <? 0 then Z.max (len + final) 0 else Z.min final len in
  let newLen := Z.max (fin - first) 0 in
  firstn (Z.to_nat newLen) (skipn (Z.to_nat first) buf).

(** [getSelectedBytes()], as the array [Array.from(bytes)] of byte values. *)
Definition getSelectedBytes (activeSession : option FileSession) : option (list Z) :=
  match activeSession with
  | None => None
  | Some s =>
      match selection s with
      | None => None
      | Some sel =>
          let off := sel_offset sel in
          let sz := sel_size sel in
          if file_size (file s) <? off + sz then None
          else Some (map byte_val (slice (data (file s)) off (off + sz)))
      end
  end.

(** ['hex' | 'hexArr' | 'cArr' | 'python' | 'binary' | 'base64'] *)
Inductive CopyMode : Type :=
| CopyHex | CopyHexArr | CopyCArr | CopyPython | CopyBinary | CopyBase64.

(** [b.toString(16).padStart(2, '0').toUpperCase()] *)
Definition hexByte (b : Z) : jsstring :=
  toUpperCase (padStart 2 48 (toStringRadix 16 b)).

(** The element of the Python literal for the byte [b]. *)
Definition pythonByte (b : Z) : jsstring :=
  if (32 <=? b) && (b <=? 126) && negb (b =? 39) && negb (b =? 92) then [b]
  else js "\x" ++ padStart 2 48 (toStringRadix 16 b).

Section Copy.

(** [btoa] is the host's; it receives the bytes as a string of code units. *)
Variable btoa : jsstring -> jsstring.

(** The [switch (targetMode)] of [handleCopy]: the text for the bytes [arr]. *)
Definition copyText (targetMode : CopyMode) (arr : list Z) : jsstring :=
  match targetMode with
  | CopyHex => join (js " ") (map hexByte arr)
  | CopyHexArr => join (js ", ") (map (fun b => js "0x" ++ hexByte b) arr)
  | CopyCArr =>
      js "{ " ++ join (js ", ") (map (fun b => js "0x" ++ hexByte b) arr) ++ js " }"
  | CopyPython => js "b'" ++ join [] (map pythonByte arr) ++ js "'"
  | CopyBinary => join [] (map (fun b => padStart 8 48 (toStringRadix 2 b)) arr)
  | CopyBase64 => btoa (fold_left (fun binary b => binary ++ [b]) arr [])
  end.

(** [handleCopy(modeOverride)]: the text handed to the clipboard, [None] when
    nothing is written. *)
Definition handleCopy (activeSession : option FileSession) (copyMode : CopyMode)
    (modeOverride : option CopyMode) : option jsstring :=
  let targetMode := orElse modeOverride copyMode in
  match getSelectedBytes activeSession with
  | None => None
  | Some arr => Some (copyText targetMode arr)
  end.

End Copy.

(** *** Search results and their navigation *)

(** [jumpToSearchResult(index)] *)
Definition jumpToSearchResult (index : Z) (st : AppState) : AppState :=
  match activeSession st with
  | None => st
  | Some s =>
      if (0 <=? index) && (index <? Z.of_nat (List.length (searchResults s))) then
        match nth_error (searchResults s) (Z.to_nat index) with
        | Some res =>
            updateActiveSession st
              (mkPartial (Some (Some (mkSelection (res_offset res) (res_size res) None)))
                         (Some (rowStart (res_offset res))) None (Some index) None)
              st
        | None => st
        end
      else st
  end.

(** [nextResult()]; [%] is the remainder that takes the sign of the dividend. *)
Definition nextResult (st : AppState) : AppState :=
  match activeSession st with
  | None => st
  | Some s =>
      let n := Z.of_nat (List.length (searchResults s)) in
      if n =? 0 then st
      else jumpToSearchResult (Z.rem (currentSearchIndex s + 1) n) st
  end.

(** [prevResult()] *)
Definition prevResult (st : AppState) : AppState :=
  match activeSession st with
  | None => st
  | Some s =>
      let n := Z.of_nat (List.length (searchResults s)) in
      if n =? 0 then st
      else jumpToSearchResult (Z.rem (currentSearchIndex s - 1 + n) n) st
  end.

(** [onResults] of the search dialog: two updates in a row. The dialog calls
    it from a [setTimeout], with the [updateActiveSession] of the render in
    which the search was started ([rendered]). *)
Definition onResults_from (rendered : AppState) (results : list SearchResult)
    (prev : AppState) : AppState :=
  let st1 :=
    updateActiveSession rendered
      (mkPartial None None (Some results)
                 (Some (if (0 <? List.length results)%nat then 0 else -1)) None)
      prev in
  match results with
  | first :: _ =>
      updateActiveSession rendered
        (mkPartial None (Some (rowStart (res_offset first))) None (Some 0) None)
        st1
  | [] => st1
  end.

(** [onResults] when nothing was rendered in between. *)
Definition onResults (results : list SearchResult) (st : AppState) : AppState :=
  onResults_from st results st.



(** Ctrl+G: [off] is [parseInt(offsetStr, 16)], [None] for [NaN]. *)
Definition goToOffset (off : option Z) (st : AppState) : AppState :=
  match activeSession st, off with
  | Some _, Some o =>
      updateActiveSession st (mkPartial None (Some (rowStart o)) None None None) st
  | _, _ => st
  end.

(** *** The callbacks given to the hex view *)

(** [onScroll(off)] *)
Definition onScroll (off : Z) (st : AppState) : AppState :=
  updateActiveSession st (mkPartial None (Some off) None None None) st.

(** [onHover(offset)] *)
Definition onHover (off : option Z) (s : AppState) : AppState :=
  mkAppState (sessions s) (activeSessionId s) off (theme s)
             (isAnimating s) (isAboutOpen s).

(** The local function [search] of [onSelectionChange]: [found] is the
    variable [foundRegion]. *)
Fixpoint search_region (off : Z) (r : PERegion) (found : option PERegion)
  : option PERegion :=
  match r with
  | mkRegion _ o sz _ kids =>
      if (o <=? off) && (off <? o + sz)
      then fold_left (fun acc c => search_region off c acc) kids (Some r)
      else found
  end.

Definition search_regions (off : Z) (regions : list PERegion)
    (found : option PERegion) : option PERegion :=
  fold_left (fun acc r => search_region off r acc) regions found.

(** [onSelectionChange(offset, size)]; the hex view is only rendered for an
    active session. *)
Definition onSelectionChange (off sz : Z) (st : AppState) : AppState :=
  match activeSession st with
  | None => st
  | Some s =>
      let foundRegion := search_regions off (regions (file s)) None in
      updateActiveSession st
        (mkPartial (Some (Some (mkSelection off sz foundRegion))) None None None None)
        st
  end.

(* ================================================================== *)
(** ** The hex view ([HexViewer]) *)

Definition LINE_HEIGHT : Z := 20.
Definition BYTES_PER_LINE : Z := 16.
Definition CHAR_WIDTH : Z := 9.
Definition HEX_X : Z := 100.
Definition ASCII_X : Z := 600.
Definition CANVAS_PADDING : Z := 10.

(** [Math.ceil(a / b)] for integers [a] and [b > 0]. *)
Definition ceilDiv (a b : Z) : Z := - ((- a) / b).

(** [getOffsetFromCoords(e)]. [x] is [e.clientX - rect.left] and [yClient] is
    [e.clientY - rect.top], in whole pixels. *)
Definition getOffsetFromCoords (f : ParsedFile) (viewOffset : Z) (x yClient : Z)
  : option Z :=
  let y := yClient - CANVAS_PADDING in
  let lineIndex := y / LINE_HEIGHT in
  if lineIndex <? 0 then None
  else
    let startLine := viewOffset / BYTES_PER_LINE in
    let currentLine := startLine + lineIndex in
    let lineOffset := currentLine * BYTES_PER_LINE in
    let col :=
      if (HEX_X <=? x) && (x <? ASCII_X - 20) then (x - HEX_X) / (3 * CHAR_WIDTH)
      else if ASCII_X <=? x then (x - ASCII_X) / CHAR_WIDTH
      else -1 in
    if (0 <=? col) && (col <? 16) then
      let off := lineOffset + col in
      if off <? file_size f then Some off else None
    else None.

(** [handleMouseDown]: the new [dragStartOffset] and the state of the
    application. *)
Definition handleMouseDown (s : FileSession) (dragStartOffset : option Z)
    (x yClient : Z) (st : AppState) : option Z * AppState :=
  match getOffsetFromCoords (file s) (viewOffset s) x yClient with
  | Some off => (Some off, onSelectionChange off 1 st)
  | None => (dragStartOffset, st)
  end.

(** [selection?.offset !== start || selection?.size !== size] *)
Definition selectionDiffers (sel : option Selection) (start sz : Z) : bool :=
  match sel with
  | Some s => negb (sel_offset s =? start) || negb (sel_size s =? sz)
  | None => true
  end.

(** [handleMouseMove] *)
Definition handleMouseMove (s : FileSession) (dragStartOffset : option Z)
    (x yClient : Z) (st : AppState) : AppState :=
  let off := getOffsetFromCoords (file s) (viewOffset s) x yClient in
  let st1 :=
    match dragStartOffset, off with
    | Some d, Some o =>
        let start := Z.min d o in
        let final := Z.max d o in
        let sz := final - start + 1 in
        if selectionDiffers (selection s) start sz
        then onSelectionChange start sz st
        else st
    | _, _ => st
    end in
  onHover off st1.

(** [handleWheel]: [deltaY] is the scroll amount of the event. *)
Definition handleWheel (s : FileSession) (deltaY : Z) (st : AppState) : AppState :=
  let deltaLines := Z.sgn deltaY * 3 in
  let newOffset :=
    Z.max 0 (Z.min (file_size (file s) - 1)
                   (viewOffset s + deltaLines * BYTES_PER_LINE)) in
  onScroll newOffset st.

(** A search result as [draw] keeps it: [{ ...result, isCurrent }]. *)
Record VisibleResult : Type :=
  mkVisible {
    vis_result : SearchResult;
    isCurrent : bool
  }.

(** The first [while] of [draw]: the results that end before the first
    visible offset are skipped. *)
Fixpoint skipHidden (results : list SearchResult) (idx : Z) (startVisibleOffset : Z)
  : list SearchResult * Z :=
  match results with
  | r :: rest =>
      if res_offset r + res_size r <? startVisibleOffset
      then skipHidden rest (idx + 1) startVisibleOffset
      else (results, idx)
  | [] => ([], idx)
  end.

(** The second [while]: results are taken while they start before the end. *)
Fixpoint takeVisible (results : list SearchResult) (idx : Z)
    (endVisibleOffset currentSearchIndex : Z) : list VisibleResult :=
  match results with
  | r :: rest =>
      if res_offset r <? endVisibleOffset
      then mkVisible r (idx =? currentSearchIndex)
             :: takeVisible rest (idx + 1) endVisibleOffset currentSearchIndex
      else []
  | [] => []
  end.

(** The geometry of a frame: [startLine] and [visibleLines]; [height] is the
    [clientHeight] of the container. *)
Definition startLineOf (s : FileSession) : Z := viewOffset s / BYTES_PER_LINE.
Definition visibleLinesOf (height : Z) : Z := ceilDiv height LINE_HEIGHT + 1.
Definition startVisibleOffsetOf (s : FileSession) : Z := startLineOf s * BYTES_PER_LINE.
Definition endVisibleOffsetOf (s : FileSession) (height : Z) : Z :=
  (startLineOf s + visibleLinesOf height) * BYTES_PER_LINE.

(** [visibleSearchResults] of a frame. [session?.currentSearchIndex || -1]
    takes [-1] for the index 0 as well, which is falsy. *)
Definition visibleSearchResults (s : FileSession) (height : Z) : list VisibleResult :=
  let currentSearchIndex :=
    if currentSearchIndex s =? 0 then -1 else currentSearchIndex s in
  let skipped := skipHidden (searchResults s) 0 (startVisibleOffsetOf s) in
  takeVisible (fst skipped) (snd skipped) (endVisibleOffsetOf s height) currentSearchIndex.

(** The [for (const res of visibleSearchResults)] of a cell: the first result
    that holds the byte decides [(isSearchMatch, isCurrentSearchMatch)]. *)
Fixpoint checkSearch (visible : list VisibleResult) (byteOffset : Z) : bool * bool :=
  match visible with
  | v :: rest =>
      let res := vis_result v in
      if (res_offset res <=? byteOffset) && (byteOffset <? res_offset res + res_size res)
      then (true, isCurrent v)
      else checkSearch rest byteOffset
  | [] => (false, false)
  end.

(** The background of a cell. *)
Inductive CellBg : Type := SearchCurrent | SearchHighlight | HighlightBg | NoBg.

Definition cellBg (s : FileSession) (height : Z) (byteOffset : Z) : CellBg :=
  let '(isSearchMatch, isCurrentSearchMatch) :=
    checkSearch (visibleSearchResults s height) byteOffset in
  if isCurrentSearchMatch then SearchCurrent
  else if isSearchMatch then SearchHighlight
  else
    match selection s with
    | Some sel =>
        if (sel_offset sel <=? byteOffset) && (byteOffset <? sel_offset sel + sel_size sel)
        then HighlightBg else NoBg
    | None => NoBg
    end.

(** The offsets of the bytes that a frame draws: lines [startLine + i] for
    [i < visibleLines] below [totalLines], and in a line the bytes below
    [file.size]. *)
Definition drawnInFrame (s : FileSession) (height : Z) (byteOffset : Z) : Prop :=
  exists i b,
    0 <= i < visibleLinesOf height
    /\ startLineOf s + i < ceilDiv (file_size (file s)) BYTES_PER_LINE
    /\ 0 <= b < BYTES_PER_LINE
    /\ byteOffset = (startLineOf s + i) * BYTES_PER_LINE + b
    /\ byteOffset < file_size (file s).

(* ================================================================== *)
(** ** The inspector ([Inspector]) *)

(** [hoverOffset !== null ? hoverOffset : (selection ? selection.offset : null)] *)
Definition effectiveOffset (s : FileSession) (hoverOffset : option Z) : option Z :=
  match hoverOffset with
  | Some h => Some h
  | None =>
      match selection s with
      | Some sel => Some (sel_offset sel)
      | None => None
      end
  end.

(** [try { v = read } catch {}] on a variable that starts at 0. *)
Definition orZero (m : outcome Z) : Z :=
  match m with
  | Ok v => v
  | _ => 0
  end.

(** The values the inspector shows: [(byteVal, uint16, uint32)], [None] for
    the placeholder. The read of [byteVal] is not guarded. *)
Definition inspectorValues (s : FileSession) (hoverOffset : option Z)
  : outcome (option (Z * Z * Z)) :=
  match effectiveOffset s hoverOffset with
  | None => Ok None
  | Some off =>
      let* byteVal := getUint8 (data (file s)) off in
      let uint16 := orZero (getUint16 (data (file s)) off true) in
      let uint32 := orZero (getUint32 (data (file s)) off true) in
      Ok (Some (byteVal, uint16, uint32))
  end.

(* ================================================================== *)
(** ** The search dialog ([SearchDialog]) *)

(** The state of the dialog that [handleSearch] writes. *)
Record DialogState : Type :=
  mkDialog {
    dlg_error : option string;
    localResults : list SearchResult
  }.

Section Dialog.

Variable regex_valid : jsstring -> bool.
Variable regex_exec : jsstring -> jsstring -> Z -> option (Z * Z).

(** [handleSearch], once its timer fires: the state of the dialog and the
    state of the application, on which [onResults] has run after a search
    that returned. [e.message || "Search failed"] *)
Definition handleSearch (f : ParsedFile) (query : jsstring) (mode : SearchMode)
    (useRegex : bool) (dlg : DialogState) (st : AppState)
  : outcome (DialogState * AppState) :=
  match query with
  | [] => Ok (dlg, st)
  | _ =>
      match searchPE regex_valid regex_exec f query mode useRegex with
      | Ok res =>
          Ok (mkDialog (match res with
                        | [] => Some "No matches found."%string
                        | _ => None
                        end) res,
              onResults res st)
      | Throw e =>
          Ok (mkDialog (Some (if String.eqb (exn_message e) ""
                              then "Search failed"%string else exn_message e))
                       (localResults dlg),
              st)
      | OutOfFuel => OutOfFuel
      end
  end.

End Dialog.

(* ================================================================== *)
(** ** The events of the application *)




(** The index of the current search result is [-1] when there is no result,
    and the index of a result otherwise. *)
Definition search_index_ok (s : FileSession) : Prop :=
  match searchResults s with
  | [] => currentSearchIndex s = -1
  | _ => 0 <= currentSearchIndex s < Z.of_nat (List.length (searchResults s))
  end.

(** The active id names an open session, and is [null] when none is open. *)
Definition active_ok (st : AppState) : Prop :=
  match activeSessionId st with
  | None => sessions st = []
  | Some a => In a (map session_id (sessions st)) /\ a <> EmptyString
  end.

(** What every state of the application satisfies: sessions with ids that
    differ and are not empty, an active id that names one of them, and in
    every session a valid index of the current search result. *)
Definition app_invariant (st : AppState) : Prop :=
  NoDup (map session_id (sessions st))
  /\ Forall (fun s => session_id s <> EmptyString) (sessions st)
  /\ active_ok st
  /\ Forall search_index_ok (sessions st).

(** The byte at [off] lies in the range of [r]. *)
Definition holds (r : PERegion) (off : Z) : Prop :=
  offset r <= off < offset r + size r.

(** [x] is a region of the forest [l] that holds [off], as do the regions
    above it. *)
Inductive reached (off : Z) : list PERegion -> PERegion -> Prop :=
| reached_here l r : In r l -> holds r off -> reached off l r
| reached_below l r x :
    In r l -> holds r off -> reached off (children r) x -> reached off l x.

(** What one call of [search] on a region list does to [foundRegion]. *)
Definition search_spec (off : Z) (l : list PERegion) (acc out : option PERegion) : Prop :=
  (Forall (fun r => ~ holds r off) l /\ out = acc)
  \/ (exists x, out = Some x /\ reached off l x
                /\ Forall (fun c => ~ holds c off) (children x)).


(** The byte at [byteOffset] lies in the search result [r]. *)
Definition in_result (r : SearchResult) (byteOffset : Z) : Prop :=
  res_offset r <= byteOffset < res_offset r + res_size r.

(** A region without children whose range lies in [[P, P + S)]. *)
Definition leaf_in (P S : Z) (k : PERegion) : Prop :=
  children k = [] /\ 0 <= size k /\ P <= offset k /\ offset k + size k <= P + S.

(** What the first pass records of a section header. *)
Definition temp_ok (shOffset e_shentsize total : Z) (t : TempSection) : Prop :=
  shOffset <= ts_headerOffset t
  /\ ts_headerOffset t + e_shentsize <= shOffset + total
  /\ 0 <= ts_offset t /\ 0 <= ts_size t.


(** A 32-bit little-endian ELF of 84 bytes: the header, and one program
    header of 32 bytes at offset 52. *)
Definition elfOneSegment : buffer :=
  bytes ([0x7F; 0x45; 0x4C; 0x46; 1; 1; 1; 0] ++ repeat 0 8
         ++ [2; 0] ++ [3; 0] ++ [1; 0; 0; 0] ++ [0; 0; 0; 0]
         ++ [52; 0; 0; 0] ++ [0; 0; 0; 0] ++ [0; 0; 0; 0]
         ++ [52; 0] ++ [32; 0] ++ [1; 0] ++ [0; 0] ++ [0; 0] ++ [0; 0]
         ++ [1; 0; 0; 0] ++ repeat 0 28).

(** The regions of [l] follow one another from [lo] to [hi] without
    overlap: each has a size that is not negative and starts at or after the
    end of the one before. *)
Fixpoint tiled (lo : Z) (l : list PERegion) (hi : Z) : Prop :=
  match l with
  | [] => lo <= hi
  | r :: rest => lo <= offset r /\ 0 <= size r /\ tiled (offset r + size r) rest hi
  end.

(** A region of the given name can only be the last one. *)
Definition only_last (nm : string) (l : list PERegion) : Prop :=
  forall before r after, l = before ++ r :: after -> name r = nm -> after = [].

(** A segment region starts at a byte 0xFF. *)
Definition seg_start (view : buffer) (r : PERegion) : Prop :=
  type r = JPEG_SEGMENT -> getUint8 view (offset r) = Ok 255.

(** [P] holds of [r] and of every region below it. *)
Fixpoint deep_Forall (P : PERegion -> Prop) (r : PERegion) : Prop :=
  match r with
  | mkRegion _ _ _ _ kids =>
      P r /\ (fix all (l : list PERegion) : Prop :=
                match l with
                | [] => True
                | k :: l' => deep_Forall P k /\ all l'
                end) kids
  end.

Definition is_box (r : PERegion) : bool := RegionType_eqb (type r) HEIC_BOX.

(** A box region spans at least the 8 bytes of a box header, and the boxes
    nested in it follow one another inside it without overlap. *)
Definition box_ok (r : PERegion) : Prop :=
  type r = HEIC_BOX ->
  8 <= size r
  /\ tiled (offset r) (filter is_box (children r)) (offset r + size r).

(** A box region whose nested boxes, at every depth, are laid out so. *)
Definition boxP (r : PERegion) : Prop :=
  type r = HEIC_BOX /\ deep_Forall box_ok r.

(** An ISO-BMFF file of 40 bytes: a box [ftyp] of 16 bytes, and a container
    [moov] of 24 bytes that holds one box [free] of 16 bytes. *)
Definition heicSample : buffer :=
  bytes ([0; 0; 0; 16; 0x66; 0x74; 0x79; 0x70; 0x68; 0x65; 0x69; 0x63; 0; 0; 0; 0]
         ++ [0; 0; 0; 24; 0x6D; 0x6F; 0x6F; 0x76]
         ++ [0; 0; 0; 16; 0x66; 0x72; 0x65; 0x65] ++ repeat 0 8).

(** *** The section data of a PE file *)

Definition is_section_data (r : PERegion) : bool :=
  RegionType_eqb (type r) SECTION_DATA.

(** The test of [parsePE] on a section header: raw data that is not empty and
    starts behind offset 0 and inside a file of [len] bytes. *)
Definition has_data (len : Z) (sec : SectionMetadata) : bool :=
  (0 <? sizeOfRawData sec) && (0 <? pointerToRawData sec)
  && (pointerToRawData sec <? len).

(** The region of the raw data of a section, cut at the end of the file. *)
Definition section_region (len : Z) (sec : SectionMetadata) : PERegion :=
  mkRegion ("Section: " ++ sec_name sec) (pointerToRawData sec)
           (Z.min (sizeOfRawData sec) (len - pointerToRawData sec)) SECTION_DATA [].

(** A PE file of 144 bytes: the DOS header with [e_lfanew = 64], the signature,
    a file header with one section and no optional header, the header of
    [.text] (32 bytes of raw data declared at offset 128), and 16 bytes. *)
Definition peSample : buffer :=
  bytes ([0x4D; 0x5A] ++ repeat 0 58 ++ [64; 0; 0; 0]
         ++ [0x50; 0x45; 0; 0]
         ++ [0x4C; 0x01; 1; 0] ++ repeat 0 12 ++ [0; 0; 0x02; 0x01]
         ++ [0x2E; 0x74; 0x65; 0x78; 0x74; 0; 0; 0]
         ++ [16; 0; 0; 0] ++ [0; 0x10; 0; 0] ++ [32; 0; 0; 0] ++ [128; 0; 0; 0]
         ++ repeat 0 16
         ++ repeat 0x90 16).

(** What [parsePE] returns with [isValid: true]: the signatures were read, the
    metadata has one entry per declared section, and the regions of type
    [SECTION_DATA] are the sorted data regions. *)
Definition pe_sections_post (buf : buffer) (pf : ParsedFile) : Prop :=
  isValid pf = true ->
  (exists e_lfanew,
      getUint16 buf 0 true = Ok 0x5A4D
      /\ getUint32 buf 0x3C true = Ok e_lfanew
      /\ getUint32 buf e_lfanew true = Ok 0x00004550
      /\ getUint16 buf (e_lfanew + 6) true
         = Ok (Z.of_nat (List.length (sectionsMetadata pf))))
  /\ filter is_section_data (regions pf)
     = sort_by_offset
         (map (section_region (byteLength buf))
              (filter (has_data (byteLength buf)) (sectionsMetadata pf))).


(** *** What a frame of the hex view shows *)

(** The byte at [off] is drawn by the frame, on its first line. *)
Definition shown_on_top (s : FileSession) (height off : Z) : Prop :=
  startVisibleOffsetOf s <= off < startVisibleOffsetOf s + BYTES_PER_LINE
  /\ drawnInFrame s height off.
(* ================================================================== *)
(** * Properties *)

(** ** Numbers *)

Lemma js_round_exact (z : Z) : Z.abs z <= 2 ^ 53 -> js_round z = z.
Proof.
  intro H. unfold js_round. cbv zeta.
  destruct (Z.leb_spec (Z.abs z) (2 ^ 53)); [reflexivity | lia].
Qed.

Lemma js_add_exact (a b : Z) : 0 <= a + b <= 2 ^ 53 -> js_add a b = a + b.
Proof. intro H. apply js_round_exact. lia. Qed.

Lemma js_sub_exact (a b : Z) : 0 <= a - b <= 2 ^ 53 -> js_sub a b = a - b.
Proof. intro H. apply js_round_exact. lia. Qed.

(** A number above 2^53 stays at or above 2^53 when rounded. *)
Lemma js_round_large (z : Z) : 2 ^ 53 < z -> 2 ^ 53 <= js_round z.
Proof.
  intro H. unfold js_round. cbv zeta.
  rewrite (Z.abs_eq z) by lia.
  destruct (Z.leb_spec z (2 ^ 53)); [lia|].
  assert (Hl : 53 <= Z.log2 z) by (apply Z.log2_le_pow2; lia).
  set (e := Z.log2 z - 52).
  assert (He : 1 <= e) by (unfold e; lia).
  assert (Hq : 2 ^ 52 <= Z.shiftr z e).
  { rewrite Z.shiftr_div_pow2 by lia.
    apply Z.div_le_lower_bound; [apply Z.pow_pos_nonneg; lia|].
    rewrite <- Z.pow_add_r by lia.
    replace (e + 52) with (Z.log2 z) by (unfold e; lia).
    apply Z.log2_spec; lia. }
  set (q := Z.shiftr z e) in *.
  set (q' := if z - Z.shiftl q e <? 2 ^ (e - 1) then q
             else if 2 ^ (e - 1) <? z - Z.shiftl q e then q + 1
                  else if Z.even q then q else q + 1).
  assert (Hq' : q <= q').
  { unfold q'. repeat match goal with |- context [if ?c then _ else _] => destruct c end; lia. }
  rewrite Z.sgn_pos by lia. rewrite Z.mul_1_l.
  rewrite Z.shiftl_mul_pow2 by lia.
  assert (Hp : 2 <= 2 ^ e).
  { replace 2 with (2 ^ 1) at 1 by reflexivity. apply Z.pow_le_mono_r; lia. }
  change (2 ^ 53) with (2 ^ 52 * 2). nia.
Qed.

(** Rounding keeps a non-negative number at or above any bound below 2^53. *)
Lemma js_round_lower (b z : Z) : b <= 2 ^ 53 -> 0 <= z -> b <= z -> b <= js_round z.
Proof.
  intros Hb H0 Hz.
  destruct (Z_le_gt_dec z (2 ^ 53)) as [H|H].
  - rewrite js_round_exact by lia. exact Hz.
  - pose proof (js_round_large z). lia.
Qed.

(** ** [DataView] reads *)

Lemma byte_val_range (b : byte) : 0 <= byte_val b < 256.
Proof.
  unfold byte_val. pose proof (Byte.to_N_bounded b). lia.
Qed.

Lemma le_value_range (bs : list byte) : 0 <= le_value bs < 256 ^ Z.of_nat (List.length bs).
Proof.
  induction bs as [|b bs IH]; cbn [le_value].
  - simpl. lia.
  - change (List.length (b :: bs)) with (S (List.length bs)).
    rewrite Nat2Z.inj_succ, Z.pow_succ_r by lia.
    pose proof (byte_val_range b). lia.
Qed.

Lemma view_bytes_length (view : buffer) (off : Z) (n : nat) (bs : list byte) :
  view_bytes view off n = Some bs -> List.length bs = n.
Proof.
  unfold view_bytes, byteLength.
  destruct (Z.leb_spec 0 off); simpl; [|discriminate].
  destruct (Z.leb_spec (off + Z.of_nat n) (Z.of_nat (List.length view))); [|discriminate].
  intro E. injection E as <-.
  rewrite length_firstn, length_skipn. lia.
Qed.

Lemma view_bytes_in_range (view : buffer) (off : Z) (n : nat) :
  0 <= off -> off + Z.of_nat n <= byteLength view ->
  view_bytes view off n = Some (firstn n (skipn (Z.to_nat off) view)).
Proof.
  intros H0 H1. unfold view_bytes.
  destruct (Z.leb_spec 0 off); [|lia].
  destruct (Z.leb_spec (off + Z.of_nat n) (byteLength view)); [|lia].
  reflexivity.
Qed.

Lemma view_bytes_out_of_range (view : buffer) (off : Z) (n : nat) :
  byteLength view < off + Z.of_nat n -> view_bytes view off n = None.
Proof.
  intros H. unfold view_bytes.
  destruct (Z.leb_spec (off + Z.of_nat n) (byteLength view)); [lia|].
  now rewrite andb_false_r.
Qed.

(** A read inside the view returns a value of the width read. *)
Lemma getUint_in_range (n : nat) (view : buffer) (off : Z) (le : bool) :
  0 <= off -> off + Z.of_nat n <= byteLength view ->
  exists v, getUint n view off le = Ok v /\ 0 <= v < 256 ^ Z.of_nat n.
Proof.
  intros H0 H1. unfold getUint.
  pose proof (view_bytes_length view off n) as Hlen.
  rewrite (view_bytes_in_range view off n H0 H1) in *.
  specialize (Hlen _ eq_refl).
  set (bs := firstn n (skipn (Z.to_nat off) view)) in *.
  eexists. split; [reflexivity|].
  destruct le.
  - rewrite <- Hlen. apply le_value_range.
  - unfold be_value. rewrite <- Hlen, <- length_rev. apply le_value_range.
Qed.

(** A read that leaves the view throws [RangeError]. *)
Lemma getUint_out_of_range (n : nat) (view : buffer) (off : Z) (le : bool) :
  byteLength view < off + Z.of_nat n -> getUint n view off le = Throw RangeError.
Proof.
  intro H. unfold getUint. now rewrite view_bytes_out_of_range.
Qed.

(** Whatever a read returns is a value of the width read. *)
Lemma getUint_value (n : nat) (view : buffer) (off : Z) (le : bool) (v : Z) :
  getUint n view off le = Ok v ->
  0 <= v < 256 ^ Z.of_nat n /\ 0 <= off /\ off + Z.of_nat n <= byteLength view.
Proof.
  unfold getUint. intro H.
  destruct (view_bytes view off n) as [bs|] eqn:E; [|discriminate].
  pose proof (view_bytes_length _ _ _ _ E) as Hlen.
  injection H as <-.
  split.
  - destruct le.
    + rewrite <- Hlen. apply le_value_range.
    + unfold be_value. rewrite <- Hlen, <- length_rev. apply le_value_range.
  - unfold view_bytes in E.
    destruct (Z.leb_spec 0 off); simpl in E; [|discriminate].
    destruct (Z.leb_spec (off + Z.of_nat n) (byteLength view)); [|discriminate].
    lia.
Qed.

(** The outcome of a read: a value, or [RangeError]. *)
Lemma getUint_cases (n : nat) (view : buffer) (off : Z) (le : bool) :
  (exists v, getUint n view off le = Ok v) \/ getUint n view off le = Throw RangeError.
Proof.
  unfold getUint. destruct (view_bytes view off n); eauto.
Qed.


(* ================================================================== *)
(** ** The offset mapper *)

Lemma maps_offset_dec (off : Z) (sec : SectionMetadata) :
  {maps_offset off sec} + {~ maps_offset off sec}.
Proof.
  unfold maps_offset, in_raw_range.
  destruct (Z_le_dec (pointerToRawData sec) off);
    destruct (Z_lt_dec off (js_add (pointerToRawData sec) (sizeOfRawData sec)));
    destruct (Z_lt_dec (js_sub off (pointerToRawData sec)) (virtualSize sec));
    (left; lia) || (right; lia).
Qed.

(** One step of the loop on a section that yields a result. *)
Lemma offsetToRva_loop_hit (off : Z) (sec : SectionMetadata) (rest : list SectionMetadata) :
  maps_offset off sec ->
  offsetToRva_loop off (sec :: rest)
  = Some (js_add (virtualAddress sec) (js_sub off (pointerToRawData sec))).
Proof.
  intros [[H1 H2] H3]. cbn [offsetToRva_loop].
  destruct (Z.leb_spec (pointerToRawData sec) off); [|lia].
  destruct (Z.ltb_spec off (js_add (pointerToRawData sec) (sizeOfRawData sec))); [|lia].
  cbn [andb].
  destruct (Z.ltb_spec (js_sub off (pointerToRawData sec)) (virtualSize sec)); [|lia].
  reflexivity.
Qed.

(** One step of the loop on a section that yields none. *)
Lemma offsetToRva_loop_miss (off : Z) (sec : SectionMetadata) (rest : list SectionMetadata) :
  ~ maps_offset off sec ->
  offsetToRva_loop off (sec :: rest) = offsetToRva_loop off rest.
Proof.
  intros H. cbn [offsetToRva_loop]. unfold maps_offset, in_raw_range in H.
  destruct (Z.leb_spec (pointerToRawData sec) off); cbn [andb]; [|reflexivity].
  destruct (Z.ltb_spec off (js_add (pointerToRawData sec) (sizeOfRawData sec)));
    [|reflexivity].
  destruct (Z.ltb_spec (js_sub off (pointerToRawData sec)) (virtualSize sec));
    [|reflexivity].
  exfalso. apply H. lia.
Qed.

Lemma offsetToRva_loop_none (off : Z) (sections : list SectionMetadata) :
  (forall s, In s sections -> ~ maps_offset off s) ->
  offsetToRva_loop off sections = None.
Proof.
  induction sections as [|sec rest IH]; intro H; [reflexivity|].
  rewrite offsetToRva_loop_miss by (apply H; now left).
  apply IH. intros s Hs. apply H. now right.
Qed.

Lemma offsetToRva_loop_first (off : Z) (before : list SectionMetadata)
    (sec : SectionMetadata) (after : list SectionMetadata) :
  (forall s, In s before -> ~ maps_offset off s) ->
  maps_offset off sec ->
  offsetToRva_loop off (before ++ sec :: after)
  = Some (js_add (virtualAddress sec) (js_sub off (pointerToRawData sec))).
Proof.
  induction before as [|b before IH]; intros Hb Hs; cbn [app].
  - now apply offsetToRva_loop_hit.
  - rewrite offsetToRva_loop_miss by (apply Hb; now left).
    apply IH; [|exact Hs]. intros s Hin. apply Hb. now right.
Qed.

(** On every list, with the sums and the difference of JavaScript numbers:
    [offsetToRva] returns the rounded [virtualAddress + delta] for the first
    section, in list order, whose rounded raw-file range contains the offset
    and whose virtual size exceeds the rounded delta; when no section yields a
    result it returns the offset itself if the offset lies before the raw data
    of the first section, and [undefined] ([None]) otherwise. *)
Lemma offsetToRva_spec (off : Z) (sections : list SectionMetadata) :
  (forall before sec after,
      sections = before ++ sec :: after ->
      (forall s, In s before -> ~ maps_offset off s) ->
      maps_offset off sec ->
      offsetToRva off sections
      = Some (js_add (virtualAddress sec) (js_sub off (pointerToRawData sec))))
  /\ ((forall s, In s sections -> ~ maps_offset off s) ->
      (forall s0 rest, sections = s0 :: rest -> off < pointerToRawData s0 ->
                       offsetToRva off sections = Some off)
      /\ (forall s0 rest, sections = s0 :: rest -> pointerToRawData s0 <= off ->
                          offsetToRva off sections = None)
      /\ (sections = [] -> offsetToRva off sections = None)).
Proof.
  split.
  - intros before sec after -> Hb Hs. unfold offsetToRva.
    now rewrite offsetToRva_loop_first.
  - intro Hnone. unfold offsetToRva.
    rewrite (offsetToRva_loop_none off sections Hnone).
    repeat split.
    + intros s0 rest -> Hlt.
      destruct (Z.ltb_spec off (pointerToRawData s0)); [reflexivity | lia].
    + intros s0 rest -> Hge.
      destruct (Z.ltb_spec off (pointerToRawData s0)); [lia | reflexivity].
    + now intros ->.
Qed.

(** On sections whose fields are safe integers the arithmetic is exact: the
    range is [pointerToRawData, pointerToRawData + sizeOfRawData) and the
    result [virtualAddress + (offset - pointerToRawData)]. *)
Lemma maps_offset_exact (off : Z) (sec : SectionMetadata) :
  safe_section sec -> off <= 2 ^ 53 ->
  (maps_offset off sec <->
   pointerToRawData sec <= off < pointerToRawData sec + sizeOfRawData sec
   /\ off - pointerToRawData sec < virtualSize sec).
Proof.
  intros (Hp & Hs & Hps & Hv & Hvs & Hvv) Hoff.
  unfold maps_offset, in_raw_range.
  rewrite js_add_exact by lia.
  split.
  - intros [[H1 H2] H3]. rewrite js_sub_exact in H3 by lia. lia.
  - intros [[H1 H2] H3]. rewrite js_sub_exact by lia. lia.
Qed.

Lemma offsetToRva_exact (off : Z) (before : list SectionMetadata)
    (sec : SectionMetadata) (after : list SectionMetadata) :
  safe_section sec ->
  (forall s, In s before -> ~ maps_offset off s) ->
  pointerToRawData sec <= off < pointerToRawData sec + sizeOfRawData sec ->
  off - pointerToRawData sec < virtualSize sec ->
  offsetToRva off (before ++ sec :: after)
  = Some (virtualAddress sec + (off - pointerToRawData sec)).
Proof.
  intros Hsafe Hb Hr Hd.
  pose proof Hsafe as (Hp & Hs & Hps & Hv & Hvs & Hvv).
  assert (Hm : maps_offset off sec) by (apply maps_offset_exact; [assumption | lia | lia]).
  unfold offsetToRva. rewrite (offsetToRva_loop_first off before sec after Hb Hm).
  rewrite js_sub_exact by lia. rewrite js_add_exact by lia. reflexivity.
Qed.

(** C6 as it is stated fails where an address leaves the safe integers: for
    the section [kernelText] the offset 129 lies in the raw range with the
    delta 1, and the mapper returns the address of the section itself, the
    double nearest to [virtualAddress + 1]. *)
Lemma offsetToRva_rounds :
  js_round (virtualAddress kernelText) = virtualAddress kernelText
  /\ yields_rva 129 kernelText
  /\ offsetToRva 129 [kernelText] = Some (virtualAddress kernelText)
  /\ offsetToRva 129 [kernelText]
     <> Some (virtualAddress kernelText + (129 - pointerToRawData kernelText)).
Proof.
  split; [reflexivity|]. split; [unfold yields_rva, kernelText; cbn; lia|].
  split; [reflexivity|]. vm_compute. discriminate.
Qed.

Lemma yields_rva_maps (off : Z) (sections : list SectionMetadata) :
  Forall safe_section sections -> off <= 2 ^ 53 ->
  forall s, In s sections -> (maps_offset off s <-> yields_rva off s).
Proof.
  intros Hsafe Hoff s Hs. rewrite Forall_forall in Hsafe.
  apply maps_offset_exact; [now apply Hsafe | exact Hoff].
Qed.

(** C6, amended. On sections whose fields are safe integers
    ([pointerToRawData + sizeOfRawData] and [virtualAddress + virtualSize] at
    most 2^53, as with the 32-bit fields of every PE section) and for an
    offset of at most 2^53, [offsetToRva] returns [virtualAddress + delta] for
    the first section, in list order, whose raw-file range contains the offset
    and whose virtual size exceeds the delta [offset - pointerToRawData]; when
    no section yields a result it returns the offset itself if the offset
    lies before the raw data of the first section, and [undefined] ([None])
    otherwise. On every list the same holds with the range, the delta and the
    sum computed as JavaScript numbers, that is, rounded to doubles. *)
Theorem offsetToRva_amended (off : Z) (sections : list SectionMetadata) :
  (Forall safe_section sections -> off <= 2 ^ 53 ->
   (forall before sec after,
       sections = before ++ sec :: after ->
       (forall s, In s before -> ~ yields_rva off s) ->
       yields_rva off sec ->
       offsetToRva off sections
       = Some (virtualAddress sec + (off - pointerToRawData sec)))
   /\ ((forall s, In s sections -> ~ yields_rva off s) ->
       (forall s0 rest, sections = s0 :: rest -> off < pointerToRawData s0 ->
                        offsetToRva off sections = Some off)
       /\ (forall s0 rest, sections = s0 :: rest -> pointerToRawData s0 <= off ->
                           offsetToRva off sections = None)
       /\ (sections = [] -> offsetToRva off sections = None)))
  /\ ((forall before sec after,
         sections = before ++ sec :: after ->
         (forall s, In s before -> ~ maps_offset off s) ->
         maps_offset off sec ->
         offsetToRva off sections
         = Some (js_add (virtualAddress sec) (js_sub off (pointerToRawData sec))))
      /\ ((forall s, In s sections -> ~ maps_offset off s) ->
          (forall s0 rest, sections = s0 :: rest -> off < pointerToRawData s0 ->
                           offsetToRva off sections = Some off)
          /\ (forall s0 rest, sections = s0 :: rest -> pointerToRawData s0 <= off ->
                              offsetToRva off sections = None)
          /\ (sections = [] -> offsetToRva off sections = None))).
Proof.
  split; [|apply offsetToRva_spec].
  intros Hsafe Hoff.
  pose proof (yields_rva_maps off sections Hsafe Hoff) as Hiff.
  split.
  - intros before sec after -> Hb [Hr Hd].
    rewrite Forall_forall in Hsafe.
    apply offsetToRva_exact; [apply Hsafe, in_elt | | exact Hr | exact Hd].
    intros s Hs Hm. apply (Hb s Hs). apply Hiff; [|exact Hm].
    apply in_or_app. now left.
  - intro Hnone. apply (proj2 (offsetToRva_spec off sections)).
    intros s Hs Hm. apply (Hnone s Hs). now apply Hiff.
Qed.

Lemma offsetToRva_amended_witness :
  let text := mkSection ".text" 0x1000 0x1F0 0x400 0x200 in
  let data := mkSection ".data" 0x2000 0x80 0x600 0x200 in
  offsetToRva 0x610 [text; data] = Some (0x2000 + (0x610 - 0x600))
  /\ offsetToRva 0x40 [text; data] = Some 0x40
  /\ offsetToRva 0x5F8 [text; data] = None.
Proof.
  cbv zeta.
  pose proof (proj1 (offsetToRva_amended 0x610
                      [mkSection ".text" 0x1000 0x1F0 0x400 0x200;
                       mkSection ".data" 0x2000 0x80 0x600 0x200])) as Hhit.
  pose proof (proj1 (offsetToRva_amended 0x40
                      [mkSection ".text" 0x1000 0x1F0 0x400 0x200;
                       mkSection ".data" 0x2000 0x80 0x600 0x200])) as Hbefore.
  pose proof (proj1 (offsetToRva_amended 0x5F8
                      [mkSection ".text" 0x1000 0x1F0 0x400 0x200;
                       mkSection ".data" 0x2000 0x80 0x600 0x200])) as Hmiss.
  assert (Hsafe : Forall safe_section
                    [mkSection ".text" 0x1000 0x1F0 0x400 0x200;
                     mkSection ".data" 0x2000 0x80 0x600 0x200])
    by (repeat constructor; cbn; lia).
  split; [|split].
  - destruct (Hhit Hsafe ltac:(lia)) as [H _].
    apply (H [mkSection ".text" 0x1000 0x1F0 0x400 0x200]
             (mkSection ".data" 0x2000 0x80 0x600 0x200) []); [reflexivity | |].
    + intros s [<-|[]]. unfold yields_rva. cbn. lia.
    + unfold yields_rva. cbn. lia.
  - destruct (Hbefore Hsafe ltac:(lia)) as [_ H].
    destruct H as [H _].
    + intros s [<-|[<-|[]]]; unfold yields_rva; cbn; lia.
    + apply (H _ _ eq_refl). cbn. lia.
  - destruct (Hmiss Hsafe ltac:(lia)) as [_ H].
    destruct H as [_ [H _]].
    + intros s [<-|[<-|[]]]; unfold yields_rva; cbn; lia.
    + apply (H _ _ eq_refl). cbn. lia.
Defined.

(** The mapper on the section table of a small PE: [.text] at raw offset
    0x400, mapped at 0x1000. *)
Example offsetToRva_text :
  let text := mkSection ".text" 0x1000 0x1F0 0x400 0x200 in
  let data := mkSection ".data" 0x2000 0x80 0x600 0x200 in
  offsetToRva 0x410 [text; data] = Some 0x1010
  /\ offsetToRva 0x5F8 [text; data] = None
  /\ offsetToRva 0x40 [text; data] = Some 0x40
  /\ offsetToRva 0x610 [text; data] = Some 0x2010
  /\ offsetToRva 0x900 [text; data] = None.
Proof. repeat split; reflexivity. Qed.


(* ================================================================== *)
(** ** The search engine *)

Lemma sorted_snoc (l : list Z) (y : Z) :
  StronglySorted Z.le l -> Forall (fun x => x <= y) l ->
  StronglySorted Z.le (l ++ [y]).
Proof.
  induction 1 as [|x l Hs IH Hx]; intro Hall; cbn [app].
  - constructor; constructor.
  - inversion Hall as [|? ? Hxy Hl]; subst.
    constructor; [now apply IH|].
    apply Forall_app. split; [exact Hx|]. constructor; [exact Hxy | constructor].
Qed.

Lemma ascending_snoc (results : list SearchResult) (r : SearchResult) :
  ascending results ->
  Forall (fun x => res_offset x <= res_offset r) results ->
  ascending (results ++ [r]).
Proof.
  unfold ascending. intros Hs Hall. rewrite map_app. cbn [map].
  apply sorted_snoc; [exact Hs|].
  apply Forall_map. exact Hall.
Qed.

Section SlidingScan.

Variable buf : buffer.
Variable sections : list SectionMetadata.
Variable searchBytes : list Z.
Variable mv : jsstring.

(** The scan keeps the results ascending and stops at the limit. *)
Lemma scanLoop_ascending (n : nat) :
  forall (i : Z) (results : list SearchResult),
    (List.length results < RESULT_LIMIT)%nat ->
    ascending results ->
    Forall (fun r => res_offset r < i) results ->
    ascending (scanLoop buf sections searchBytes mv n i results)
    /\ (List.length (scanLoop buf sections searchBytes mv n i results)
        <= RESULT_LIMIT)%nat.
Proof.
  induction n as [|n IH]; intros i results Hlen Hasc Hlt; cbn [scanLoop].
  - split; [exact Hasc | lia].
  - destruct (matchAt buf i 0 searchBytes).
    + set (hit := mkResult i (Z.of_nat (List.length searchBytes))
                           (offsetToRva i sections) mv).
      assert (Hasc' : ascending (results ++ [hit])).
      { apply ascending_snoc; [exact Hasc|].
        eapply Forall_impl; [|exact Hlt]. cbn. intros; lia. }
      assert (Hlen' : List.length (results ++ [hit]) = S (List.length results))
        by (rewrite length_app; cbn; lia).
      destruct (Nat.leb_spec RESULT_LIMIT (List.length (results ++ [hit]))).
      * split; [exact Hasc' | lia].
      * apply IH; [lia | exact Hasc' |].
        apply Forall_app. split.
        -- eapply Forall_impl; [|exact Hlt]. cbn. intros; lia.
        -- constructor; [cbn; lia | constructor].
    + apply IH; [exact Hlen | exact Hasc |].
      eapply Forall_impl; [|exact Hlt]. cbn. intros; lia.
Qed.

(** Every result of the scan is a position where the bytes matched. *)
Lemma scanLoop_Forall (Q : SearchResult -> Prop) :
  (forall i, 0 <= i -> matchAt buf i 0 searchBytes = true ->
             Q (mkResult i (Z.of_nat (List.length searchBytes))
                         (offsetToRva i sections) mv)) ->
  forall (n : nat) (i : Z) (results : list SearchResult),
    0 <= i -> Forall Q results ->
    Forall Q (scanLoop buf sections searchBytes mv n i results).
Proof.
  intros HQ. induction n as [|n IH]; intros i results Hi Hall; cbn [scanLoop].
  - exact Hall.
  - destruct (matchAt buf i 0 searchBytes) eqn:E.
    + set (hit := mkResult i (Z.of_nat (List.length searchBytes))
                           (offsetToRva i sections) mv).
      assert (Hall' : Forall Q (results ++ [hit])).
      { apply Forall_app. split; [exact Hall|]. constructor; [now apply HQ | constructor]. }
      destruct (RESULT_LIMIT <=? List.length (results ++ [hit]))%nat.
      * exact Hall'.
      * apply IH; [lia | exact Hall'].
    + apply IH; [lia | exact Hall].
Qed.

Lemma slidingScan_ascending :
  ascending (slidingScan buf sections searchBytes mv)
  /\ (List.length (slidingScan buf sections searchBytes mv) <= RESULT_LIMIT)%nat.
Proof.
  unfold slidingScan. cbv zeta. apply scanLoop_ascending.
  - unfold RESULT_LIMIT. cbn. lia.
  - constructor.
  - constructor.
Qed.

End SlidingScan.

(** A position where the bytes matched holds the bytes searched for. *)
Lemma nth_error_skipn {A : Type} (l : list A) (k : nat) (x : A) :
  nth_error l k = Some x -> skipn k l = x :: skipn (S k) l.
Proof.
  revert k. induction l as [|a l IH]; intros [|k] H; cbn in H; try discriminate.
  - now injection H as ->.
  - cbn [skipn]. rewrite (IH k H). reflexivity.
Qed.

Lemma matchAt_bytes (buf : buffer) (searchBytes : list Z) :
  forall i j, 0 <= i + j -> matchAt buf i j searchBytes = true ->
    map byte_val (firstn (List.length searchBytes) (skipn (Z.to_nat (i + j)) buf))
    = searchBytes.
Proof.
  induction searchBytes as [|s rest IH]; intros i j Hij H; [reflexivity|].
  cbn [matchAt] in H. unfold byteAt in H.
  destruct (Z.ltb_spec (i + j) 0); [lia|].
  destruct (nth_error buf (Z.to_nat (i + j))) as [b|] eqn:E; cbn [option_map] in H;
    [|discriminate].
  destruct (Z.eqb_spec (byte_val b) s) as [Hb|]; [|discriminate].
  rewrite (nth_error_skipn _ _ _ E). cbn [List.length firstn map].
  f_equal; [exact Hb|].
  replace (S (Z.to_nat (i + j))) with (Z.to_nat (i + (j + 1))) by lia.
  apply IH; [lia | exact H].
Qed.

Lemma slidingScan_matches (buf : buffer) (sections : list SectionMetadata)
    (searchBytes : list Z) (mv : jsstring) (r : SearchResult) :
  In r (slidingScan buf sections searchBytes mv) ->
  0 <= res_offset r
  /\ res_size r = Z.of_nat (List.length searchBytes)
  /\ bytes_at buf (res_offset r) (res_size r) = searchBytes
  /\ matchVal r = mv.
Proof.
  intro Hin.
  assert (Hall : Forall (fun r => 0 <= res_offset r
                   /\ res_size r = Z.of_nat (List.length searchBytes)
                   /\ bytes_at buf (res_offset r) (res_size r) = searchBytes
                   /\ matchVal r = mv)
                   (slidingScan buf sections searchBytes mv)).
  { unfold slidingScan. cbv zeta. apply scanLoop_Forall; [|lia|constructor].
    intros i Hi Hm. cbn [res_offset res_size matchVal]. repeat split; [exact Hi|].
    unfold bytes_at. rewrite Nat2Z.id.
    replace i with (i + 0) at 1 by lia. apply matchAt_bytes; [lia | exact Hm]. }
  rewrite Forall_forall in Hall. exact (Hall r Hin).
Qed.

(** The regex loop keeps the results ascending and stops at the limit. *)
Lemma regexLoop_ascending
    (regex_exec : jsstring -> jsstring -> Z -> option (Z * Z))
    (sections : list SectionMetadata) (query str : jsstring) :
  exec_advances regex_exec ->
  forall (fuel : nat) (lastIndex : Z) (results out : list SearchResult),
    regexLoop regex_exec sections query str fuel lastIndex results = Ok out ->
    (List.length results < RESULT_LIMIT)%nat ->
    ascending results ->
    Forall (fun r => res_offset r <= lastIndex) results ->
    ascending out /\ (List.length out <= RESULT_LIMIT)%nat.
Proof.
  intros Hexec. induction fuel as [|fuel IH]; intros li results out H Hlen Hasc Hle;
    cbn [regexLoop] in H; [discriminate|].
  destruct (regex_exec query str li) as [[index mlen]|] eqn:E.
  - destruct (Hexec _ _ _ _ _ E) as [Hidx Hm].
    set (r := mkResult index mlen (offsetToRva index sections) (substring str index mlen)) in *.
    assert (Hasc' : ascending (results ++ [r])).
    { apply ascending_snoc; [exact Hasc|].
      eapply Forall_impl; [|exact Hle]. cbn. intros; lia. }
    assert (Hlen' : List.length (results ++ [r]) = S (List.length results))
      by (rewrite length_app; cbn; lia).
    destruct (Nat.leb_spec RESULT_LIMIT (List.length (results ++ [r]))).
    + injection H as <-. split; [exact Hasc' | lia].
    + apply (IH _ _ _ H); [lia | exact Hasc' |].
      apply Forall_app. split.
      * eapply Forall_impl; [|exact Hle]. cbn. intros; lia.
      * constructor; [cbn; lia | constructor].
  - injection H as <-. split; [exact Hasc | lia].
Qed.

(** The fuel [searchPE] gives the regex loop is never used up. *)
Lemma regexLoop_fuel
    (regex_exec : jsstring -> jsstring -> Z -> option (Z * Z))
    (sections : list SectionMetadata) (query str : jsstring) :
  forall (fuel : nat) (lastIndex : Z) (results : list SearchResult),
    (RESULT_LIMIT <= List.length results + fuel)%nat ->
    (List.length results < RESULT_LIMIT)%nat ->
    returns (regexLoop regex_exec sections query str fuel lastIndex results).
Proof.
  unfold returns.
  induction fuel as [|fuel IH]; intros li results Hf Hlen; [lia|].
  cbn [regexLoop].
  destruct (regex_exec query str li) as [[index mlen]|]; [|eauto].
  set (r := mkResult index mlen (offsetToRva index sections) (substring str index mlen)).
  assert (Hlen' : List.length (results ++ [r]) = S (List.length results))
    by (rewrite length_app; cbn; lia).
  destruct (Nat.leb_spec RESULT_LIMIT (List.length (results ++ [r]))); [eauto|].
  apply IH; lia.
Qed.

(** [searchPE] returns a list or throws: the loops end. *)
Lemma searchPE_total (regex_valid : jsstring -> bool)
    (regex_exec : jsstring -> jsstring -> Z -> option (Z * Z))
    (file : ParsedFile) (query : jsstring) (mode : SearchMode) (useRegex : bool) :
  returns (searchPE regex_valid regex_exec file query mode useRegex)
  \/ throws (searchPE regex_valid regex_exec file query mode useRegex).
Proof.
  unfold searchPE, returns, throws. cbv zeta.
  destruct query as [|c q]; [eauto|].
  destruct mode.
  - match goal with |- context [if ?c then _ else _] => destruct c end; eauto.
  - destruct useRegex; [|eauto].
    destruct (50 * 1024 * 1024 <? byteLength (data file)); [eauto|].
    destruct (regex_valid (c :: q)); [|eauto].
    left. apply regexLoop_fuel; unfold RESULT_LIMIT; cbn; lia.
  - destruct useRegex; eauto.
Qed.


Lemma bigBuffer_length : byteLength bigBuffer = MB50 + 1.
Proof.
  unfold byteLength, bigBuffer. rewrite repeat_length.
  rewrite Z2Nat.id; [reflexivity | unfold MB50; lia].
Qed.

(** C10. An empty query returns the empty list in every mode and with either
    value of the regex flag: no error is raised, neither for hex validation
    nor for the unicode and regex combination. *)
Theorem searchPE_empty_query (regex_valid : jsstring -> bool)
    (regex_exec : jsstring -> jsstring -> Z -> option (Z * Z))
    (file : ParsedFile) (mode : SearchMode) (useRegex : bool) :
  searchPE regex_valid regex_exec file [] mode useRegex = Ok [].
Proof. reflexivity. Qed.

(** C4, as stated, fails: on a buffer of more than 50 MB, the empty query with
    the regex flag set returns the empty list and raises nothing. *)
Lemma regex_large_buffer_empty_query :
  MB50 < byteLength (data (fileOf bigBuffer []))
  /\ ~ throws (searchPE (fun _ => true) exec_never (fileOf bigBuffer []) [] ModeAscii true).
Proof.
  split.
  - change (data (fileOf bigBuffer [])) with bigBuffer. rewrite bigBuffer_length. lia.
  - intros [e H]. discriminate H.
Qed.

(** C4, amended. On a buffer of more than 50 MB and a query that is not empty,
    [searchPE] in ascii mode with the regex flag raises the "File too large"
    error, whatever the query and before the pattern is compiled; in unicode
    mode with the flag it raises the "not supported" error; in hex mode the
    flag is not read, and the search is the one without it. *)
Theorem regex_large_buffer_error (regex_valid : jsstring -> bool)
    (regex_exec : jsstring -> jsstring -> Z -> option (Z * Z))
    (file : ParsedFile) (query : jsstring) :
  MB50 < byteLength (data file) ->
  query <> [] ->
  searchPE regex_valid regex_exec file query ModeAscii true
  = Throw (Error "File too large for Regex search (max 50MB)")
  /\ searchPE regex_valid regex_exec file query ModeUnicode true
     = Throw (Error "Regex not supported for Unicode (Raw) search in this version.")
  /\ searchPE regex_valid regex_exec file query ModeHex true
     = searchPE regex_valid regex_exec file query ModeHex false.
Proof.
  intros Hbig Hq. destruct query as [|c q]; [congruence|].
  unfold searchPE. cbv zeta. unfold MB50 in Hbig.
  destruct (Z.ltb_spec (50 * 1024 * 1024) (byteLength (data file))); [|lia].
  repeat split.
Qed.

Lemma regex_large_buffer_error_witness :
  searchPE (fun _ => true) exec_empty (fileOf bigBuffer []) [97] ModeAscii true
  = Throw (Error "File too large for Regex search (max 50MB)")
  /\ searchPE (fun _ => true) exec_empty (fileOf bigBuffer []) [97] ModeUnicode true
     = Throw (Error "Regex not supported for Unicode (Raw) search in this version.")
  /\ searchPE (fun _ => true) exec_empty (fileOf bigBuffer []) [97] ModeHex true
     = searchPE (fun _ => true) exec_empty (fileOf bigBuffer []) [97] ModeHex false.
Proof.
  apply (regex_large_buffer_error (fun _ => true) exec_empty (fileOf bigBuffer []) [97]).
  - change (data (fileOf bigBuffer [])) with bigBuffer. rewrite bigBuffer_length. lia.
  - discriminate.
Defined.

(** C5. Whenever [searchPE] returns, the results are in ascending order of
    offset and there are at most 2000 of them. The regex engine is any [exec]
    whose matches start at or after [lastIndex]. *)
Theorem search_results_ordered_capped (regex_valid : jsstring -> bool)
    (regex_exec : jsstring -> jsstring -> Z -> option (Z * Z))
    (file : ParsedFile) (query : jsstring) (mode : SearchMode) (useRegex : bool)
    (results : list SearchResult) :
  exec_advances regex_exec ->
  searchPE regex_valid regex_exec file query mode useRegex = Ok results ->
  ascending results /\ (List.length results <= 2000)%nat.
Proof.
  intros Hexec H. unfold searchPE in H. cbv zeta in H.
  destruct query as [|c q].
  - injection H as <-. split; [constructor | cbn; lia].
  - destruct mode.
    + match type of H with context [if ?c then _ else _] => destruct c end;
        [discriminate|].
      injection H as <-. apply slidingScan_ascending.
    + destruct useRegex.
      * destruct (50 * 1024 * 1024 <? byteLength (data file)); [discriminate|].
        destruct (regex_valid (c :: q)); [|discriminate].
        apply (regexLoop_ascending regex_exec _ _ _ Hexec _ _ _ _ H).
        -- unfold RESULT_LIMIT. cbn. lia.
        -- constructor.
        -- constructor.
      * injection H as <-. apply slidingScan_ascending.
    + destruct useRegex; [discriminate|].
      injection H as <-. apply slidingScan_ascending.
Qed.

Lemma exec_never_advances : exec_advances exec_never.
Proof. intros p s li i n H. discriminate H. Qed.

Lemma exec_empty_advances : exec_advances exec_empty.
Proof. intros p s li i n H. injection H as <- <-. lia. Qed.

(** The hex query "4D 5A" on a buffer that holds "MZ" at 0 and at 3. *)
Lemma search_results_ordered_capped_witness :
  let q := [52; 68; 53; 65] in
  ascending [mkResult 0 2 None q; mkResult 3 2 None q]
  /\ (List.length [mkResult 0 2 None q; mkResult 3 2 None q] <= 2000)%nat.
Proof.
  exact (search_results_ordered_capped (fun _ => true) exec_never
           (fileOf (bytes [0x4D; 0x5A; 0; 0x4D; 0x5A]) [])
           [52; 68; 32; 53; 65] ModeHex false _
           exec_never_advances eq_refl).
Defined.

(** With an engine that matches the empty string where it stands, the regex
    loop stops at the limit: 2000 results, all at offset 0. *)
Example search_regex_empty_matches :
  exists results,
    searchPE (fun _ => true) exec_empty (fileOf (bytes [1; 2; 3]) []) [97] ModeAscii true
    = Ok results
    /\ List.length results = 2000%nat
    /\ forallb (fun r => res_offset r =? 0) results = true.
Proof.
  eexists. split; [vm_compute; reflexivity|]. split; vm_compute; reflexivity.
Qed.


(** The bytes the unicode mode searches for are the UTF-16LE encoding. *)
Lemma unicodeBytes_utf16le (query : jsstring) :
  Forall code_unit query -> unicodeBytes query = utf16le query.
Proof.
  unfold unicodeBytes, utf16le.
  induction 1 as [|c q Hc Hq IH]; [reflexivity|].
  cbn [flat_map]. rewrite IH. f_equal.
  unfold code_unit in Hc.
  change 255 with (Z.ones 8).
  rewrite !Z.land_ones by lia. rewrite Z.shiftr_div_pow2 by lia.
  change (2 ^ 8) with 256.
  assert (0 <= c / 256 < 256).
  { split; [apply Z.div_pos; lia | apply Z.div_lt_upper_bound; lia]. }
  rewrite (Z.mod_small (c / 256)) by lia. reflexivity.
Qed.

Lemma unicodeBytes_length (query : jsstring) :
  Z.of_nat (List.length (unicodeBytes query)) = 2 * Z.of_nat (List.length query).
Proof.
  unfold unicodeBytes. induction query as [|c q IH]; [reflexivity|].
  cbn [flat_map]. rewrite length_app. cbn [List.length]. lia.
Qed.

(** C7, as stated, fails: in unicode mode with the regex flag set, the empty
    query raises nothing. *)
Lemma unicode_regex_empty_query :
  ~ throws (searchPE (fun _ => true) exec_never (fileOf (bytes [0x41; 0x00]) [])
              [] ModeUnicode true).
Proof. intros [e H]. discriminate H. Qed.

(** C7, amended. In unicode mode, for a query of UTF-16 code units: with the
    regex flag set, every query that is not empty raises the "not supported"
    error (the empty query returns the empty list); with the flag clear,
    every result has a size of twice the number of code units of the query,
    and the bytes of the buffer at [offset, offset + size) are the UTF-16LE
    encoding of the query, two bytes per code unit, low byte first. *)
Theorem unicode_search_spec (regex_valid : jsstring -> bool)
    (regex_exec : jsstring -> jsstring -> Z -> option (Z * Z))
    (file : ParsedFile) (query : jsstring) :
  Forall code_unit query ->
  (query <> [] ->
   searchPE regex_valid regex_exec file query ModeUnicode true
   = Throw (Error "Regex not supported for Unicode (Raw) search in this version."))
  /\ (forall results,
        searchPE regex_valid regex_exec file query ModeUnicode false = Ok results ->
        forall r, In r results ->
          res_size r = 2 * Z.of_nat (List.length query)
          /\ bytes_at (data file) (res_offset r) (res_size r) = utf16le query).
Proof.
  intro Hcu. split.
  - intro Hq. destruct query; [congruence | reflexivity].
  - intros results H r Hin. unfold searchPE in H. cbv zeta in H.
    destruct query as [|c q].
    + injection H as <-. destruct Hin.
    + injection H as <-.
      destruct (slidingScan_matches _ _ _ _ _ Hin) as (_ & Hsize & Hbytes & _).
      rewrite Hbytes, Hsize. split.
      * exact (unicodeBytes_length (c :: q)).
      * exact (unicodeBytes_utf16le (c :: q) Hcu).
Qed.

(** The query "Hi" on a buffer that holds its UTF-16LE bytes at offset 1. *)
Lemma unicode_search_spec_witness :
  let file := fileOf (bytes [0x00; 0x48; 0x00; 0x69; 0x00; 0x00]) [] in
  (([72; 105] : jsstring) <> [] ->
   searchPE (fun _ => true) exec_never file [72; 105] ModeUnicode true
   = Throw (Error "Regex not supported for Unicode (Raw) search in this version."))
  /\ (forall results,
        searchPE (fun _ => true) exec_never file [72; 105] ModeUnicode false = Ok results ->
        forall r, In r results ->
          res_size r = 2 * Z.of_nat (List.length [72; 105])
          /\ bytes_at (data file) (res_offset r) (res_size r) = utf16le [72; 105]).
Proof.
  apply (unicode_search_spec (fun _ => true) exec_never
           (fileOf (bytes [0x00; 0x48; 0x00; 0x69; 0x00; 0x00]) []) [72; 105]).
  repeat constructor; unfold code_unit; lia.
Defined.

Example unicode_search_Hi :
  searchPE (fun _ => true) exec_never
    (fileOf (bytes [0x00; 0x48; 0x00; 0x69; 0x00; 0x00]) []) [72; 105] ModeUnicode false
  = Ok [mkResult 1 4 None [72; 105]].
Proof. reflexivity. Qed.


(* ================================================================== *)
(** ** Reads of the usual widths *)

Lemma getUint8_ok (view : buffer) (off : Z) :
  0 <= off -> off + 1 <= byteLength view ->
  exists v, getUint8 view off = Ok v /\ 0 <= v < 256.
Proof. intros. unfold getUint8. apply (getUint_in_range 1); cbn; lia. Qed.

Lemma getUint16_ok (view : buffer) (off : Z) (le : bool) :
  0 <= off -> off + 2 <= byteLength view ->
  exists v, getUint16 view off le = Ok v /\ 0 <= v < 65536.
Proof. intros. unfold getUint16. apply (getUint_in_range 2); cbn; lia. Qed.

Lemma getUint32_ok (view : buffer) (off : Z) (le : bool) :
  0 <= off -> off + 4 <= byteLength view ->
  exists v, getUint32 view off le = Ok v /\ 0 <= v < 2 ^ 32.
Proof. intros. unfold getUint32. apply (getUint_in_range 4); cbn; lia. Qed.

Lemma getBigUint64_ok (view : buffer) (off : Z) (le : bool) :
  0 <= off -> off + 8 <= byteLength view ->
  exists v, getBigUint64 view off le = Ok v /\ 0 <= v < 2 ^ 64.
Proof. intros. unfold getBigUint64. apply (getUint_in_range 8); cbn; lia. Qed.

Lemma getUint32_value (view : buffer) (off : Z) (le : bool) (v : Z) :
  getUint32 view off le = Ok v ->
  0 <= v < 2 ^ 32 /\ 0 <= off /\ off + 4 <= byteLength view.
Proof. intro H. apply (getUint_value 4) in H. cbn in H. exact H. Qed.

Lemma getUint16_value (view : buffer) (off : Z) (le : bool) (v : Z) :
  getUint16 view off le = Ok v ->
  0 <= v < 65536 /\ 0 <= off /\ off + 2 <= byteLength view.
Proof. intro H. apply (getUint_value 2) in H. cbn in H. exact H. Qed.

Lemma getBigUint64_value (view : buffer) (off : Z) (le : bool) (v : Z) :
  getBigUint64 view off le = Ok v ->
  0 <= v < 2 ^ 64 /\ 0 <= off /\ off + 8 <= byteLength view.
Proof. intro H. apply (getUint_value 8) in H. cbn in H. exact H. Qed.

Lemma byteLength_nonneg (view : buffer) : 0 <= byteLength view.
Proof. unfold byteLength. lia. Qed.

(** A string read whose bytes lie inside the view returns. *)
Lemma readString_loop_ok (view : buffer) (off : Z) (n : nat) :
  forall i, 0 <= off + i -> off + i + Z.of_nat n <= byteLength view ->
    returns (readString_loop view off n i).
Proof.
  unfold returns.
  induction n as [|n IH]; intros i H0 H1; cbn [readString_loop]; [eauto|].
  destruct (getUint8_ok view (off + i)) as (c & Hc & _); [lia | lia |].
  rewrite Hc. cbn [bind].
  destruct (c =? 0); [eauto|].
  destruct (IH (i + 1)) as (s & Hs); [lia | lia |].
  rewrite Hs. cbn [bind]. eauto.
Qed.

Lemma readString_clamped_ok (view : buffer) (off len : Z) :
  0 <= off -> returns (readString_clamped view off len).
Proof.
  intro H0. unfold readString_clamped. cbv zeta.
  destruct (Z_le_gt_dec off (byteLength view)).
  - apply readString_loop_ok; lia.
  - replace (Z.to_nat (Z.min len (byteLength view - off))) with O by lia.
    cbn. unfold returns. eauto.
Qed.

Lemma readString_ok (view : buffer) (off len : Z) :
  0 <= off -> 0 <= len -> off + len <= byteLength view ->
  returns (readString view off len).
Proof.
  intros H0 Hl H1. unfold readString.
  apply readString_loop_ok; lia.
Qed.

(** Rewrites the next read of the goal into the value it returns; the side
    conditions are the bounds of the read. *)
Ltac read_ok :=
  match goal with
  | |- context [getUint8 ?v ?o] =>
      let x := fresh "b" in let Hx := fresh "Hb" in let Hr := fresh "Hr" in
      destruct (getUint8_ok v o) as (x & Hx & Hr); [lia | lia | rewrite Hx; cbn [bind]]
  | |- context [getUint16 ?v ?o ?le] =>
      let x := fresh "h" in let Hx := fresh "Hh" in let Hr := fresh "Hr" in
      destruct (getUint16_ok v o le) as (x & Hx & Hr); [lia | lia | rewrite Hx; cbn [bind]]
  | |- context [getUint32 ?v ?o ?le] =>
      let x := fresh "w" in let Hx := fresh "Hw" in let Hr := fresh "Hr" in
      destruct (getUint32_ok v o le) as (x & Hx & Hr); [lia | lia | rewrite Hx; cbn [bind]]
  | |- context [getBigUint64 ?v ?o ?le] =>
      let x := fresh "d" in let Hx := fresh "Hd" in let Hr := fresh "Hr" in
      destruct (getBigUint64_ok v o le) as (x & Hx & Hr); [lia | lia | rewrite Hx; cbn [bind]]
  end.

(* ================================================================== *)
(** ** The PNG walk *)

Lemma chunk_name_IEND (type : string) :
  ("Chunk: " ++ type)%string = "Chunk: IEND"%string <-> type = "IEND"%string.
Proof.
  split.
  - cbn. intro H. now injection H.
  - now intros ->.
Qed.

Lemma snoc_split {A : Type} (before : list A) (r : A) (after l : list A) (c : A) :
  before ++ r :: after = l ++ [c] ->
  (after = [] /\ before = l /\ r = c) \/ In r l.
Proof.
  intro H. destruct after as [|a t].
  - apply app_inj_tail in H. left. tauto.
  - destruct (@exists_last _ (a :: t)) as (t' & z & Ht); [discriminate|].
    rewrite Ht in H.
    change (before ++ r :: t' ++ [z]) with (before ++ (r :: t') ++ [z]) in H.
    rewrite app_assoc in H. apply app_inj_tail in H. destruct H as [<- _].
    right. apply in_elt.
Qed.

Lemma no_IEND_last (regions : list PERegion) (off : Z)
    (before : list PERegion) (r : PERegion) (after : list PERegion) :
  Forall (fun x => name x <> "Chunk: IEND"%string /\ offset x < off) regions ->
  regions = before ++ r :: after ->
  name r = "Chunk: IEND"%string ->
  after = [] /\ Forall (fun x => offset x < offset r) before.
Proof.
  intros Hall -> Hr. rewrite Forall_forall in Hall.
  destruct (Hall r) as [Hn _]; [apply in_elt | contradiction].
Qed.

(** The walk returns: the fuel covers the bytes that are left. What it adds
    are chunk regions whose size is the length read at their offset plus 12,
    and a chunk named IEND is the last region, behind all the others. *)
Lemma parsePNG_loop_spec (view : buffer) :
  forall (fuel : nat) (off : Z) (regions : list PERegion),
    0 <= off ->
    Z.max 0 (byteLength view - off) < Z.of_nat fuel ->
    Forall (fun x => name x <> "Chunk: IEND"%string /\ offset x < off) regions ->
    exists out,
      parsePNG_loop view fuel off regions = Ok out
      /\ (exists added,
             out = regions ++ added
             /\ Forall (fun r => type r = PNG_CHUNK /\ off <= offset r
                                 /\ offset r + size r <= byteLength view
                                 /\ exists len, getUint32 view (offset r) false = Ok len
                                                /\ size r = len + 12) added)
      /\ (forall before r after,
             out = before ++ r :: after ->
             name r = "Chunk: IEND"%string ->
             after = [] /\ Forall (fun x => offset x < offset r) before).
Proof.
  induction fuel as [|fuel IH]; intros off regions H0 Hfuel Hinv; [lia|].
  assert (Hstop : exists out, Ok regions = Ok out
            /\ (exists added, out = regions ++ added
                  /\ Forall (fun r => type r = PNG_CHUNK /\ off <= offset r
                                 /\ offset r + size r <= byteLength view
                                 /\ exists len, getUint32 view (offset r) false = Ok len
                                                /\ size r = len + 12) added)
            /\ (forall before r after, out = before ++ r :: after ->
                  name r = "Chunk: IEND"%string ->
                  after = [] /\ Forall (fun x => offset x < offset r) before)).
  { exists regions. split; [reflexivity|]. split.
    - exists []. split; [now rewrite app_nil_r | constructor].
    - intros before r after. exact (no_IEND_last regions off before r after Hinv). }
  cbn [parsePNG_loop].
  destruct (Z.ltb_spec off (byteLength view)); cbn [negb]; [|exact Hstop].
  destruct (Z.ltb_spec (byteLength view) (off + 8)); [exact Hstop|].
  destruct (getUint32_ok view off false) as (len & Hlen & Hlr); [lia | lia |].
  rewrite Hlen. cbn [bind].
  destruct (readString_clamped_ok view (off + 4) 4) as (ty & Hty); [lia|].
  rewrite Hty. cbn [bind].
  destruct (Z.ltb_spec (byteLength view) (off + (12 + len))); [exact Hstop|].
  read_ok.
  assert (Hihdr : exists kids,
    (if (ty =? "IHDR")%string && (13 <=? len)
     then
       let* _ := getUint32 view (off + 8) false in
       let* _ := getUint32 view (off + 12) false in
       let* _ := getUint8 view (off + 16) in
       let* _ := getUint8 view (off + 17) in
       let* _ := getUint8 view (off + 18) in
       let* _ := getUint8 view (off + 19) in
       let* _ := getUint8 view (off + 20) in
       Ok [field "Width" (off + 8) 4; field "Height" (off + 12) 4;
           field "BitDepth" (off + 16) 1; field "ColorType" (off + 17) 1]
     else Ok []) = Ok kids).
  { destruct ((ty =? "IHDR")%string); cbn [andb]; [|eauto].
    destruct (Z.leb_spec 13 len); [|eauto].
    repeat read_ok. eauto. }
  destruct Hihdr as (kids & ->). cbn [bind].
  set (chunk := mkRegion ("Chunk: " ++ ty) off (12 + len) PNG_CHUNK _).
  assert (Hchunk : type chunk = PNG_CHUNK /\ off <= offset chunk
                   /\ offset chunk + size chunk <= byteLength view
                   /\ exists l, getUint32 view (offset chunk) false = Ok l
                                /\ size chunk = l + 12).
  { unfold chunk. cbn [type offset size].
    split; [reflexivity|]. split; [lia|]. split; [lia|].
    exists len. split; [exact Hlen | lia]. }
  destruct (String.eqb_spec ty "IEND") as [Hiend | Hnot].
  - exists (regions ++ [chunk]). split; [reflexivity|]. split.
    + exists [chunk]. split; [reflexivity|]. constructor; [exact Hchunk | constructor].
    + intros before r after Heq Hname. symmetry in Heq.
      destruct (snoc_split _ _ _ _ _ Heq) as [(-> & -> & ->) | Hin].
      * split; [reflexivity|]. eapply Forall_impl; [|exact Hinv].
        cbv beta. intros x [_ Hx]. exact Hx.
      * rewrite Forall_forall in Hinv. destruct (Hinv r Hin) as [Hn _]. contradiction.
  - destruct (IH (off + (12 + len)) (regions ++ [chunk])) as (out & Hout & Hadd & Hlast).
    + lia.
    + lia.
    + apply Forall_app. split.
      * eapply Forall_impl; [|exact Hinv]. cbv beta. intros x [Hn Hx]. split; [exact Hn | lia].
      * constructor; [|constructor]. cbn [name offset chunk]. split; [|lia].
        intro Hc. apply chunk_name_IEND in Hc. contradiction.
    + exists out. split; [exact Hout|]. split; [|exact Hlast].
      destruct Hadd as (added & -> & Hall).
      exists (chunk :: added). split; [now rewrite <- app_assoc|].
      constructor; [exact Hchunk|].
      eapply Forall_impl; [|exact Hall]. cbv beta.
      intros x (Ht & Ho & Hrest). repeat split; try tauto. lia.
Qed.

(** C9. On every buffer [parsePNG] returns; a chunk region named IEND is the
    last region emitted and lies behind every other region; and the size of
    every chunk region is the 4-byte big-endian length read at its offset
    plus the 12 bytes of length, type and CRC. *)
Theorem parsePNG_walk (buf : buffer) (fileName : string) (isDarkMode : bool) :
  exists pf,
    parsePNG buf fileName isDarkMode = Ok pf
    /\ (forall before r after,
           regions pf = before ++ r :: after ->
           name r = "Chunk: IEND"%string ->
           after = [] /\ Forall (fun x => offset x < offset r) before)
    /\ (forall r, In r (chunk_regions pf) ->
           exists len, getUint32 buf (offset r) false = Ok len /\ size r = len + 12).
Proof.
  unfold parsePNG. cbv zeta.
  destruct (parsePNG_loop_spec buf (S (List.length buf)) 8
              [mkRegion "PNG Signature" 0 8 IMAGE_HEADER []])
    as (out & Hout & (added & -> & Hadd) & Hlast).
  - lia.
  - unfold byteLength. lia.
  - constructor; [|constructor]. cbn. split; [discriminate | lia].
  - rewrite Hout. cbn [bind]. eexists. split; [reflexivity|]. split.
    + cbn [regions]. exact Hlast.
    + unfold chunk_regions. cbn [regions]. intros r Hin.
      apply filter_In in Hin. destruct Hin as [Hin Hty].
      cbn [app] in Hin. destruct Hin as [<- | Hin]; [discriminate Hty|].
      rewrite Forall_forall in Hadd. destruct (Hadd r Hin) as (_ & _ & _ & Hlen).
      exact Hlen.
Qed.


(* ================================================================== *)
(** ** The format detector *)

(** The reads of the detector on a buffer of at least four bytes. *)
Lemma sniff_reads (b0 b1 b2 b3 : byte) (rest : list byte) :
  let view := b0 :: b1 :: b2 :: b3 :: rest in
  getUint32 view 0 false = Ok (be_value [b0; b1; b2; b3])
  /\ getUint16 view 0 true = Ok (le_value [b0; b1])
  /\ getUint8 view 0 = Ok (byte_val b0)
  /\ getUint8 view 1 = Ok (byte_val b1)
  /\ getUint8 view 2 = Ok (byte_val b2)
  /\ getUint8 view 3 = Ok (byte_val b3).
Proof.
  cbv zeta.
  assert (Hlen : 4 <= byteLength (b0 :: b1 :: b2 :: b3 :: rest)).
  { unfold byteLength. cbn [List.length]. lia. }
  unfold getUint32, getUint16, getUint8, getUint.
  rewrite !view_bytes_in_range by (cbn [Z.of_nat]; lia).
  change (Z.to_nat 0) with 0%nat. change (Z.to_nat 1) with 1%nat.
  change (Z.to_nat 2) with 2%nat. change (Z.to_nat 3) with 3%nat.
  cbn [skipn firstn le_value].
  rewrite !Z.mul_0_r, !Z.add_0_r. repeat split.
Qed.

(** C8. A buffer of fewer than four bytes, or whose first four bytes are none
    of the signatures the detector knows ("MZ", ELF, the eight Mach-O and Fat
    magics), goes to the PE parser, which returns a [ParsedFile] with
    [isValid] false and an error message that is not empty; nothing is
    thrown, and [handleFile] reports that message. *)
Theorem unrecognized_falls_back_to_PE (buf : buffer) (fileName : string)
    (isDarkMode : bool) :
  byteLength buf < 4 \/ recognizedMagic buf = false ->
  detectAndParse buf fileName isDarkMode = parsePE buf fileName isDarkMode
  /\ exists pf msg,
       parsePE buf fileName isDarkMode = Ok pf
       /\ isValid pf = false
       /\ error pf = Some msg
       /\ msg <> EmptyString
       /\ handleFile buf fileName isDarkMode = Ok (ErrorMsg msg).
Proof.
  intro H.
  assert (Hsmall : byteLength buf < 64 ->
            exists pf msg, parsePE buf fileName isDarkMode = Ok pf
              /\ isValid pf = false /\ error pf = Some msg /\ msg <> EmptyString).
  { intro Hlt. unfold parsePE. cbv zeta.
    destruct (Z.ltb_spec (byteLength buf) 64); [|lia].
    eexists; eexists. split; [reflexivity|]. cbn. repeat split. discriminate. }
  assert (Hmain : detectAndParse buf fileName isDarkMode = parsePE buf fileName isDarkMode
            /\ exists pf msg, parsePE buf fileName isDarkMode = Ok pf
              /\ isValid pf = false /\ error pf = Some msg /\ msg <> EmptyString).
  { destruct (Z_lt_ge_dec (byteLength buf) 4) as [Hlt | Hge].
    - split; [|apply Hsmall; lia].
      unfold detectAndParse. cbv zeta.
      destruct (Z.leb_spec 4 (byteLength buf)); [lia | reflexivity].
    - destruct H as [H | H]; [lia|].
      destruct buf as [|b0 [|b1 [|b2 [|b3 rest]]]];
        try (unfold byteLength in Hge; cbn [List.length] in Hge; lia).
      destruct (sniff_reads b0 b1 b2 b3 rest) as (Hm & Hmz & H0 & H1 & H2 & H3).
      cbv zeta in *.
      cbn [recognizedMagic existsb] in H.
      rewrite orb_false_r in H.
      apply orb_false_iff in H. destruct H as [H Hmacho].
      apply orb_false_iff in H. destruct H as [Hnmz Hnelf].
      split.
      + unfold detectAndParse. cbv zeta.
        destruct (Z.leb_spec 4 (byteLength (b0 :: b1 :: b2 :: b3 :: rest))); [|lia].
        rewrite Hm, Hmz. cbn [bind]. rewrite Hnmz.
        rewrite H0, H1, H2, H3. cbn [bind]. rewrite Hnelf.
        rewrite <- !orb_assoc. rewrite Hmacho. reflexivity.
      + destruct (Z_lt_ge_dec (byteLength (b0 :: b1 :: b2 :: b3 :: rest)) 64) as [Hlt | Hge64];
          [now apply Hsmall|].
        unfold parsePE. cbv zeta.
        destruct (Z.ltb_spec (byteLength (b0 :: b1 :: b2 :: b3 :: rest)) 64); [lia|].
        rewrite Hmz. cbn [bind]. rewrite Hnmz. cbn [negb].
        eexists; eexists. split; [reflexivity|]. cbn. repeat split. discriminate. }
  destruct Hmain as (Hd & pf & msg & Hp & Hv & He & Hm).
  split; [exact Hd|].
  exists pf, msg. repeat split; try assumption.
  unfold handleFile. rewrite Hd, Hp, Hv, He. cbn [negb].
  destruct (String.eqb_spec msg ""); [contradiction | reflexivity].
Qed.

(** A text file ("abc\n", then more) and a buffer of three bytes. *)
Lemma unrecognized_falls_back_to_PE_witness :
  (detectAndParse (bytes [0x61; 0x62; 0x63; 0x0A; 0x64]) "a.txt" true
   = parsePE (bytes [0x61; 0x62; 0x63; 0x0A; 0x64]) "a.txt" true
   /\ exists pf msg,
        parsePE (bytes [0x61; 0x62; 0x63; 0x0A; 0x64]) "a.txt" true = Ok pf
        /\ isValid pf = false
        /\ error pf = Some msg
        /\ msg <> EmptyString
        /\ handleFile (bytes [0x61; 0x62; 0x63; 0x0A; 0x64]) "a.txt" true = Ok (ErrorMsg msg))
  /\ (detectAndParse (bytes [1; 2; 3]) "b" false = parsePE (bytes [1; 2; 3]) "b" false
      /\ exists pf msg,
           parsePE (bytes [1; 2; 3]) "b" false = Ok pf
           /\ isValid pf = false
           /\ error pf = Some msg
           /\ msg <> EmptyString
           /\ handleFile (bytes [1; 2; 3]) "b" false = Ok (ErrorMsg msg)).
Proof.
  split.
  - apply (unrecognized_falls_back_to_PE (bytes [0x61; 0x62; 0x63; 0x0A; 0x64]) "a.txt" true).
    right. reflexivity.
  - apply (unrecognized_falls_back_to_PE (bytes [1; 2; 3]) "b" false).
    left. reflexivity.
Defined.

(** A buffer of 64 zero bytes is not recognized either: the PE parser answers
    with the DOS-signature error. *)
Example detect_zeros :
  handleFile (bytes (repeat 0 64)) "zeros" true
  = Ok (ErrorMsg "Invalid DOS signature (not MZ)").
Proof. reflexivity. Qed.


(* ================================================================== *)
(** ** The region invariant on concrete files *)

(** C1 fails on the JPEG parser: on a segment whose declared length is 0 the
    parser returns a valid file whose ["Data"] child has the size -2 and
    starts behind the end of its parent. *)
Theorem parseJPEG_negative_size :
  exists pf seg dat,
    parseJPEG jpegShortSegment "short.jpg" true = Ok pf
    /\ isValid pf = true
    /\ file_size pf = 4
    /\ regions pf = [seg]
    /\ In dat (children seg)
    /\ offset dat = 4
    /\ size dat = -2
    /\ regions_okb (file_size pf) (regions pf) = false.
Proof.
  do 3 eexists. split; [vm_compute; reflexivity|].
  split; [reflexivity|]. split; [reflexivity|]. split; [reflexivity|].
  split; [right; right; left; reflexivity|].
  split; [reflexivity|]. split; reflexivity.
Qed.

(** The PNG parser pushes the 8-byte signature region before it looks at the
    buffer: on the empty buffer the region ends outside the file. *)
Example parsePNG_signature_outside :
  exists pf,
    parsePNG [] "empty.png" true = Ok pf
    /\ isValid pf = true
    /\ file_size pf = 0
    /\ regions pf = [mkRegion "PNG Signature" 0 8 IMAGE_HEADER []]
    /\ regions_okb (file_size pf) (regions pf) = false.
Proof. eexists. split; [vm_compute; reflexivity|]. repeat split. Qed.

(** The PE parser reads the fields of the optional header whatever size the
    file header declares for it: with a declared size of 2, the children of the
    ["Optional Header"] region run past their parent. *)
Example parsePE_optional_children_outside :
  exists pf nt opt,
    parsePE peShortOptional "short.exe" true = Ok pf
    /\ isValid pf = true
    /\ nth_error (regions pf) 1 = Some nt
    /\ nth_error (children nt) 2 = Some opt
    /\ name opt = "Optional Header"%string
    /\ offset opt = 88 /\ size opt = 2
    /\ In (field "SizeOfCode" 92 4) (children opt)
    /\ node_okb (file_size pf) opt = false
    /\ regions_okb (file_size pf) (regions pf) = false.
Proof.
  do 3 eexists. split; [vm_compute; reflexivity|].
  split; [reflexivity|]. split; [reflexivity|]. split; [reflexivity|].
  split; [reflexivity|]. split; [reflexivity|]. split; [reflexivity|].
  split; [right; right; right; left; reflexivity|].
  split; reflexivity.
Qed.


(* ================================================================== *)
(** ** Reasoning on outcomes *)

Lemma wp_bind {A B : Type} (R : A -> Prop) (Q : B -> Prop)
    (m : outcome A) (k : A -> outcome B) :
  wp R m -> (forall a, R a -> wp Q (k a)) -> wp Q (bind m k).
Proof.
  destruct m as [a | e |]; cbn [wp bind]; intros Hm Hk.
  - now apply Hk.
  - exact Hm.
  - exact Hm.
Qed.

Lemma wp_weaken {A : Type} (P Q : A -> Prop) (m : outcome A) :
  wp P m -> (forall a, P a -> Q a) -> wp Q m.
Proof. destruct m; cbn [wp]; auto. Qed.

Lemma wp_returns {A : Type} (Q : A -> Prop) (m : outcome A) (a : A) :
  wp Q m -> m = Ok a -> Q a.
Proof. intros H ->. exact H. Qed.

(** [wp] with the trivial postcondition: value or [RangeError]. *)
Lemma wp_cases {A : Type} (Q : A -> Prop) (m : outcome A) :
  wp Q m -> returns m \/ m = Throw RangeError.
Proof.
  destruct m as [a | e |]; cbn [wp]; intro H.
  - left. now exists a.
  - right. now rewrite H.
  - contradiction.
Qed.

Lemma wp_getUint (n : nat) (view : buffer) (off : Z) (le : bool) (Q : Z -> Prop) :
  (forall v, getUint n view off le = Ok v -> Q v) -> wp Q (getUint n view off le).
Proof.
  intro H. destruct (getUint_cases n view off le) as [(v & Hv) | Hv].
  - rewrite Hv. cbn [wp]. now apply H.
  - rewrite Hv. reflexivity.
Qed.

Lemma wp_read (n : nat) (view : buffer) (off : Z) (le : bool) :
  wp (fun v => getUint n view off le = Ok v) (getUint n view off le).
Proof. now apply wp_getUint. Qed.

Lemma wp_getInt32 (view : buffer) (off : Z) (le : bool) :
  wp (fun _ => True) (getInt32 view off le).
Proof.
  unfold getInt32. eapply wp_bind; [apply wp_read|]. intros; exact I.
Qed.

Lemma wp_readString_loop (view : buffer) (off : Z) (n : nat) :
  forall i, wp (fun _ => True) (readString_loop view off n i).
Proof.
  induction n as [|n IH]; intro i; cbn [readString_loop]; [exact I|].
  eapply wp_bind; [apply wp_read|]. intros c _.
  destruct (c =? 0); [exact I|].
  eapply wp_bind; [apply IH|]. intros; exact I.
Qed.

Lemma wp_readString (view : buffer) (off len : Z) :
  wp (fun _ => True) (readString view off len).
Proof. apply wp_readString_loop. Qed.

Lemma wp_readString_clamped (view : buffer) (off len : Z) :
  wp (fun _ => True) (readString_clamped view off len).
Proof. apply wp_readString_loop. Qed.

Lemma wp_readString_elf (view : buffer) (off : Z) :
  wp (fun _ => True) (readString_elf view off).
Proof.
  unfold readString_elf. cbv zeta.
  destruct (byteLength view - off <=? 0); [exact I | apply wp_readString_loop].
Qed.

Lemma wp_getWord (view : buffer) (off : Z) (is64Bit : bool) :
  wp (fun _ => True) (getWord view off is64Bit).
Proof. unfold getWord. destruct is64Bit; now apply wp_getUint. Qed.

Lemma wp_getElfWord (view : buffer) (off : Z) (is64 isLE : bool) :
  wp (fun v => 0 <= v) (getElfWord view off is64 isLE).
Proof.
  unfold getElfWord. destruct is64; apply wp_getUint; intros v Hv.
  - apply getBigUint64_value in Hv. lia.
  - apply getUint32_value in Hv. lia.
Qed.

Lemma wp_getSegWord (view : buffer) (isSeg64 isLE : bool) (a b : Z) :
  wp (fun v => 0 <= v) (getSegWord view isSeg64 isLE a b).
Proof.
  unfold getSegWord. destruct isSeg64; apply wp_getUint; intros v Hv.
  - apply getBigUint64_value in Hv. lia.
  - apply getUint32_value in Hv. lia.
Qed.

Lemma bind_assoc {A B C : Type} (m : outcome A) (f : A -> outcome B)
    (g : B -> outcome C) :
  bind (bind m f) g = bind m (fun x => bind (f x) g).
Proof. destruct m; reflexivity. Qed.

(** Names the value of the first part of a bind and what is known of it. *)
Ltac wp_intro :=
  let v := fresh "v" in
  let H := fresh "Hv" in
  intros v H; cbv beta in H.

(** One step through a computation: a bind whose first part is a read or a
    string read, a conditional, a returned value. *)
Ltac wp_step :=
  match goal with
  | |- wp _ (Ok _) => cbn [wp]
  | |- wp _ (Throw RangeError) => reflexivity
  | |- wp _ (bind (getUint8 _ _) _) => eapply wp_bind; [apply wp_read | wp_intro]
  | |- wp _ (bind (getUint16 _ _ _) _) => eapply wp_bind; [apply wp_read | wp_intro]
  | |- wp _ (bind (getUint32 _ _ _) _) => eapply wp_bind; [apply wp_read | wp_intro]
  | |- wp _ (bind (getBigUint64 _ _ _) _) => eapply wp_bind; [apply wp_read | wp_intro]
  | |- wp _ (bind (getInt32 _ _ _) _) => eapply wp_bind; [apply wp_getInt32 | intros ? _]
  | |- wp _ (bind (getWord _ _ _) _) => eapply wp_bind; [apply wp_getWord | intros ? _]
  | |- wp _ (bind (getElfWord _ _ _ _) _) => eapply wp_bind; [apply wp_getElfWord | wp_intro]
  | |- wp _ (bind (getSegWord _ _ _ _ _) _) => eapply wp_bind; [apply wp_getSegWord | wp_intro]
  | |- wp _ (bind (readString _ _ _) _) => eapply wp_bind; [apply wp_readString | intros ? _]
  | |- wp _ (bind (readString_clamped _ _ _) _) =>
      eapply wp_bind; [apply wp_readString_clamped | intros ? _]
  | |- wp _ (bind (readString_elf _ _) _) =>
      eapply wp_bind; [apply wp_readString_elf | intros ? _]
  | |- wp _ (bind (Ok _) _) => cbn [bind]
  | |- wp _ (bind (bind _ _) _) => rewrite bind_assoc
  | |- wp _ (bind (if ?c then _ else _) _) => destruct c eqn:?
  | |- wp _ (if ?c then _ else _) => destruct c eqn:?
  | |- wp _ _ => progress cbv zeta
  end.

(** A bind whose first part is a call with a lemma of its own. *)
Ltac wp_call lem := eapply wp_bind; [apply lem | wp_intro].

(* ================================================================== *)
(** ** The PE parser returns or throws [RangeError] *)

Lemma wp_optionalHeaderFields (view : buffer) (optHeaderOffset : Z) (is64Bit : bool) :
  wp (fun _ => True) (optionalHeaderFields view optHeaderOffset is64Bit).
Proof.
  unfold optionalHeaderFields. cbv zeta.
  repeat wp_step; exact I.
Qed.

Lemma wp_dataDirs_loop (view : buffer) (dataDirsOffset limit : Z) (n : nat) :
  forall i acc, wp (fun _ => True) (dataDirs_loop view dataDirsOffset limit n i acc).
Proof.
  induction n as [|n IH]; intros i acc; cbn [dataDirs_loop]; [exact I|].
  repeat wp_step; try exact I. apply IH.
Qed.





(* ================================================================== *)
(** ** The ELF parser returns or throws [RangeError] *)






(* ================================================================== *)
(** ** Regions of a Mach-O slice start at the slice *)

Lemma all_from_app (base : Z) (l1 l2 : list PERegion) :
  all_from base l1 -> all_from base l2 -> all_from base (l1 ++ l2).
Proof.
  unfold all_from. intros H1 H2. rewrite forallb_app, H1, H2. reflexivity.
Qed.

Lemma all_from_nil (base : Z) : all_from base [].
Proof. reflexivity. Qed.

Lemma starts_from_node (base : Z) (nm : string) (off sz : Z) (ty : RegionType)
    (kids : list PERegion) :
  starts_from base (mkRegion nm off sz ty kids)
  = (base <=? off) && forallb (starts_from base) kids.
Proof. reflexivity. Qed.

Lemma all_from_node (base : Z) (nm : string) (off sz : Z) (ty : RegionType)
    (kids : list PERegion) :
  base <= off -> all_from base kids -> all_from base [mkRegion nm off sz ty kids].
Proof.
  intros H Hk. unfold all_from in *. cbn [forallb].
  rewrite starts_from_node, Hk.
  destruct (Z.leb_spec base off); [reflexivity | lia].
Qed.

Lemma all_from_leaf (base : Z) (nm : string) (off sz : Z) (ty : RegionType) :
  base <= off -> all_from base [mkRegion nm off sz ty []].
Proof. intro H. apply all_from_node; [exact H | reflexivity]. Qed.

Lemma all_from_fields (base : Z) (n1 n2 : string) (o1 s1 o2 s2 : Z) :
  base <= o1 -> base <= o2 -> all_from base [field n1 o1 s1; field n2 o2 s2].
Proof.
  intros H1 H2.
  apply (all_from_app base [field n1 o1 s1] [field n2 o2 s2]);
    now apply all_from_leaf.
Qed.

Lemma js_round_nonneg (z : Z) : 0 <= z -> 0 <= js_round z.
Proof. intro H. apply js_round_lower; lia. Qed.

Lemma js_add_lower (base f : Z) :
  0 <= base <= 2 ^ 53 -> 0 <= f -> base <= js_add base f.
Proof. intros Hb Hf. unfold js_add. apply js_round_lower; lia. Qed.

Lemma wp_machoSections_loop (view : buffer) (base : Z) (prefix : string)
    (isLE isSeg64 : bool) (n : nat) :
  forall sectOffset kids meta,
    base <= sectOffset -> all_from base kids ->
    wp (fun res => all_from base (fst res))
       (machoSections_loop view base prefix isLE isSeg64 n sectOffset kids meta).
Proof.
  induction n as [|n IH]; intros sectOffset kids meta Hs Hk;
    cbn [machoSections_loop]; [exact Hk|].
  repeat wp_step; try exact Hk.
  apply IH.
  - destruct isSeg64; lia.
  - apply all_from_app; [exact Hk|]. now apply all_from_leaf.
Qed.

Lemma wp_loadCommands_loop (view : buffer) (base : Z) (prefix : string)
    (isLE : bool) (headerSize sizeofCmds : Z) (n : nat) :
  0 <= base <= 2 ^ 53 ->
  forall cur acc,
    base <= cur ->
    all_from base (cmd_children acc) -> all_from base (cmd_segments acc) ->
    wp (fun res => all_from base (cmd_children res) /\ all_from base (cmd_segments res))
       (loadCommands_loop view base prefix isLE headerSize sizeofCmds n cur acc).
Proof.
  intros Hbase. induction n as [|n IH]; intros cur acc Hcur Hc Hs;
    cbn [loadCommands_loop]; [now split|].
  (* the header of the command: [cmd] and [cmdsize] *)
  repeat wp_step; try (now split);
  match goal with H : getUint 4 view (cur + 4) isLE = Ok ?v |- _ =>
    pose proof (getUint32_value _ _ _ _ H) as (Hsz & _) end;
  assert (Hk0 : all_from base [field "Command" cur 4; field "CmdSize" (cur + 4) 4])
    by (apply all_from_fields; lia);
  (* a segment command: its fields, then its section headers *)
  repeat first [wp_step | wp_call wp_getSegWord];
  try (eapply wp_bind;
       [ apply wp_machoSections_loop;
         [ match goal with |- base <= cur + (if ?c then _ else _) => destruct c end; lia
         | exact Hk0 ]
       | intros sects Hsects; cbv beta in Hsects; repeat wp_step ]);
  (* the next command starts at [cur + cmdsize], with one more child *)
  (apply IH; cbn [cmd_children cmd_segments fst snd]; try lia; try exact Hs);
  try (apply all_from_app; [exact Hc|]; apply all_from_node; [lia | assumption]);
  (* the segment data region starts at [base + fileoff] *)
  (match goal with |- all_from base (if ?c then _ else _) => destruct c end;
   try exact Hs);
  (apply all_from_app; [exact Hs|]; apply all_from_leaf);
  (apply js_add_lower; [exact Hbase|]; now apply js_round_nonneg).
Qed.


Lemma wp_parseMachOAtOffset (view : buffer) (base sizeLimit : Z) (prefix : string) :
  0 <= base <= 2 ^ 53 ->
  wp (fun res => all_from base (fst res))
     (parseMachOAtOffset view base sizeLimit prefix).
Proof.
  intro Hbase. unfold parseMachOAtOffset. cbv zeta.
  repeat wp_step; try apply all_from_nil.
  match goal with |- wp _ (match ?arch with _ => _ end) => destruct arch as [[isLE is64]|] end;
    [|apply all_from_nil].
  repeat wp_step; try apply all_from_nil.
  eapply wp_bind.
  { apply wp_loadCommands_loop; [exact Hbase | | apply all_from_nil | apply all_from_nil].
    destruct is64; lia. }
  intros scan [Hkids Hsegs]. cbn [wp fst].
  apply all_from_app; [apply all_from_leaf; lia|].
  apply all_from_app; [exact Hsegs|].
  apply all_from_node; [destruct is64; lia | exact Hkids].
Qed.

(* ================================================================== *)
(** ** The slices of a Fat Mach-O *)

Lemma insert_by_offset_perm (r : PERegion) (l : list PERegion) :
  Permutation (insert_by_offset r l) (r :: l).
Proof.
  induction l as [|x l IH]; cbn [insert_by_offset]; [reflexivity|].
  destruct (offset r <=? offset x); [reflexivity|].
  rewrite IH. apply perm_swap.
Qed.

Lemma sort_by_offset_perm (l : list PERegion) : Permutation (sort_by_offset l) l.
Proof.
  unfold sort_by_offset. induction l as [|x l IH]; cbn [fold_right]; [reflexivity|].
  rewrite insert_by_offset_perm. now constructor.
Qed.

Lemma filter_perm {A : Type} (f : A -> bool) (l l' : list A) :
  Permutation l l' -> Permutation (filter f l) (filter f l').
Proof.
  induction 1 as [| x l l' _ IH | x y l | l l' l'' _ IH1 _ IH2]; cbn [filter].
  - reflexivity.
  - destruct (f x); [now constructor | exact IH].
  - destruct (f x), (f y); try reflexivity. apply perm_swap.
  - now transitivity (filter f l').
Qed.

(** An entry that does not fit in the buffer contributes no slice, and no
    later entry does. *)
Lemma sliceAt_beyond (view : buffer) (isLE : bool) (i : Z) :
  byteLength view < 8 + 20 * i + 20 -> sliceAt view isLE i = [].
Proof.
  intro H. unfold sliceAt. cbv zeta.
  destruct (Z.leb_spec (8 + 20 * i + 20) (byteLength view)); [lia | reflexivity].
Qed.

Lemma slicesFrom_beyond (view : buffer) (isLE : bool) (n : nat) :
  forall i, byteLength view < 8 + 20 * i + 20 -> slicesFrom view isLE n i = [].
Proof.
  induction n as [|n IH]; intros i H; cbn [slicesFrom]; [reflexivity|].
  rewrite sliceAt_beyond by exact H. rewrite IH by lia. reflexivity.
Qed.

Lemma slicesFrom_length (view : buffer) (isLE : bool) (n : nat) :
  forall i, (List.length (slicesFrom view isLE n i) <= n)%nat.
Proof.
  induction n as [|n IH]; intro i; cbn [slicesFrom]; [cbn; lia|].
  rewrite length_app. specialize (IH (i + 1)).
  assert (List.length (sliceAt view isLE i) <= 1)%nat; [|lia].
  unfold sliceAt. cbv zeta.
  repeat match goal with |- context [if ?c then _ else _] => destruct c end; cbn; lia.
Qed.

(** The entry that the loop reads at [8 + 20 i], as the declaration sees it. *)
Lemma sliceAt_read (view : buffer) (isLE : bool) (i o s : Z) :
  8 + 20 * i + 20 <= byteLength view ->
  getUint32 view (8 + 20 * i + 8) isLE = Ok o ->
  getUint32 view (8 + 20 * i + 12) isLE = Ok s ->
  sliceAt view isLE i
  = if (0 <? o) && (o + s <=? byteLength view) then [(o, s)] else [].
Proof.
  intros H Ho Hs. unfold sliceAt, readU32. cbv zeta.
  destruct (Z.leb_spec (8 + 20 * i + 20) (byteLength view)); [|lia].
  rewrite Ho, Hs. reflexivity.
Qed.

(** The walk over the [fat_arch] entries: the slice regions it adds are, in
    order, the slices the entries declare, and each is well placed. *)
Lemma wp_fatArch_loop (view : buffer) (isLE : bool) (n : nat) :
  forall i regions meta,
    0 <= i ->
    wp (fun res =>
          exists added,
            fst res = regions ++ added
            /\ map range_of (filter isSlice added) = slicesFrom view isLE n i
            /\ Forall (slice_ok (byteLength view)) (filter isSlice added))
       (fatArch_loop view isLE n (8 + 20 * i) regions meta).
Proof.
  induction n as [|n IH]; intros i regions meta Hi; cbn [fatArch_loop].
  - exists []. rewrite app_nil_r. repeat split. constructor.
  - cbv zeta. destruct (Z.ltb_spec (byteLength view) (8 + 20 * i + 20)) as [Hout | Hin].
    + exists []. rewrite app_nil_r. split; [reflexivity|]. split; [|constructor].
      cbn [filter map slicesFrom].
      rewrite sliceAt_beyond by lia. rewrite slicesFrom_beyond by lia. reflexivity.
    + wp_step. wp_step.
      eapply wp_bind; [apply wp_read|]. intros o Ho. cbv beta in Ho.
      eapply wp_bind; [apply wp_read|]. intros s Hs. cbv beta in Hs.
      wp_step.
      pose proof (getUint32_value _ _ _ _ Ho) as (Hor & _).
      pose proof (getUint32_value _ _ _ _ Hs) as (Hsr & _).
      replace (8 + 20 * i + 20) with (8 + 20 * (i + 1)) by lia.
      cbn [slicesFrom]. rewrite (sliceAt_read view isLE i o s Hin Ho Hs).
      set (archDef := mkRegion _ (8 + 20 * i) 20 FAT_HEADER []).
      destruct ((0 <? o) && (o + s <=? byteLength view)) eqn:Hvalid.
      * apply andb_true_iff in Hvalid. destruct Hvalid as [Hpos Hend].
        apply Z.ltb_lt in Hpos. apply Z.leb_le in Hend.
        rewrite bind_assoc.
        eapply wp_bind.
        { apply wp_parseMachOAtOffset. change (2 ^ 53) with 9007199254740992.
          change (2 ^ 32) with 4294967296 in Hor. lia. }
        intros sliceParse Hkids. cbv beta in Hkids. cbn [bind fst snd].
        set (slice := mkRegion _ o s SEGMENT (fst sliceParse)).
        eapply wp_weaken; [apply (IH (i + 1)); lia|].
        intros res (added & Hres & Hmap & Hok).
        exists (archDef :: slice :: added). split.
        { rewrite Hres. rewrite <- !app_assoc. reflexivity. }
        cbn [filter isSlice archDef slice type RegionType_eqb map range_of offset size app].
        fold isSlice. split.
        { now rewrite Hmap. }
        constructor; [|exact Hok].
        unfold slice_ok, slice. cbn [offset size children].
        split; [lia|]. split; [lia | exact Hkids].
      * cbn [bind fst snd].
        eapply wp_weaken; [apply (IH (i + 1)); lia|].
        intros res (added & Hres & Hmap & Hok).
        exists (archDef :: added). split.
        { rewrite Hres. rewrite <- !app_assoc. reflexivity. }
        cbn [filter isSlice archDef type RegionType_eqb app].
        fold isSlice. split; [exact Hmap | exact Hok].
Qed.



(** C3, as stated, fails: a Fat header whose two entries declare the same
    slice gives two slice regions that overlap, and the ["Load Commands"]
    region nested in a slice, whose size is the [sizeofcmds] field, runs past
    the slice and past the file. *)
Lemma fat_slices_overlap :
  exists pf s1 s2 lc,
    parseMachO fatTwice "fat" true = Ok pf
    /\ slice_regions pf = [s1; s2]
    /\ overlap s1 s2
    /\ In lc (children s1)
    /\ offset s1 + size s1 < offset lc + size lc
    /\ file_size pf < offset lc + size lc.
Proof.
  do 4 eexists. split; [vm_compute; reflexivity|].
  split; [reflexivity|].
  split; [split; reflexivity|].
  split; [right; left; reflexivity|].
  split; reflexivity.
Qed.

(** C3, amended. For a Fat Mach-O buffer whose header declares [nFatArch]
    entries, the slice regions [parseMachO] produces are those of the entries
    that lie inside the buffer and declare an offset that is not 0 and a range
    that ends inside the file: one region per such entry, with exactly the
    declared range, hence at most [nFatArch] of them. Every region nested in
    a slice region starts at or after the start of the slice. (The slices are
    not compared with each other.) *)
Theorem fat_slices_spec (buf : buffer) (fileName : string) (isDarkMode : bool)
    (pf : ParsedFile) (magic nFatArch : Z) :
  parseMachO buf fileName isDarkMode = Ok pf ->
  getUint32 buf 0 false = Ok magic ->
  isFatMagic magic = true ->
  getUint32 buf 4 ((magic =? FAT_CIGAM_LE) || (magic =? FAT_CIGAM_64_LE)) = Ok nFatArch ->
  Permutation (map range_of (slice_regions pf))
              (declaredSlices buf ((magic =? FAT_CIGAM_LE) || (magic =? FAT_CIGAM_64_LE))
                              nFatArch)
  /\ (List.length (slice_regions pf) <= Z.to_nat nFatArch)%nat
  /\ Forall (slice_ok (file_size pf)) (slice_regions pf).
Proof.
  intros Hparse Hmagic Hfat Hn.
  set (isLE := (magic =? FAT_CIGAM_LE) || (magic =? FAT_CIGAM_64_LE)) in *.
  assert (Hgoal : forall l,
            Permutation l (slicesFrom buf isLE (Z.to_nat nFatArch) 0) ->
            (List.length l <= Z.to_nat nFatArch)%nat).
  { intros l Hl. rewrite (Permutation_length Hl). apply slicesFrom_length. }
  unfold parseMachO in Hparse. cbv zeta in Hparse.
  destruct (Z.ltb_spec (byteLength buf) 28) as [Hsmall | Hbig].
  - injection Hparse as <-. unfold slice_regions, declaredSlices.
    cbn [invalidFile regions filter map List.length file_size].
    rewrite slicesFrom_beyond by lia.
    split; [reflexivity|]. split; [lia | constructor].
  - rewrite Hmagic in Hparse. cbn [bind] in Hparse. rewrite Hfat in Hparse.
    fold isLE in Hparse. rewrite Hn in Hparse. cbn [bind] in Hparse.
    pose proof (wp_fatArch_loop buf isLE (Z.to_nat nFatArch) 0
                  [mkRegion "Fat Header" 0 8 FAT_HEADER []] [] (Z.le_refl 0)) as W.
    change (8 + 20 * 0) with 8 in W.
    destruct (fatArch_loop buf isLE (Z.to_nat nFatArch) 8
                [mkRegion "Fat Header" 0 8 FAT_HEADER []] []) as [parsed | e |];
      cbn [bind] in Hparse; try discriminate.
    injection Hparse as <-.
    destruct W as (added & Hres & Hmap & Hok).
    unfold slice_regions, declaredSlices. cbn [regions file_size].
    assert (Hperm : Permutation (filter isSlice (sort_by_offset (fst parsed)))
                                (filter isSlice added)).
    { rewrite (filter_perm isSlice _ _ (sort_by_offset_perm (fst parsed))).
      rewrite Hres. reflexivity. }
    assert (Hranges : Permutation
                        (map range_of (filter isSlice (sort_by_offset (fst parsed))))
                        (slicesFrom buf isLE (Z.to_nat nFatArch) 0)).
    { rewrite <- Hmap. now apply Permutation_map. }
    split; [exact Hranges|]. split.
    + rewrite <- (length_map range_of). now apply Hgoal.
    + eapply Permutation_Forall; [symmetry; exact Hperm | exact Hok].
Qed.

Lemma fat_slices_spec_witness :
  exists pf,
    parseMachO fatTwice "fat" true = Ok pf
    /\ Permutation (map range_of (slice_regions pf)) (declaredSlices fatTwice false 2)
    /\ (List.length (slice_regions pf) <= 2)%nat
    /\ Forall (slice_ok (file_size pf)) (slice_regions pf).
Proof.
  eexists. split; [vm_compute; reflexivity|].
  apply (fat_slices_spec fatTwice "fat" true _ 0xCAFEBABE 2); reflexivity.
Defined.

(** The slices that the header of [fatTwice] declares. *)
Example fatTwice_declared : declaredSlices fatTwice false 2 = [(48, 28); (48, 28)].
Proof. reflexivity. Qed.


(* ================================================================== *)
(** ** The image parsers return or throw [RangeError] *)

(** Turns the tests recorded along a path into facts for [lia]. *)
Ltac tests :=
  repeat match goal with
    | H : negb _ = false |- _ => apply negb_false_iff in H
    | H : negb _ = true |- _ => apply negb_true_iff in H
    | H : (_ || _) = false |- _ => apply orb_false_iff in H; destruct H
    | H : (_ && _) = true |- _ => apply andb_true_iff in H; destruct H
    | H : (_ <? _) = true |- _ => apply Z.ltb_lt in H
    | H : (_ <? _) = false |- _ => apply Z.ltb_ge in H
    | H : (_ <=? _) = true |- _ => apply Z.leb_le in H
    | H : (_ <=? _) = false |- _ => apply Z.leb_gt in H
    | H : (_ =? _) = true |- _ => apply Z.eqb_eq in H
    | H : (_ =? _) = false |- _ => apply Z.eqb_neq in H
    end.

Lemma wp_parsePNG (buf : buffer) (fileName : string) (isDarkMode : bool) :
  wp (fun pf => isValid pf = true) (parsePNG buf fileName isDarkMode).
Proof.
  unfold parsePNG. cbv zeta.
  destruct (parsePNG_loop_spec buf (S (List.length buf)) 8
              [mkRegion "PNG Signature" 0 8 IMAGE_HEADER []])
    as (out & Hout & _).
  - lia.
  - unfold byteLength. lia.
  - constructor; [|constructor]. cbn. split; [discriminate | lia].
  - rewrite Hout. reflexivity.
Qed.








(* ================================================================== *)
(** ** The parse boundary *)




Lemma parsePNG_returns (buf : buffer) (fileName : string) (isDarkMode : bool) :
  exists pf, parsePNG buf fileName isDarkMode = Ok pf /\ isValid pf = true.
Proof.
  unfold parsePNG. cbv zeta.
  destruct (parsePNG_loop_spec buf (S (List.length buf)) 8
              [mkRegion "PNG Signature" 0 8 IMAGE_HEADER []]) as (out & Hout & _).
  - lia.
  - unfold byteLength. lia.
  - constructor; [|constructor]. cbn. split; [discriminate | lia].
  - rewrite Hout. cbn [bind]. eexists. split; reflexivity.
Qed.


(** The same on the other paths the claim names: the unguarded 8-byte read of
    LC_MAIN in the Mach-O parser, and the reads of an SOF0 segment of
    declared length 6 in the JPEG parser. *)
Example parseMachO_throws : parseMachO machoShortMain "main" true = Throw RangeError.
Proof. vm_compute. reflexivity. Qed.

Example parseJPEG_throws : parseJPEG jpegShortSOF0 "sof0.jpg" true = Throw RangeError.
Proof. vm_compute. reflexivity. Qed.

(** What [handleFile] makes of them. *)
Example handleFile_catches :
  handleFile peTruncated "cut.exe" true
  = Ok (ErrorMsg "Failed to parse file: Offset is outside the bounds of the DataView")
  /\ handleFile machoShortMain "main" true
     = Ok (ErrorMsg "Failed to parse file: Offset is outside the bounds of the DataView").
Proof. split; vm_compute; reflexivity. Qed.



(* ================================================================== *)
(** ** The region invariant where the bounds are checked: PNG *)

(** Splits a boolean conjunction of comparisons into its comparisons. *)
Ltac okb :=
  repeat first
    [ progress cbn [deep_forallb node_okb forallb withinb offset size children app field]
    | apply andb_true_intro; split
    | reflexivity
    | apply Z.leb_le; lia ].

(** The chunk regions of the walk satisfy the invariant of the data model. *)
Lemma parsePNG_loop_ok (view : buffer) :
  forall (fuel : nat) (off : Z) (regions : list PERegion),
    0 <= off ->
    Z.max 0 (byteLength view - off) < Z.of_nat fuel ->
    regions_okb (byteLength view) regions = true ->
    wp (fun out => regions_okb (byteLength view) out = true)
       (parsePNG_loop view fuel off regions).
Proof.
  unfold regions_okb.
  induction fuel as [|fuel IH]; intros off regions H0 Hfuel Hok; [lia|].
  cbn [parsePNG_loop].
  repeat wp_step; tests; try exact Hok.
  all: repeat match goal with H : getUint 4 _ _ _ = Ok _ |- _ =>
         apply getUint32_value in H; destruct H as (H & _) end.
  all: try (apply IH; [lia | lia |]).
  all: cbv beta; rewrite forallb_app, Hok; cbn [andb forallb]; rewrite andb_true_r.
  all: match goal with |- context [if ?c then _ else _] => destruct c end.
  all: okb.
Qed.

(** On a buffer that holds the 8 bytes of the signature, every region that
    [parsePNG] returns has a size that is not negative and ends inside the
    file, and every child lies within its parent. *)
Theorem parsePNG_regions_ok (buf : buffer) (fileName : string) (isDarkMode : bool) :
  8 <= byteLength buf ->
  exists pf,
    parsePNG buf fileName isDarkMode = Ok pf
    /\ regions_okb (file_size pf) (regions pf) = true.
Proof.
  intro Hlen.
  destruct (parsePNG_returns buf fileName isDarkMode) as (pf & Hpf & _).
  exists pf. split; [exact Hpf|].
  unfold parsePNG in Hpf. cbv zeta in Hpf.
  pose proof (parsePNG_loop_ok buf (S (List.length buf)) 8
                [mkRegion "PNG Signature" 0 8 IMAGE_HEADER []]) as W.
  destruct (parsePNG_loop buf (S (List.length buf)) 8
              [mkRegion "PNG Signature" 0 8 IMAGE_HEADER []]) as [out | e |];
    cbn [bind] in Hpf; try discriminate.
  injection Hpf as <-. cbn [file_size regions]. apply W.
  - lia.
  - unfold byteLength. lia.
  - unfold regions_okb. okb.
Qed.

Lemma parsePNG_regions_ok_witness :
  exists pf,
    parsePNG (bytes ([137; 80; 78; 71; 13; 10; 26; 10]
                     ++ [0; 0; 0; 13; 73; 72; 68; 82]
                     ++ [0; 0; 0; 1; 0; 0; 0; 1; 8; 2; 0; 0; 0] ++ [0x90; 0x77; 0x53; 0xDE]
                     ++ [0; 0; 0; 0; 73; 69; 78; 68; 0xAE; 0x42; 0x60; 0x82]))
             "pixel.png" true = Ok pf
    /\ regions_okb (file_size pf) (regions pf) = true.
Proof.
  apply parsePNG_regions_ok. vm_compute. discriminate.
Defined.

(** ** Literal search: the occurrences, in order, up to the limit *)

Lemma bytes_at_length (buf : buffer) (i n : Z) (l : list Z) :
  0 <= i -> 0 < n -> bytes_at buf i n = l -> Z.of_nat (List.length l) = n ->
  i + n <= byteLength buf.
Proof.
  intros Hi Hn <- Hlen. unfold bytes_at in Hlen.
  rewrite length_map, length_firstn, length_skipn in Hlen.
  unfold byteLength. lia.
Qed.

Lemma matchAt_complete (buf : buffer) (searchBytes : list Z) :
  forall i j, 0 <= i + j ->
    map byte_val (firstn (List.length searchBytes) (skipn (Z.to_nat (i + j)) buf))
    = searchBytes ->
    matchAt buf i j searchBytes = true.
Proof.
  induction searchBytes as [|s rest IH]; intros i j Hij H; [reflexivity|].
  cbn [matchAt]. unfold byteAt.
  destruct (Z.ltb_spec (i + j) 0); [lia|].
  destruct (nth_error buf (Z.to_nat (i + j))) as [b|] eqn:E.
  - rewrite (nth_error_skipn _ _ _ E) in H. cbn [List.length firstn map] in H.
    injection H as Hb Hrest. cbn [option_map]. rewrite Hb, Z.eqb_refl.
    apply IH; [lia|].
    replace (Z.to_nat (i + (j + 1))) with (S (Z.to_nat (i + j))) by lia.
    exact Hrest.
  - apply nth_error_None in E. rewrite skipn_all2 in H by exact E.
    cbn in H. discriminate.
Qed.

Lemma matchAt_occurs (buf : buffer) (searchBytes : list Z) (i : Z) :
  0 <= i -> searchBytes <> [] ->
  (matchAt buf i 0 searchBytes = true <-> occurs_at buf searchBytes i).
Proof.
  intros Hi Hne.
  assert (0 < Z.of_nat (List.length searchBytes))
    by (destruct searchBytes; [contradiction | cbn [List.length]; lia]).
  split.
  - intro Hm.
    assert (Hb : bytes_at buf i (Z.of_nat (List.length searchBytes)) = searchBytes).
    { unfold bytes_at. rewrite Nat2Z.id. replace i with (i + 0) at 1 by lia.
      apply matchAt_bytes; [lia | exact Hm]. }
    split; [exact Hi|]. split; [|exact Hb].
    eapply bytes_at_length; [exact Hi | lia | exact Hb | reflexivity].
  - intros (_ & _ & Hb). unfold bytes_at in Hb. rewrite Nat2Z.id in Hb.
    apply matchAt_complete; [lia|]. replace (i + 0) with i by lia. exact Hb.
Qed.

Section ScanComplete.

Variable buf : buffer.
Variable sections : list SectionMetadata.
Variable searchBytes : list Z.
Variable mv : jsstring.
Hypothesis pattern_not_empty : searchBytes <> [].

(** The scan only appends. *)
Lemma scanLoop_extends (n : nat) :
  forall (i : Z) (results : list SearchResult),
    exists added, scanLoop buf sections searchBytes mv n i results = results ++ added.
Proof.
  induction n as [|n IH]; intros i results; cbn [scanLoop].
  - exists []. now rewrite app_nil_r.
  - destruct (matchAt buf i 0 searchBytes).
    + destruct (RESULT_LIMIT <=? _)%nat.
      * eexists. reflexivity.
      * destruct (IH (i + 1) (results ++ [mkResult i (Z.of_nat (List.length searchBytes))
                                            (offsetToRva i sections) mv])) as (added & ->).
        eexists. rewrite <- app_assoc. reflexivity.
    + apply IH.
Qed.

(** A matching position that the scan passes is reported, unless the limit
    stopped the scan before it. *)
Lemma scanLoop_complete (n : nat) :
  forall (i : Z) (results : list SearchResult),
    (List.length results < RESULT_LIMIT)%nat ->
    Forall (fun r => res_offset r < i) results ->
    forall k, i <= k < i + Z.of_nat n ->
      matchAt buf k 0 searchBytes = true ->
      let out := scanLoop buf sections searchBytes mv n i results in
      (exists r, In r out /\ res_offset r = k)
      \/ (List.length out = RESULT_LIMIT /\ Forall (fun r => res_offset r < k) out).
Proof.
  induction n as [|n IH]; intros i results Hlen Hlt k Hk Hm; cbv zeta; cbn [scanLoop].
  - lia.
  - destruct (matchAt buf i 0 searchBytes) eqn:E.
    + set (hit := mkResult i (Z.of_nat (List.length searchBytes))
                           (offsetToRva i sections) mv).
      assert (Hlen' : List.length (results ++ [hit]) = S (List.length results))
        by (rewrite length_app; cbn; lia).
      destruct (Nat.leb_spec RESULT_LIMIT (List.length (results ++ [hit]))).
      * destruct (Z.eq_dec k i) as [->|Hne].
        -- left. exists hit. split; [apply in_or_app; right; now left | reflexivity].
        -- right. split; [lia|]. apply Forall_app. split.
           ++ eapply Forall_impl; [|exact Hlt]. cbn. intros; lia.
           ++ constructor; [cbn; lia | constructor].
      * destruct (Z.eq_dec k i) as [->|Hne].
        -- left. exists hit. split; [|reflexivity].
           destruct (scanLoop_extends n (i + 1) (results ++ [hit])) as (added & ->).
           apply in_or_app. left. apply in_or_app. right. now left.
        -- apply IH; [lia | | lia | exact Hm].
           apply Forall_app. split.
           ++ eapply Forall_impl; [|exact Hlt]. cbn. intros; lia.
           ++ constructor; [cbn; lia | constructor].
    + assert (k <> i) by congruence.
      apply IH; [exact Hlen | | lia | exact Hm].
      eapply Forall_impl; [|exact Hlt]. cbn. intros; lia.
Qed.

Lemma slidingScan_complete (k : Z) :
  occurs_at buf searchBytes k ->
  let out := slidingScan buf sections searchBytes mv in
  (exists r, In r out /\ res_offset r = k)
  \/ (List.length out = RESULT_LIMIT /\ Forall (fun r => res_offset r < k) out).
Proof.
  intros Hocc. pose proof Hocc as (Hk & Hend & _).
  unfold slidingScan. cbv zeta. apply scanLoop_complete.
  - unfold RESULT_LIMIT. cbn. lia.
  - constructor.
  - lia.
  - apply matchAt_occurs; assumption.
Qed.

End ScanComplete.

(** A literal search hands its pattern to the sliding scan. *)
Lemma searchPE_literal (regex_valid : jsstring -> bool)
    (regex_exec : jsstring -> jsstring -> Z -> option (Z * Z))
    (file : ParsedFile) (query : jsstring) (mode : SearchMode)
    (results : list SearchResult) :
  query <> [] ->
  searchPE regex_valid regex_exec file query mode false = Ok results ->
  literalBytes mode query <> []
  /\ exists mv,
      results = slidingScan (data file) (sectionsMetadata file) (literalBytes mode query) mv.
Proof.
  intros Hq H. unfold searchPE in H. destruct query as [|c q]; [contradiction|].
  destruct mode; cbn [literalBytes].
  - destruct (_ || _) eqn:E; [discriminate|]. injection H as <-.
    split; [|eexists; reflexivity].
    apply orb_false_iff in E. destruct E as [Hlen Hhex].
    apply negb_false_iff in Hlen, Hhex. apply Z.eqb_eq in Hlen.
    destruct (strip0x (stripWhiteSpace (c :: q))) as [|c1 [|c2 rest]];
      [discriminate Hhex | cbn in Hlen; discriminate Hlen | cbn [hexPairs]; discriminate].
  - injection H as <-. split; [discriminate | eexists; reflexivity].
  - injection H as <-. split; [discriminate | eexists; reflexivity].
Qed.

(** A search without regex, in any of the three modes, reports exactly
    the offsets where the searched bytes stand in the file: every result is an
    occurrence of the pattern and has its length, and every occurrence is
    reported, unless 2000 results were found before it. *)
Theorem literal_search_exact (regex_valid : jsstring -> bool)
    (regex_exec : jsstring -> jsstring -> Z -> option (Z * Z))
    (file : ParsedFile) (query : jsstring) (mode : SearchMode)
    (results : list SearchResult) :
  query <> [] ->
  searchPE regex_valid regex_exec file query mode false = Ok results ->
  let pattern := literalBytes mode query in
  (forall r, In r results ->
     occurs_at (data file) pattern (res_offset r)
     /\ res_size r = Z.of_nat (List.length pattern))
  /\ (forall i, occurs_at (data file) pattern i ->
        (exists r, In r results /\ res_offset r = i)
        \/ (List.length results = 2000%nat
            /\ Forall (fun r => res_offset r < i) results)).
Proof.
  intros Hq H pattern.
  destruct (searchPE_literal _ _ _ _ _ _ Hq H) as (Hne & mv & ->).
  fold pattern in Hne.
  assert (0 < Z.of_nat (List.length pattern))
    by (destruct pattern; [contradiction | cbn [List.length]; lia]).
  split.
  - intros r Hin. apply slidingScan_matches in Hin.
    destruct Hin as (Hoff & Hsz & Hb & _). rewrite Hsz in Hb. split; [|exact Hsz].
    split; [exact Hoff|]. split; [|exact Hb].
    eapply bytes_at_length; [exact Hoff | lia | exact Hb | reflexivity].
  - intros i Hocc. apply slidingScan_complete; [exact Hne | exact Hocc].
Qed.

Lemma literal_search_exact_witness :
  let file := fileOf (bytes [0x4D; 0x5A; 0x90; 0x4D; 0x5A]) [] in
  exists results,
    searchPE (fun _ => true) exec_never file [52; 68; 32; 53; 65] ModeHex false = Ok results
    /\ (forall r, In r results ->
          occurs_at (data file) [0x4D; 0x5A] (res_offset r)
          /\ res_size r = 2)
    /\ (forall i, occurs_at (data file) [0x4D; 0x5A] i ->
          (exists r, In r results /\ res_offset r = i)
          \/ (List.length results = 2000%nat
              /\ Forall (fun r => res_offset r < i) results)).
Proof.
  eexists. split; [reflexivity|].
  apply (literal_search_exact (fun _ => true) exec_never
           (fileOf (bytes [0x4D; 0x5A; 0x90; 0x4D; 0x5A]) [])
           [52; 68; 32; 53; 65] ModeHex); [discriminate | reflexivity].
Defined.

(** ** Copy as "Hex String", and the hex search of the copied text *)

(** A check on every byte value is a check on the 256 of them. *)
Lemma byte_forall (p : Z -> bool) :
  forallb p (map Z.of_nat (seq 0 256)) = true ->
  forall b, 0 <= b < 256 -> p b = true.
Proof.
  intros H b Hb. rewrite forallb_forall in H. apply H.
  apply in_map_iff. exists (Z.to_nat b). split; [lia | apply in_seq; lia].
Qed.

Lemma hexByte_pair (b : Z) :
  0 <= b < 256 ->
  exists c1 c2,
    hexByte b = [c1; c2]
    /\ is_upper_hex c1 = true /\ is_upper_hex c2 = true
    /\ 16 * hexVal c1 + hexVal c2 = b.
Proof.
  intro Hb.
  pose (p := fun b => match hexByte b with
                      | [c1; c2] => is_upper_hex c1 && is_upper_hex c2
                                    && (16 * hexVal c1 + hexVal c2 =? b)
                      | _ => false
                      end).
  assert (Hp : p b = true) by (apply byte_forall; [vm_compute; reflexivity | exact Hb]).
  unfold p in Hp. destruct (hexByte b) as [|c1 [|c2 [|]]]; try discriminate.
  apply andb_true_iff in Hp. destruct Hp as [Hp H3].
  apply andb_true_iff in Hp. destruct Hp as [H1 H2].
  exists c1, c2. repeat split; [exact H1 | exact H2 | now apply Z.eqb_eq].
Qed.

Lemma is_upper_hex_cases (c : Z) :
  is_upper_hex c = true -> 48 <= c <= 57 \/ 65 <= c <= 70.
Proof. unfold is_upper_hex. lia. Qed.

Lemma upper_hex_not_space (c : Z) : is_upper_hex c = true -> isWhiteSpace c = false.
Proof. intro H. apply is_upper_hex_cases in H. unfold isWhiteSpace. lia. Qed.

Lemma upper_hex_digit (c : Z) :
  is_upper_hex c = true -> exists v, hexDigit c = Some v.
Proof.
  intro H. apply is_upper_hex_cases in H. unfold hexDigit.
  destruct ((48 <=? c) && (c <=? 57)) eqn:E1; [eauto|].
  destruct ((65 <=? c) && (c <=? 70)) eqn:E2; [eauto|]. lia.
Qed.

(** The digits of the bytes, without the separators. *)
Lemma hexDigits_of_bytes (arr : list Z) :
  Forall (fun b => 0 <= b < 256) arr ->
  let digits := List.concat (map hexByte arr) in
  Forall (fun c => is_upper_hex c = true) digits
  /\ List.length digits = (2 * List.length arr)%nat
  /\ hexPairs digits = arr.
Proof.
  induction 1 as [|b arr Hb _ IH]; cbv zeta; cbn [map List.concat List.length].
  - repeat split. constructor.
  - destruct (hexByte_pair b Hb) as (c1 & c2 & -> & H1 & H2 & Hv).
    destruct IH as (IH1 & IH2 & IH3). cbn [app hexPairs List.length]. repeat split.
    + constructor; [exact H1|]. constructor; [exact H2 | exact IH1].
    + rewrite IH2. lia.
    + rewrite IH3, Hv. reflexivity.
Qed.

Lemma stripWhiteSpace_app (a b : jsstring) :
  stripWhiteSpace (a ++ b) = stripWhiteSpace a ++ stripWhiteSpace b.
Proof. apply filter_app. Qed.

Lemma stripWhiteSpace_hex (l : jsstring) :
  Forall (fun c => is_upper_hex c = true) l -> stripWhiteSpace l = l.
Proof.
  induction 1 as [|c l Hc _ IH]; [reflexivity|].
  unfold stripWhiteSpace in *. cbn [filter].
  rewrite (upper_hex_not_space c Hc). cbn [negb]. now rewrite IH.
Qed.

(** Stripping the white space of the copied text leaves the digits. *)
Lemma stripWhiteSpace_copyHex (arr : list Z) :
  Forall (fun b => 0 <= b < 256) arr ->
  stripWhiteSpace (join (js " ") (map hexByte arr)) = List.concat (map hexByte arr).
Proof.
  induction 1 as [|b arr Hb Harr IH]; [reflexivity|].
  assert (Hd : stripWhiteSpace (hexByte b) = hexByte b).
  { destruct (hexByte_pair b Hb) as (c1 & c2 & -> & H1 & H2 & _).
    apply stripWhiteSpace_hex. repeat constructor; assumption. }
  cbn [map join List.concat]. destruct arr as [|b' arr'].
  - cbn [map List.concat]. now rewrite app_nil_r.
  - change (map hexByte (b' :: arr')) with (hexByte b' :: map hexByte arr') in *.
    cbv iota. rewrite !stripWhiteSpace_app, Hd, IH. reflexivity.
Qed.

Lemma strip0x_hex (l : jsstring) :
  Forall (fun c => is_upper_hex c = true) l -> strip0x l = l.
Proof.
  induction 1 as [|c1 l H1 Hl IH]; [reflexivity|].
  destruct l as [|c2 rest]; [reflexivity|].
  cbn [strip0x]. inversion Hl as [|? ? H2 _]; subst.
  apply is_upper_hex_cases in H2.
  destruct ((c1 =? 48) && ((c2 =? 120) || (c2 =? 88))) eqn:E; [lia|].
  f_equal. exact IH.
Qed.

Lemma isHexString_hex (l : jsstring) :
  l <> [] -> Forall (fun c => is_upper_hex c = true) l -> isHexString l = true.
Proof.
  intros Hne Hall. destruct l as [|c l]; [contradiction|].
  unfold isHexString. apply forallb_forall. intros x Hx.
  rewrite Forall_forall in Hall.
  destruct (upper_hex_digit x (Hall x Hx)) as (v & ->). reflexivity.
Qed.

(** The hex mode accepts the text that "Hex String" copies, and searches
    for the copied bytes. *)
Lemma searchPE_copyHex (regex_valid : jsstring -> bool)
    (regex_exec : jsstring -> jsstring -> Z -> option (Z * Z))
    (f : ParsedFile) (arr : list Z) :
  arr <> [] -> Forall (fun b => 0 <= b < 256) arr ->
  exists mv,
    searchPE regex_valid regex_exec f (join (js " ") (map hexByte arr)) ModeHex false
    = Ok (slidingScan (data f) (sectionsMetadata f) arr mv).
Proof.
  intros Hne Hall.
  destruct (hexDigits_of_bytes arr Hall) as (Hhex & Hlen & Hpairs).
  assert (Hclean : strip0x (stripWhiteSpace (join (js " ") (map hexByte arr)))
                   = List.concat (map hexByte arr)).
  { rewrite stripWhiteSpace_copyHex by exact Hall. now apply strip0x_hex. }
  assert (Hq : join (js " ") (map hexByte arr) <> []).
  { intro E. rewrite E in Hclean. cbn in Hclean.
    destruct arr as [|b arr]; [contradiction|].
    inversion Hall as [|? ? Hb _]; subst.
    destruct (hexByte_pair b Hb) as (c1 & c2 & Hbb & _).
    cbn [map List.concat] in Hclean. rewrite Hbb in Hclean. discriminate. }
  unfold searchPE. destruct (join (js " ") (map hexByte arr)) as [|c q] eqn:Etext;
    [contradiction|].
  rewrite Hclean, Hlen, Hpairs.
  replace (Z.of_nat (2 * List.length arr) mod 2 =? 0) with true
    by (symmetry; apply Z.eqb_eq; rewrite Nat2Z.inj_mul, Z.mul_comm; apply Z.mod_mul; lia).
  rewrite isHexString_hex; [eexists; reflexivity | | exact Hhex].
  destruct arr as [|b arr]; [contradiction|].
  inversion Hall as [|? ? Hb _]; subst.
  destruct (hexByte_pair b Hb) as (c1 & c2 & Hbb & _).
  cbn [map List.concat]. rewrite Hbb. discriminate.
Qed.

(** The bytes of a range that lies inside the buffer. *)
Lemma slice_inside (buf : buffer) (off sz : Z) :
  0 <= off -> 0 <= sz -> off + sz <= byteLength buf ->
  slice buf off (off + sz) = firstn (Z.to_nat sz) (skipn (Z.to_nat off) buf).
Proof.
  intros Hoff Hsz Hend. unfold slice. cbv zeta.
  destruct (Z.ltb_spec off 0); [lia|]. destruct (Z.ltb_spec (off + sz) 0); [lia|].
  rewrite !Z.min_l by lia. do 2 f_equal; lia.
Qed.

Lemma slice_inside_length (buf : buffer) (off sz : Z) :
  0 <= off -> 0 <= sz -> off + sz <= byteLength buf ->
  Z.of_nat (List.length (slice buf off (off + sz))) = sz.
Proof.
  intros Hoff Hsz Hend. rewrite slice_inside by assumption.
  rewrite length_firstn, length_skipn. unfold byteLength in Hend. lia.
Qed.

Lemma byte_vals_range (l : list byte) : Forall (fun b => 0 <= b < 256) (map byte_val l).
Proof.
  induction l as [|b l IH]; constructor; [apply byte_val_range | exact IH].
Qed.

(** What [getSelectedBytes] returns for a selection inside the file. *)
Lemma getSelectedBytes_inside (s : FileSession) (sel : Selection) :
  file_size (file s) = byteLength (data (file s)) ->
  selection s = Some sel ->
  0 <= sel_offset sel -> 0 <= sel_size sel ->
  sel_offset sel + sel_size sel <= file_size (file s) ->
  getSelectedBytes (Some s)
  = Some (bytes_at (data (file s)) (sel_offset sel) (sel_size sel)).
Proof.
  intros Hsize Hsel Hoff Hsz Hend. unfold getSelectedBytes. rewrite Hsel. cbv zeta.
  destruct (Z.ltb_spec (file_size (file s)) (sel_offset sel + sel_size sel)); [lia|].
  rewrite slice_inside by lia. reflexivity.
Qed.

Lemma bytes_at_inside_length (buf : buffer) (off sz : Z) :
  0 <= off -> 0 <= sz -> off + sz <= byteLength buf ->
  Z.of_nat (List.length (bytes_at buf off sz)) = sz.
Proof.
  intros Hoff Hsz Hend. unfold bytes_at.
  rewrite length_map, length_firstn, length_skipn. unfold byteLength in Hend. lia.
Qed.

(** The text that "Hex String" copies for a selection of at least one byte
    that lies inside the file is a valid query of the hex search, and the
    search of that text finds the selection: a result starts at the offset of
    the selection and has its size, unless 2000 results stand before it. *)
Theorem copy_hex_search_roundtrip (btoa : jsstring -> jsstring)
    (regex_valid : jsstring -> bool)
    (regex_exec : jsstring -> jsstring -> Z -> option (Z * Z))
    (s : FileSession) (sel : Selection) :
  file_size (file s) = byteLength (data (file s)) ->
  selection s = Some sel ->
  0 <= sel_offset sel -> 0 < sel_size sel ->
  sel_offset sel + sel_size sel <= file_size (file s) ->
  exists text results,
    handleCopy btoa (Some s) CopyHex None = Some text
    /\ searchPE regex_valid regex_exec (file s) text ModeHex false = Ok results
    /\ ((exists r, In r results /\ res_offset r = sel_offset sel
                   /\ res_size r = sel_size sel)
        \/ (List.length results = 2000%nat
            /\ Forall (fun r => res_offset r < sel_offset sel) results)).
Proof.
  intros Hsize Hsel Hoff Hsz Hend.
  set (arr := bytes_at (data (file s)) (sel_offset sel) (sel_size sel)).
  assert (Hlen : Z.of_nat (List.length arr) = sel_size sel)
    by (apply bytes_at_inside_length; lia).
  assert (Hne : arr <> []) by (intro E; rewrite E in Hlen; cbn in Hlen; lia).
  assert (Hrange : Forall (fun b => 0 <= b < 256) arr) by apply byte_vals_range.
  destruct (searchPE_copyHex regex_valid regex_exec (file s) arr Hne Hrange) as (mv & Hs).
  exists (join (js " ") (map hexByte arr)). eexists. split; [|split; [exact Hs|]].
  - unfold handleCopy. cbv zeta.
    rewrite (getSelectedBytes_inside s sel) by (assumption || lia). reflexivity.
  - assert (Hocc : occurs_at (data (file s)) arr (sel_offset sel)).
    { split; [exact Hoff|]. split; [lia|]. rewrite Hlen. reflexivity. }
    destruct (slidingScan_complete (data (file s)) (sectionsMetadata (file s)) arr mv
                Hne (sel_offset sel) Hocc) as [(r & Hin & Hr) | Hfull].
    + left. exists r. repeat split; [exact Hin | exact Hr |].
      apply slidingScan_matches in Hin. destruct Hin as (_ & Hrs & _). lia.
    + right. exact Hfull.
Qed.

Lemma copy_hex_search_roundtrip_witness :
  let f := fileOf (bytes [0x4D; 0x5A; 0x90; 0x00; 0x03]) [] in
  let s := mkSession "a" f (Some (mkSelection 1 2 None)) 0 [] (-1) false in
  exists text results,
    handleCopy (fun x => x) (Some s) CopyHex None = Some text
    /\ searchPE (fun _ => true) exec_never f text ModeHex false = Ok results
    /\ ((exists r, In r results /\ res_offset r = 1 /\ res_size r = 2)
        \/ (List.length results = 2000%nat
            /\ Forall (fun r => res_offset r < 1) results)).
Proof.
  apply (copy_hex_search_roundtrip (fun x => x) (fun _ => true) exec_never
           (mkSession "a" (fileOf (bytes [0x4D; 0x5A; 0x90; 0x00; 0x03]) [])
                      (Some (mkSelection 1 2 None)) 0 [] (-1) false)
           (mkSelection 1 2 None));
    cbn; (reflexivity || lia).
Defined.

Example copy_hex_text :
  handleCopy (fun x => x)
    (Some (mkSession "a" (fileOf (bytes [0x4D; 0x5A; 0x90; 0x00; 0x03]) [])
                     (Some (mkSelection 1 2 None)) 0 [] (-1) false))
    CopyHex None
  = Some (js "5A 90").
Proof. reflexivity. Qed.

(** ** The copy formats keep the bytes apart *)

Lemma app_same_length {A : Type} (x y t1 t2 : list A) :
  List.length x = List.length y -> x ++ t1 = y ++ t2 -> x = y /\ t1 = t2.
Proof.
  revert y. induction x as [|a x IH]; intros [|b y] Hlen H; cbn in *; try discriminate.
  - now split.
  - injection H as -> H. destruct (IH y) as [-> ->]; [lia | exact H | now split].
Qed.

(** Elements of one width can be read back from their [join]. *)
Lemma join_fixed_width (k : nat) (sep : jsstring) (l1 l2 : list jsstring) :
  (0 < k)%nat ->
  Forall (fun x => List.length x = k) l1 -> Forall (fun x => List.length x = k) l2 ->
  join sep l1 = join sep l2 -> l1 = l2.
Proof.
  intros Hk H1. revert l2.
  induction H1 as [|x r1 Hx Hr1 IH]; intros l2 H2 H.
  - destruct l2 as [|y r2]; [reflexivity|]. exfalso.
    inversion H2 as [|? ? Hy _]; subst. cbn [join] in H.
    destruct r2; [|apply (f_equal (@List.length Z)) in H; rewrite length_app in H];
      destruct y; cbn in *; try discriminate; lia.
  - destruct l2 as [|y r2].
    + exfalso. cbn [join] in H.
      destruct r1; [|apply (f_equal (@List.length Z)) in H; rewrite length_app in H];
        destruct x; cbn in *; try discriminate; lia.
    + inversion H2 as [|? ? Hy Hr2]; subst.
      assert (Hj : forall z r, join sep (z :: r)
                   = z ++ match r with [] => [] | _ => sep ++ join sep r end).
      { intros z [|? ?]; cbn [join]; [now rewrite app_nil_r | reflexivity]. }
      rewrite !Hj in H. apply app_same_length in H; [|congruence].
      destruct H as [-> Ht]. f_equal.
      destruct r1 as [|x1 r1'], r2 as [|y1 r2'].
      * reflexivity.
      * exfalso. apply (f_equal (@List.length Z)) in Ht.
        rewrite length_app, Hj, length_app in Ht.
        inversion Hr2; subst. cbn in Ht. lia.
      * exfalso. apply (f_equal (@List.length Z)) in Ht.
        rewrite length_app, Hj, length_app in Ht.
        inversion Hr1; subst. cbn in Ht. lia.
      * apply app_inv_head in Ht. apply IH; assumption.
Qed.

Lemma map_injective_on {A B : Type} (P : A -> Prop) (f : A -> B) (l1 l2 : list A) :
  (forall a b, P a -> P b -> f a = f b -> a = b) ->
  Forall P l1 -> Forall P l2 -> map f l1 = map f l2 -> l1 = l2.
Proof.
  intros Hinj H1. revert l2. induction H1 as [|a l1 Ha _ IH]; intros [|b l2] H2 H;
    cbn in H; try discriminate; [reflexivity|].
  injection H as Hab Hl. inversion H2; subst. f_equal; [now apply Hinj | now apply IH].
Qed.

(** A function on bytes with a left inverse is injective on bytes. *)
Lemma byte_injective {B : Type} (f : Z -> B) (g : B -> Z) :
  (forall b, 0 <= b < 256 -> g (f b) = b) ->
  forall a b, 0 <= a < 256 -> 0 <= b < 256 -> f a = f b -> a = b.
Proof. intros Hg a b Ha Hb H. rewrite <- (Hg a Ha), <- (Hg b Hb), H. reflexivity. Qed.

Lemma hexByte_injective (a b : Z) :
  0 <= a < 256 -> 0 <= b < 256 -> hexByte a = hexByte b -> a = b.
Proof.
  intros Ha Hb H.
  destruct (hexByte_pair a Ha) as (a1 & a2 & Ea & _ & _ & Hva).
  destruct (hexByte_pair b Hb) as (b1 & b2 & Eb & _ & _ & Hvb).
  rewrite Ea, Eb in H. injection H as -> ->. lia.
Qed.

Lemma hexByte_length (b : Z) : 0 <= b < 256 -> List.length (hexByte b) = 2%nat.
Proof. intro Hb. destruct (hexByte_pair b Hb) as (c1 & c2 & -> & _). reflexivity. Qed.

(** The eight binary digits of a byte, and the value they spell. *)
Lemma binaryByte_spec (b : Z) :
  0 <= b < 256 ->
  List.length (padStart 8 48 (toStringRadix 2 b)) = 8%nat
  /\ fold_left (fun acc c => 2 * acc + (c - 48)) (padStart 8 48 (toStringRadix 2 b)) 0 = b.
Proof.
  intro Hb.
  pose (p := fun b =>
    (List.length (padStart 8 48 (toStringRadix 2 b)) =? 8)%nat
    && (fold_left (fun acc c => 2 * acc + (c - 48)) (padStart 8 48 (toStringRadix 2 b)) 0
        =? b)).
  assert (Hp : p b = true) by (apply byte_forall; [vm_compute; reflexivity | exact Hb]).
  unfold p in Hp. apply andb_true_iff in Hp. destruct Hp as [H1 H2].
  split; [now apply Nat.eqb_eq | now apply Z.eqb_eq].
Qed.

(** The element of a Python literal: one code unit that is not a backslash,
    or a backslash, [x] and two digits that spell the byte. *)
Lemma pythonByte_spec (b : Z) :
  0 <= b < 256 ->
  (pythonByte b = [b] /\ b <> 92)
  \/ (exists c1 c2, pythonByte b = [92; 120; c1; c2] /\ 16 * hexVal c1 + hexVal c2 = b).
Proof.
  intro Hb.
  pose (p := fun b => match pythonByte b with
                      | [c] => (c =? b) && negb (b =? 92)
                      | [c0; cx; c1; c2] =>
                          (c0 =? 92) && (cx =? 120) && (16 * hexVal c1 + hexVal c2 =? b)
                      | _ => false
                      end).
  assert (Hp : p b = true) by (apply byte_forall; [vm_compute; reflexivity | exact Hb]).
  unfold p in Hp. destruct (pythonByte b) as [|c0 [|cx [|c1 [|c2 [|]]]]]; try discriminate.
  - left. apply andb_true_iff in Hp. destruct Hp as [H1 H2].
    apply Z.eqb_eq in H1. apply negb_true_iff in H2. apply Z.eqb_neq in H2.
    subst. now split.
  - right. apply andb_true_iff in Hp. destruct Hp as [Hp H3].
    apply andb_true_iff in Hp. destruct Hp as [H1 H2].
    apply Z.eqb_eq in H1, H2, H3. subst. eauto.
Qed.

Lemma join_nil (l : list jsstring) : join [] l = List.concat l.
Proof.
  induction l as [|x l IH]; [reflexivity|]. cbn [join List.concat]. rewrite <- IH.
  destruct l; [cbn [join]; now rewrite app_nil_r | reflexivity].
Qed.

Lemma python_concat_injective (l1 l2 : list Z) :
  Forall (fun b => 0 <= b < 256) l1 -> Forall (fun b => 0 <= b < 256) l2 ->
  forall t1 t2,
    (forall c r, t1 = c :: r -> c = 39) -> (forall c r, t2 = c :: r -> c = 39) ->
    List.concat (map pythonByte l1) ++ t1 = List.concat (map pythonByte l2) ++ t2 ->
    l1 = l2.
Proof.
  intros H1. revert l2. induction H1 as [|a l1 Ha _ IH]; intros l2 H2 t1 t2 Ht1 Ht2 H.
  - destruct l2 as [|b l2]; [reflexivity|]. exfalso.
    inversion H2 as [|? ? Hb _]; subst. cbn [map List.concat app] in H.
    destruct (pythonByte_spec b Hb) as [[E Hne] | (c1 & c2 & E & _)]; rewrite E in H;
      cbn [app] in H.
    + pose proof (Ht1 b _ H) as Hq. subst b.
      unfold pythonByte in E. cbn in E. discriminate E.
    + pose proof (Ht1 92 _ H). discriminate.
  - destruct l2 as [|b l2].
    + exfalso. cbn [map List.concat app] in H.
      destruct (pythonByte_spec a Ha) as [[E Hne] | (c1 & c2 & E & _)]; rewrite E in H;
        cbn [app] in H; symmetry in H.
      * pose proof (Ht2 a _ H) as Hq. subst a.
        unfold pythonByte in E. cbn in E. discriminate E.
      * pose proof (Ht2 92 _ H). discriminate.
    + inversion H2 as [|? ? Hb Hl2]; subst. cbn [map List.concat] in H.
      rewrite <- !app_assoc in H.
      destruct (pythonByte_spec a Ha) as [[Ea Hna] | (a1 & a2 & Ea & Hva)];
        destruct (pythonByte_spec b Hb) as [[Eb Hnb] | (b1 & b2 & Eb & Hvb)];
        rewrite Ea, Eb in H; cbn [app] in H.
      * injection H as -> H. f_equal. exact (IH l2 Hl2 t1 t2 Ht1 Ht2 H).
      * injection H as -> _. contradiction.
      * injection H as Hx _. symmetry in Hx. contradiction.
      * injection H as -> -> H. f_equal; [lia|]. exact (IH l2 Hl2 t1 t2 Ht1 Ht2 H).
Qed.

(** The text of every format the application writes itself determines the
    bytes. *)
Lemma copyText_injective (btoa : jsstring -> jsstring) (mode : CopyMode)
    (arr1 arr2 : list Z) :
  mode <> CopyBase64 ->
  Forall (fun b => 0 <= b < 256) arr1 -> Forall (fun b => 0 <= b < 256) arr2 ->
  copyText btoa mode arr1 = copyText btoa mode arr2 -> arr1 = arr2.
Proof.
  intros Hmode H1 H2 H.
  assert (Hhex : forall l, Forall (fun b => 0 <= b < 256) l ->
                   Forall (fun x => List.length x = 2%nat) (map hexByte l)).
  { intros l Hl. apply Forall_map. eapply Forall_impl; [|exact Hl].
    intros b Hb. now apply hexByte_length. }
  assert (H0x : forall l, Forall (fun b => 0 <= b < 256) l ->
                  Forall (fun x => List.length x = 4%nat)
                         (map (fun b => js "0x" ++ hexByte b) l)).
  { intros l Hl. apply Forall_map. eapply Forall_impl; [|exact Hl].
    intros b Hb. cbn beta. rewrite length_app, hexByte_length by exact Hb. reflexivity. }
  assert (Hinj0x : forall a b, 0 <= a < 256 -> 0 <= b < 256 ->
                     js "0x" ++ hexByte a = js "0x" ++ hexByte b -> a = b).
  { intros a b Ha Hb E. apply app_inv_head in E. now apply hexByte_injective. }
  destruct mode; cbn [copyText] in H.
  - apply (join_fixed_width 2) in H; [|lia|now apply Hhex..].
    eapply map_injective_on; [exact hexByte_injective | eassumption..].
  - apply (join_fixed_width 4) in H; [|lia|now apply H0x..].
    eapply map_injective_on; [exact Hinj0x | eassumption..].
  - apply app_inv_head in H. apply app_inv_tail in H.
    apply (join_fixed_width 4) in H; [|lia|now apply H0x..].
    eapply map_injective_on; [exact Hinj0x | eassumption..].
  - apply app_inv_head in H. rewrite !join_nil in H.
    eapply python_concat_injective; [exact H1 | exact H2 | | | exact H];
      intros c r E; injection E as <- _; reflexivity.
  - apply (join_fixed_width 8) in H; [|lia|..].
    + eapply map_injective_on; [|exact H1 | exact H2 | exact H].
      intros a b Ha Hb E.
      pose proof (proj2 (binaryByte_spec a Ha)) as Da.
      pose proof (proj2 (binaryByte_spec b Hb)) as Db.
      rewrite E in Da. congruence.
    + apply Forall_map. eapply Forall_impl; [|exact H1].
      intros b Hb. exact (proj1 (binaryByte_spec b Hb)).
    + apply Forall_map. eapply Forall_impl; [|exact H2].
      intros b Hb. exact (proj1 (binaryByte_spec b Hb)).
  - contradiction.
Qed.

Lemma getSelectedBytes_range (o : option FileSession) (arr : list Z) :
  getSelectedBytes o = Some arr -> Forall (fun b => 0 <= b < 256) arr.
Proof.
  unfold getSelectedBytes. destruct o as [s|]; [|discriminate].
  destruct (selection s) as [sel|]; [|discriminate]. cbv zeta.
  destruct (_ <? _); [discriminate|]. intro H. injection H as <-. apply byte_vals_range.
Qed.

(** When two copies in one of the formats "Hex String", "0x Array",
    "C Array", "Python Bytes" or "Binary" put the same text on the clipboard,
    the selected bytes were the same: none of these formats loses a byte. *)
Theorem copy_text_determines_bytes (btoa : jsstring -> jsstring) (mode : CopyMode)
    (s1 s2 : FileSession) (copyMode : CopyMode) (text : jsstring) :
  mode <> CopyBase64 ->
  handleCopy btoa (Some s1) copyMode (Some mode) = Some text ->
  handleCopy btoa (Some s2) copyMode (Some mode) = Some text ->
  getSelectedBytes (Some s1) = getSelectedBytes (Some s2).
Proof.
  intros Hmode E1 E2. unfold handleCopy in E1, E2. cbv zeta in E1, E2. cbn [orElse] in E1, E2.
  destruct (getSelectedBytes (Some s1)) as [arr1|] eqn:G1; [|discriminate].
  destruct (getSelectedBytes (Some s2)) as [arr2|] eqn:G2; [|discriminate].
  injection E1 as E1. injection E2 as E2. f_equal.
  apply (copyText_injective btoa mode); [exact Hmode | | | congruence].
  - eapply getSelectedBytes_range; exact G1.
  - eapply getSelectedBytes_range; exact G2.
Qed.

Lemma copy_text_determines_bytes_witness :
  let f1 := fileOf (bytes [0x27; 0x5C; 0x41; 0x00]) [] in
  let f2 := fileOf (bytes [0xFF; 0x27; 0x5C; 0x41; 0x00; 0x07]) [] in
  let s1 := mkSession "a" f1 (Some (mkSelection 0 4 None)) 0 [] (-1) false in
  let s2 := mkSession "b" f2 (Some (mkSelection 1 4 None)) 16 [] (-1) true in
  handleCopy (fun x => x) (Some s1) CopyHex (Some CopyPython) = Some (js "b'\x27\x5cA\x00'")
  /\ getSelectedBytes (Some s1) = getSelectedBytes (Some s2).
Proof.
  split; [reflexivity|].
  apply (copy_text_determines_bytes (fun x => x) CopyPython _ _ CopyHex
           (js "b'\x27\x5cA\x00'")); [discriminate | reflexivity | reflexivity].
Defined.

(** ** The sessions of the application *)

Lemma updateActiveSession_ids (rendered : AppState) (partial : PartialSession)
    (prev : AppState) :
  map session_id (sessions (updateActiveSession rendered partial prev))
  = map session_id (sessions prev)
  /\ activeSessionId (updateActiveSession rendered partial prev) = activeSessionId prev.
Proof.
  unfold updateActiveSession. destruct (activeSessionId rendered) as [a|]; [|now split].
  destruct (String.eqb a ""); [now split|]. cbn [withSessions sessions activeSessionId].
  split; [|reflexivity]. rewrite map_map. apply map_ext. intro s.
  destruct (isActive _ s); reflexivity.
Qed.


Lemma ids_Forall_nonempty (l l' : list FileSession) :
  map session_id l' = map session_id l ->
  Forall (fun s => session_id s <> EmptyString) l ->
  Forall (fun s => session_id s <> EmptyString) l'.
Proof.
  intros Hids Hall.
  rewrite <- (Forall_map session_id (fun i => i <> EmptyString)) in *.
  now rewrite Hids.
Qed.

(** An update of the active session keeps the sessions in place. *)
Lemma updateActiveSession_frame (rendered : AppState) (partial : PartialSession)
    (prev : AppState) :
  NoDup (map session_id (sessions prev))
  /\ Forall (fun s => session_id s <> EmptyString) (sessions prev)
  /\ active_ok prev ->
  let st' := updateActiveSession rendered partial prev in
  NoDup (map session_id (sessions st'))
  /\ Forall (fun s => session_id s <> EmptyString) (sessions st')
  /\ active_ok st'.
Proof.
  intros (Hnd & Hne & Hact) st'.
  destruct (updateActiveSession_ids rendered partial prev) as [Hids Haid].
  fold st' in Hids, Haid. split; [|split].
  - rewrite Hids. exact Hnd.
  - eapply ids_Forall_nonempty; [exact Hids | exact Hne].
  - unfold active_ok in *. rewrite Haid, Hids.
    destruct (activeSessionId prev) as [a|]; [exact Hact|].
    apply map_eq_nil with (f := session_id). rewrite Hids, Hact. reflexivity.
Qed.



Lemma activeSession_In (st : AppState) (s : FileSession) :
  activeSession st = Some s ->
  In s (sessions st) /\ isActive (activeSessionId st) s = true.
Proof. intro H. apply find_some in H. exact H. Qed.


(** What the guard of [updateActiveSession] reads is the rendered state
    alone: the update runs or it does not, whatever the state it runs on. *)
Lemma updateActiveSession_guard (rendered : AppState) :
  (forall partial prev, updateActiveSession rendered partial prev = prev)
  \/ (forall partial prev,
        updateActiveSession rendered partial prev
        = withSessions prev
            (map (fun s => if isActive (activeSessionId prev) s
                           then merge s partial else s)
                 (sessions prev))).
Proof.
  unfold updateActiveSession. destruct (activeSessionId rendered) as [a|]; [|now left].
  destruct (String.eqb a ""); [now left | now right].
Qed.

(** The results of a search, installed late or not, keep the invariant. *)
Lemma onResults_from_invariant (rendered : AppState) (results : list SearchResult)
    (st : AppState) :
  app_invariant st -> app_invariant (onResults_from rendered results st).
Proof.
  intro Hinv. pose proof Hinv as (Hnd & Hne & Hact & Hidx).
  unfold onResults_from. cbv zeta.
  set (p1 := mkPartial None None (Some results) _ None).
  set (st1 := updateActiveSession rendered p1 st).
  destruct (updateActiveSession_frame rendered p1 st) as (Hnd1 & Hne1 & Hact1);
    [repeat split; assumption|]. fold st1 in Hnd1, Hne1, Hact1.
  destruct (updateActiveSession_guard rendered) as [G | G].
  - assert (E1 : st1 = st) by apply G.
    destruct results; [|rewrite G]; rewrite E1; exact Hinv.
  - assert (H1 : Forall (fun s => search_index_ok s
                                  /\ (isActive (activeSessionId st1) s = true ->
                                      searchResults s = results))
                        (sessions st1)).
    { unfold st1. rewrite G. cbn [withSessions sessions activeSessionId].
      apply Forall_map. rewrite Forall_forall in *. intros s Hin.
      destruct (isActive (activeSessionId st) s) eqn:E.
      - split; [|reflexivity].
        unfold search_index_ok, merge, p1.
        cbn [searchResults currentSearchIndex p_searchResults p_currentSearchIndex orElse].
        destruct results; cbn; lia.
      - split; [now apply Hidx | congruence]. }
    destruct results as [|first rest].
    + split; [exact Hnd1|]. split; [exact Hne1|]. split; [exact Hact1|].
      eapply Forall_impl; [|exact H1]. now intros s [Hs _].
    + set (p2 := mkPartial None _ None (Some 0) None).
      destruct (updateActiveSession_frame rendered p2 st1) as (F2 & F3 & F4);
        [repeat split; assumption|].
      split; [exact F2|]. split; [exact F3|]. split; [exact F4|].
      rewrite G. cbn [withSessions sessions]. apply Forall_map.
      rewrite Forall_forall in *. intros s Hin. destruct (H1 s Hin) as [Hs Hres].
      destruct (isActive (activeSessionId st1) s) eqn:E; [|exact Hs].
      unfold search_index_ok, merge, p2.
      cbn [searchResults currentSearchIndex p_searchResults p_currentSearchIndex orElse].
      rewrite (Hres eq_refl). cbn [List.length]. lia.
Qed.

Lemma onResults_invariant (results : list SearchResult) (st : AppState) :
  app_invariant st -> app_invariant (onResults results st).
Proof. apply onResults_from_invariant. Qed.








(** ** Navigation between the search results *)

Lemma find_map_active (aid : option string) (f : FileSession -> FileSession)
    (l : list FileSession) :
  (forall s, session_id (f s) = session_id s) ->
  find (isActive aid) (map f l) = option_map f (find (isActive aid) l).
Proof.
  intro Hid. induction l as [|x l IH]; [reflexivity|]. cbn [map find].
  assert (E : isActive aid (f x) = isActive aid x)
    by (unfold isActive; now rewrite Hid).
  rewrite E. destruct (isActive aid x); [reflexivity | exact IH].
Qed.

(** The active session after an update is the active session, updated. *)
Lemma activeSession_update (st : AppState) (partial : PartialSession) (s : FileSession) :
  activeSession st = Some s -> session_id s <> EmptyString ->
  activeSession (updateActiveSession st partial st) = Some (merge s partial).
Proof.
  intros Ha Hne. destruct (activeSession_In st s Ha) as [_ Hact].
  unfold updateActiveSession, activeSession in *.
  destruct (activeSessionId st) as [a|] eqn:Eaid; [|discriminate Hact].
  cbn [isActive] in Hact. apply String.eqb_eq in Hact. subst a.
  destruct (String.eqb_spec (session_id s) ""); [contradiction|].
  cbn [withSessions sessions activeSessionId].
  rewrite find_map_active.
  - rewrite Eaid, Ha. cbn [option_map].
    apply find_some in Ha. destruct Ha as [_ Hs]. rewrite Hs. reflexivity.
  - intro x. destruct (isActive _ x); reflexivity.
Qed.

Lemma jumpToSearchResult_active (index : Z) (st : AppState) (s : FileSession)
    (res : SearchResult) :
  activeSession st = Some s -> session_id s <> EmptyString ->
  0 <= index < Z.of_nat (List.length (searchResults s)) ->
  nth_error (searchResults s) (Z.to_nat index) = Some res ->
  activeSession (jumpToSearchResult index st)
  = Some (mkSession (session_id s) (file s)
            (Some (mkSelection (res_offset res) (res_size res) None))
            (rowStart (res_offset res)) (searchResults s) index (isSearchOpen s)).
Proof.
  intros Ha Hne Hidx Hres. unfold jumpToSearchResult. rewrite Ha.
  replace ((0 <=? index) && (index <? Z.of_nat (List.length (searchResults s))))
    with true by (symmetry; apply andb_true_iff; split; [apply Z.leb_le | apply Z.ltb_lt]; lia).
  rewrite Hres. rewrite (activeSession_update st _ s Ha Hne). reflexivity.
Qed.

Lemma nth_error_in_range {A : Type} (l : list A) (i : Z) :
  0 <= i < Z.of_nat (List.length l) -> exists x, nth_error l (Z.to_nat i) = Some x.
Proof.
  intro Hi. destruct (nth_error l (Z.to_nat i)) as [x|] eqn:E; [eauto|].
  apply nth_error_None in E. lia.
Qed.

(** With search results at hand, [nextResult] moves the current result one
    further and from the last result back to the first: the index becomes
    [(i + 1) mod n], that result is selected and the view starts at its row.
    [prevResult] then undoes the move: the index is [i] again and result [i]
    is selected. *)
Theorem search_navigation_wraps (st : AppState) (s : FileSession) :
  app_invariant st ->
  activeSession st = Some s ->
  searchResults s <> [] ->
  let n := Z.of_nat (List.length (searchResults s)) in
  let i := currentSearchIndex s in
  let j := (i + 1) mod n in
  exists rj ri,
    nth_error (searchResults s) (Z.to_nat j) = Some rj
    /\ nth_error (searchResults s) (Z.to_nat i) = Some ri
    /\ activeSession (nextResult st)
       = Some (mkSession (session_id s) (file s)
                 (Some (mkSelection (res_offset rj) (res_size rj) None))
                 (rowStart (res_offset rj)) (searchResults s) j (isSearchOpen s))
    /\ activeSession (prevResult (nextResult st))
       = Some (mkSession (session_id s) (file s)
                 (Some (mkSelection (res_offset ri) (res_size ri) None))
                 (rowStart (res_offset ri)) (searchResults s) i (isSearchOpen s)).
Proof.
  intros (_ & Hne & _ & Hidx) Ha Hres n i j.
  destruct (activeSession_In st s Ha) as [Hin _].
  rewrite Forall_forall in Hne, Hidx.
  pose proof (Hne s Hin) as Hid. pose proof (Hidx s Hin) as Hi.
  assert (Hn : 0 < n)
    by (unfold n; destruct (searchResults s); [contradiction | cbn [List.length]; lia]).
  assert (Hi' : 0 <= i < n)
    by (unfold search_index_ok in Hi; unfold n, i;
        destruct (searchResults s); [contradiction | exact Hi]).
  clear Hi. rename Hi' into Hi.
  assert (Hj : 0 <= j < n) by (apply Z.mod_pos_bound; exact Hn).
  destruct (nth_error_in_range (searchResults s) j Hj) as (rj & Erj).
  destruct (nth_error_in_range (searchResults s) i Hi) as (ri & Eri).
  exists rj, ri. split; [exact Erj|]. split; [exact Eri|].
  assert (Hnext : activeSession (nextResult st)
                  = Some (mkSession (session_id s) (file s)
                            (Some (mkSelection (res_offset rj) (res_size rj) None))
                            (rowStart (res_offset rj)) (searchResults s) j (isSearchOpen s))).
  { unfold nextResult. rewrite Ha. cbv zeta. fold n i.
    destruct (Z.eqb_spec n 0); [lia|].
    rewrite Z.rem_mod_nonneg by lia. fold j.
    now apply jumpToSearchResult_active. }
  split; [exact Hnext|].
  unfold prevResult. rewrite Hnext. cbv zeta. cbn [searchResults currentSearchIndex].
  fold n. destruct (Z.eqb_spec n 0); [lia|].
  assert (Hback : Z.rem (j - 1 + n) n = i).
  { rewrite Z.rem_mod_nonneg by lia. unfold j.
    destruct (Z.eq_dec (i + 1) n) as [E|E].
    - rewrite E, Z.mod_same by lia. replace (0 - 1 + n) with i by lia.
      apply Z.mod_small. lia.
    - rewrite (Z.mod_small (i + 1) n) by lia.
      replace (i + 1 - 1 + n) with (i + 1 * n) by lia.
      rewrite Z.mod_add by lia. apply Z.mod_small. lia. }
  rewrite Hback.
  rewrite (jumpToSearchResult_active i (nextResult st) _ ri Hnext); cbn; try assumption.
  reflexivity.
Qed.

Lemma search_navigation_wraps_witness :
  let f := fileOf (bytes [0x4D; 0x5A; 0x90; 0x4D; 0x5A]) [] in
  let rs := [mkResult 0 2 None [77; 90]; mkResult 3 2 None [77; 90]] in
  let s := mkSession "7f1c" f None 0 rs 1 true in
  let st := mkAppState [s] (Some "7f1c"%string) None dark false false in
  activeSession (nextResult st)
  = Some (mkSession "7f1c" f (Some (mkSelection 0 2 None)) 0 rs 0 true)
  /\ activeSession (prevResult (nextResult st))
     = Some (mkSession "7f1c" f (Some (mkSelection 3 2 None)) 0 rs 1 true).
Proof.
  cbv zeta.
  destruct (search_navigation_wraps
              (mkAppState [mkSession "7f1c" (fileOf (bytes [0x4D; 0x5A; 0x90; 0x4D; 0x5A]) [])
                             None 0 [mkResult 0 2 None [77; 90]; mkResult 3 2 None [77; 90]]
                             1 true]
                          (Some "7f1c"%string) None dark false false)
              (mkSession "7f1c" (fileOf (bytes [0x4D; 0x5A; 0x90; 0x4D; 0x5A]) [])
                         None 0 [mkResult 0 2 None [77; 90]; mkResult 3 2 None [77; 90]]
                         1 true))
    as (rj & ri & Hj & Hi & Hnext & Hprev).
  - unfold app_invariant, active_ok, search_index_ok. cbn.
    repeat split; try lia; repeat constructor; try discriminate; cbn; try lia; intros [].
  - reflexivity.
  - discriminate.
  - cbn in Hj, Hi. injection Hj as <-. injection Hi as <-. split; [exact Hnext | exact Hprev].
Defined.

(** ** The region of a selection made in the hex view *)

(** Induction on a region, with the property at hand for its children. *)
Lemma PERegion_ind_children (P : PERegion -> Prop) :
  (forall nm off sz ty kids, Forall P kids -> P (mkRegion nm off sz ty kids)) ->
  forall r, P r.
Proof.
  intro H. fix IH 1. intros [nm off sz ty kids]. apply H.
  induction kids as [|k kids IHk]; constructor; [apply IH | exact IHk].
Qed.

Lemma reached_incl (off : Z) (l l' : list PERegion) (x : PERegion) :
  incl l l' -> reached off l x -> reached off l' x.
Proof.
  intros Hincl H. destruct H as [l r Hin Hh | l r x Hin Hh Hx].
  - apply reached_here; [now apply Hincl | exact Hh].
  - eapply reached_below; [apply Hincl; exact Hin | exact Hh | exact Hx].
Qed.

Lemma search_regions_spec (off : Z) (l : list PERegion) :
  Forall (fun r => forall acc, search_spec off [r] acc (search_region off r acc)) l ->
  forall acc, search_spec off l acc (search_regions off l acc).
Proof.
  unfold search_regions.
  induction 1 as [|r rest Hr _ IH]; intro acc; cbn [fold_left].
  - left. split; [constructor | reflexivity].
  - destruct (IH (search_region off r acc)) as [[Hnone ->] | (x & -> & Hx & Hleaf)].
    + destruct (Hr acc) as [[Hn ->] | (x & -> & Hx & Hleaf)].
      * left. split; [|reflexivity]. inversion Hn; subst. now constructor.
      * right. exists x. repeat split; [|exact Hleaf].
        eapply reached_incl; [|exact Hx]. intros y [<-|[]]. now left.
    + right. exists x. repeat split; [|exact Hleaf].
      eapply reached_incl; [|exact Hx]. intros y Hy. now right.
Qed.

Lemma search_region_spec (off : Z) (r : PERegion) :
  forall acc, search_spec off [r] acc (search_region off r acc).
Proof.
  induction r as [nm o sz ty kids IH] using PERegion_ind_children. intro acc.
  cbn [search_region].
  destruct ((o <=? off) && (off <? o + sz)) eqn:E.
  - assert (Hh : holds (mkRegion nm o sz ty kids) off) by (unfold holds; cbn; lia).
    right.
    destruct (search_regions_spec off kids IH (Some (mkRegion nm o sz ty kids)))
      as [[Hnone Hout] | (x & Hout & Hx & Hleaf)]; unfold search_regions in Hout;
      rewrite Hout.
    + eexists. repeat split; [|exact Hnone]. apply reached_here; [now left | exact Hh].
    + exists x. repeat split; [|exact Hleaf].
      eapply reached_below; [now left | exact Hh | exact Hx].
  - left. split; [|reflexivity]. constructor; [|constructor]. unfold holds. cbn. lia.
Qed.

(** The region that [search] finds for an offset. *)
Lemma search_regions_found (off : Z) (l : list PERegion) :
  match search_regions off l None with
  | Some x => reached off l x /\ Forall (fun c => ~ holds c off) (children x)
  | None => Forall (fun r => ~ holds r off) l
  end.
Proof.
  destruct (search_regions_spec off l) with (acc := @None PERegion)
    as [[Hnone ->] | (x & -> & Hx & Hleaf)].
  - apply Forall_forall. intros r _. apply search_region_spec.
  - exact Hnone.
  - now split.
Qed.

(** A selection made in the hex view carries the offset and the size given,
    and a region that holds the first byte of the selection, as do the regions
    above it, while none of its children holds that byte. It carries no region
    exactly when no top-level region holds the byte. *)
Theorem selection_region_innermost (st : AppState) (s : FileSession) (off sz : Z) :
  activeSession st = Some s -> session_id s <> EmptyString ->
  exists s' found,
    activeSession (onSelectionChange off sz st) = Some s'
    /\ selection s' = Some (mkSelection off sz found)
    /\ file s' = file s
    /\ match found with
       | Some r => reached off (regions (file s)) r
                   /\ Forall (fun c => ~ holds c off) (children r)
       | None => Forall (fun r => ~ holds r off) (regions (file s))
       end.
Proof.
  intros Ha Hne. unfold onSelectionChange. rewrite Ha. cbv zeta.
  rewrite (activeSession_update st _ s Ha Hne).
  eexists. exists (search_regions off (regions (file s)) None).
  split; [reflexivity|]. split; [reflexivity|]. split; [reflexivity|].
  apply search_regions_found.
Qed.

Lemma selection_region_innermost_witness :
  let inner := mkRegion "Machine" 4 2 FIELD [] in
  let outer := mkRegion "File Header" 4 20 FILE_HEADER [inner; field "Rest" 6 18] in
  let f := mkParsedFile "a" 32 (bytes (repeat 0 32)) [field "Sig" 0 4; outer] [] true None PE in
  let st := mkAppState [mkSession "7f1c" f None 0 [] (-1) false] (Some "7f1c"%string)
                       None dark false false in
  exists s',
    activeSession (onSelectionChange 5 3 st) = Some s'
    /\ selection s' = Some (mkSelection 5 3 (Some inner)).
Proof.
  cbv zeta.
  destruct (selection_region_innermost
              (mkAppState
                 [mkSession "7f1c"
                    (mkParsedFile "a" 32 (bytes (repeat 0 32))
                       [field "Sig" 0 4;
                        mkRegion "File Header" 4 20 FILE_HEADER
                          [mkRegion "Machine" 4 2 FIELD []; field "Rest" 6 18]]
                       [] true None PE)
                    None 0 [] (-1) false]
                 (Some "7f1c"%string) None dark false false)
              (mkSession "7f1c"
                 (mkParsedFile "a" 32 (bytes (repeat 0 32))
                    [field "Sig" 0 4;
                     mkRegion "File Header" 4 20 FILE_HEADER
                       [mkRegion "Machine" 4 2 FIELD []; field "Rest" 6 18]]
                    [] true None PE)
                 None 0 [] (-1) false) 5 3)
    as (s' & found & Hact & Hsel & _ & _).
  - reflexivity.
  - discriminate.
  - exists s'. split; [exact Hact|]. cbn in Hact. injection Hact as <-. reflexivity.
Defined.

(** ** The highlight of the search results in the hex view *)

Lemma skipHidden_spec (results : list SearchResult) (start : Z) :
  forall idx,
    exists skipped,
      results = skipped ++ fst (skipHidden results idx start)
      /\ snd (skipHidden results idx start) = idx + Z.of_nat (List.length skipped)
      /\ Forall (fun r => res_offset r + res_size r < start) skipped.
Proof.
  induction results as [|r rest IH]; intro idx; cbn [skipHidden].
  - exists []. cbn. repeat split; [lia | constructor].
  - destruct (Z.ltb_spec (res_offset r + res_size r) start).
    + destruct (IH (idx + 1)) as (skipped & E & Hidx & Hall). exists (r :: skipped).
      cbn [app List.length]. repeat split; [now rewrite <- E | lia | now constructor].
    + exists []. cbn. repeat split; [lia | constructor].
Qed.

Lemma takeVisible_in (l : list SearchResult) (e cur : Z) (r : SearchResult) :
  ascending l -> In r l -> res_offset r < e ->
  forall idx, In r (map vis_result (takeVisible l idx e cur)).
Proof.
  unfold ascending. induction l as [|x rest IH]; intros Hasc Hin Hr idx; [contradiction|].
  cbn [map] in Hasc. inversion Hasc as [|? ? Hrest Hx]; subst. cbn [takeVisible].
  assert (Hxe : res_offset x < e).
  { destruct Hin as [->|Hin]; [exact Hr|]. rewrite Forall_forall in Hx.
    specialize (Hx (res_offset r) (in_map res_offset _ _ Hin)). lia. }
  destruct (Z.ltb_spec (res_offset x) e); [|lia]. cbn [map vis_result].
  destruct Hin as [->|Hin]; [now left | right; now apply IH].
Qed.

Lemma takeVisible_sub (l : list SearchResult) (e cur : Z) (v : VisibleResult) :
  forall idx, In v (takeVisible l idx e cur) ->
    exists k, nth_error l k = Some (vis_result v)
              /\ isCurrent v = (idx + Z.of_nat k =? cur).
Proof.
  induction l as [|x rest IH]; intros idx Hin; cbn [takeVisible] in Hin; [contradiction|].
  destruct (res_offset x <? e); [|contradiction]. destruct Hin as [<-|Hin].
  - exists 0%nat. cbn. split; [reflexivity|]. f_equal. lia.
  - destruct (IH (idx + 1) Hin) as (k & Hk & Hc). exists (S k). cbn [nth_error].
    split; [exact Hk|]. rewrite Hc. f_equal. lia.
Qed.

Lemma checkSearch_true (visible : list VisibleResult) (byteOffset : Z) :
  fst (checkSearch visible byteOffset) = true
  <-> exists v, In v visible /\ in_result (vis_result v) byteOffset.
Proof.
  unfold in_result. induction visible as [|v rest IH]; cbn [checkSearch].
  - split; [discriminate | intros (v & [] & _)].
  - cbv zeta.
    destruct ((res_offset (vis_result v) <=? byteOffset)
              && (byteOffset <? res_offset (vis_result v) + res_size (vis_result v))) eqn:E.
    + split; [|reflexivity]. intros _. exists v. split; [now left | lia].
    + rewrite IH. split.
      * intros (w & Hw & Hin). exists w. split; [now right | exact Hin].
      * intros (w & [<-|Hw] & Hin); [lia | eauto].
Qed.

Lemma checkSearch_current (visible : list VisibleResult) (byteOffset : Z) :
  snd (checkSearch visible byteOffset) = true ->
  exists v, In v visible /\ isCurrent v = true /\ in_result (vis_result v) byteOffset.
Proof.
  unfold in_result. induction visible as [|v rest IH]; cbn [checkSearch]; [discriminate|].
  cbv zeta.
  destruct ((res_offset (vis_result v) <=? byteOffset)
            && (byteOffset <? res_offset (vis_result v) + res_size (vis_result v))) eqn:E.
  - cbn [snd]. intro Hc. exists v. repeat split; [now left | exact Hc | lia | lia].
  - intro H. destruct (IH H) as (w & Hw & Hc & Hin). exists w.
    split; [now right | now split].
Qed.

Lemma drawn_is_visible (s : FileSession) (height byteOffset : Z) :
  drawnInFrame s height byteOffset ->
  startVisibleOffsetOf s <= byteOffset < endVisibleOffsetOf s height.
Proof.
  intros (i & b & Hi & _ & Hb & -> & _).
  unfold startVisibleOffsetOf, endVisibleOffsetOf, BYTES_PER_LINE in *. nia.
Qed.

(** The results that the frame keeps are results of the session, and every
    result that holds a visible byte is among them when the results are in
    ascending order. *)
Lemma visibleSearchResults_spec (s : FileSession) (height byteOffset : Z) :
  ascending (searchResults s) ->
  startVisibleOffsetOf s <= byteOffset < endVisibleOffsetOf s height ->
  ((exists v, In v (visibleSearchResults s height) /\ in_result (vis_result v) byteOffset)
   <-> exists r, In r (searchResults s) /\ in_result r byteOffset).
Proof.
  intros Hasc Hvis. unfold visibleSearchResults. cbv zeta.
  destruct (skipHidden_spec (searchResults s) (startVisibleOffsetOf s) 0)
    as (skipped & E & Hidx & Hskipped).
  set (kept := fst (skipHidden (searchResults s) 0 (startVisibleOffsetOf s))) in *.
  split.
  - intros (v & Hv & Hin). exists (vis_result v). split; [|exact Hin].
    destruct (takeVisible_sub _ _ _ _ _ Hv) as (k & Hk & _).
    rewrite E. apply in_or_app. right. eapply nth_error_In. exact Hk.
  - intros (r & Hr & Hin).
    assert (Hkept : In r kept).
    { rewrite E in Hr. apply in_app_or in Hr. destruct Hr as [Hr|Hr]; [|exact Hr].
      rewrite Forall_forall in Hskipped. specialize (Hskipped r Hr).
      unfold in_result in Hin. lia. }
    assert (Hasc' : ascending kept).
    { unfold ascending in *. rewrite E, map_app in Hasc.
      clear -Hasc. induction (map res_offset skipped) as [|a l IH]; [exact Hasc|].
      cbn [app] in Hasc. inversion Hasc; subst. now apply IH. }
    pose proof (takeVisible_in kept (endVisibleOffsetOf s height)
                  (if currentSearchIndex s =? 0 then -1 else currentSearchIndex s)
                  r Hasc' Hkept) as Hin'.
    specialize (Hin' ltac:(unfold in_result in Hin; lia)
                     (snd (skipHidden (searchResults s) 0 (startVisibleOffsetOf s)))).
    apply in_map_iff in Hin'. destruct Hin' as (v & <- & Hv). exists v. now split.
Qed.

(** A byte that a frame draws gets one of the two colours of the search
    exactly when it lies in a search result, given results in ascending order
    of offset (as [searchPE] returns them). The colour of the current result
    is only ever given to bytes of the result at [currentSearchIndex], and
    never when that index is 0: the first result is not shown as current. *)
Theorem search_highlight_spec (s : FileSession) (height byteOffset : Z) :
  ascending (searchResults s) ->
  drawnInFrame s height byteOffset ->
  ((cellBg s height byteOffset = SearchCurrent
    \/ cellBg s height byteOffset = SearchHighlight)
   <-> exists r, In r (searchResults s) /\ in_result r byteOffset)
  /\ (cellBg s height byteOffset = SearchCurrent ->
      0 < currentSearchIndex s
      /\ exists r, nth_error (searchResults s) (Z.to_nat (currentSearchIndex s)) = Some r
                   /\ in_result r byteOffset).
Proof.
  intros Hasc Hdrawn. pose proof (drawn_is_visible s height byteOffset Hdrawn) as Hvis.
  pose proof (visibleSearchResults_spec s height byteOffset Hasc Hvis) as Hspec.
  pose proof (checkSearch_true (visibleSearchResults s height) byteOffset) as Htrue.
  pose proof (checkSearch_current (visibleSearchResults s height) byteOffset) as Hcur.
  unfold cellBg.
  destruct (checkSearch (visibleSearchResults s height) byteOffset) as [m c] eqn:Ec.
  cbn [fst snd] in Htrue, Hcur. split.
  - rewrite <- Hspec, <- Htrue. destruct c.
    + destruct (Hcur eq_refl) as (v & Hv & _ & Hin).
      split; [intros _; apply Htrue; eauto | now left].
    + destruct m; [split; [reflexivity | now right]|].
      split; [|discriminate]. intros [H|H]; destruct (selection s) as [sel|];
        try destruct (_ && _); discriminate.
  - intro Hbg. destruct c.
    + destruct (Hcur eq_refl) as (v & Hv & Hc & Hin).
      unfold visibleSearchResults in Hv. cbv zeta in Hv.
      destruct (skipHidden_spec (searchResults s) (startVisibleOffsetOf s) 0)
        as (skipped & E & Hidx & _).
      destruct (takeVisible_sub _ _ _ _ _ Hv) as (k & Hk & Hck).
      rewrite Hc, Hidx in Hck. symmetry in Hck. apply Z.eqb_eq in Hck.
      destruct (Z.eqb_spec (currentSearchIndex s) 0); [lia|].
      split; [lia|]. exists (vis_result v). split; [|exact Hin].
      rewrite E at 1. rewrite nth_error_app2 by lia.
      replace (Z.to_nat (currentSearchIndex s) - List.length skipped)%nat with k by lia.
      exact Hk.
    + destruct m; [discriminate|]. destruct (selection s) as [sel|];
        try destruct (_ && _); discriminate.
Qed.

Lemma search_highlight_spec_witness :
  let f := fileOf (bytes (repeat 0x41 40)) [] in
  let rs := [mkResult 2 3 None [65]; mkResult 20 4 None [65]] in
  let s := mkSession "7f1c" f None 16 rs 0 false in
  cellBg s 100 21 = SearchHighlight
  /\ ((cellBg s 100 21 = SearchCurrent \/ cellBg s 100 21 = SearchHighlight)
      <-> exists r, In r rs /\ in_result r 21).
Proof.
  cbv zeta. split; [reflexivity|].
  apply (search_highlight_spec
           (mkSession "7f1c" (fileOf (bytes (repeat 0x41 40)) []) None 16
                      [mkResult 2 3 None [65]; mkResult 20 4 None [65]] 0 false) 100 21).
  - unfold ascending. cbn. repeat constructor; lia.
  - exists 0, 5. unfold visibleLinesOf, startLineOf, ceilDiv, BYTES_PER_LINE, LINE_HEIGHT.
    cbn. lia.
Defined.

(** ** The mouse in the hex view, the inspector and the copy of a drag *)

(** An offset under the mouse is an offset of the file. *)
Lemma getOffsetFromCoords_range (f : ParsedFile) (viewOffset x yClient off : Z) :
  getOffsetFromCoords f viewOffset x yClient = Some off ->
  off < file_size f /\ (0 <= viewOffset -> 0 <= off).
Proof.
  unfold getOffsetFromCoords. cbv zeta.
  destruct (Z.ltb_spec ((yClient - CANVAS_PADDING) / LINE_HEIGHT) 0); [discriminate|].
  set (col := if (HEX_X <=? x) && (x <? ASCII_X - 20) then (x - HEX_X) / (3 * CHAR_WIDTH)
              else if ASCII_X <=? x then (x - ASCII_X) / CHAR_WIDTH else -1).
  destruct ((0 <=? col) && (col <? 16)) eqn:Ec; [|discriminate].
  destruct (Z.ltb_spec
              ((viewOffset / BYTES_PER_LINE + (yClient - CANVAS_PADDING) / LINE_HEIGHT)
               * BYTES_PER_LINE + col) (file_size f)); [|discriminate].
  intro E. injection E as <-. split; [assumption|]. intro Hv.
  assert (0 <= viewOffset / BYTES_PER_LINE)
    by (apply Z.div_pos; [exact Hv | unfold BYTES_PER_LINE; lia]).
  unfold BYTES_PER_LINE in *. nia.
Qed.

Lemma getUint_orZero (n : nat) (view : buffer) (off : Z) (le : bool) :
  (byteLength view < off + Z.of_nat n -> orZero (getUint n view off le) = 0)
  /\ (0 <= off -> off + Z.of_nat n <= byteLength view ->
      getUint n view off le = Ok (orZero (getUint n view off le))).
Proof.
  split.
  - intro H. now rewrite getUint_out_of_range.
  - intros H0 H1. destruct (getUint_in_range n view off le H0 H1) as (v & -> & _).
    reflexivity.
Qed.

Lemma inspectorValues_in_file (s : FileSession) (off : Z) :
  0 <= off < byteLength (data (file s)) -> returns (inspectorValues s (Some off)).
Proof.
  intro Hoff. unfold inspectorValues. cbn [effectiveOffset].
  destruct (getUint8_ok (data (file s)) off) as (b & -> & _); [lia..|].
  cbn [bind]. eexists. reflexivity.
Qed.

(** The inspector reads the byte at its offset without a guard: it shows
    values when the offset lies in the file and throws a [RangeError]
    otherwise. The word and the double word are read behind a [try]: they are
    the little-endian values when they fit, and 0 when fewer than 2 or 4 bytes
    are left. *)
Theorem inspector_values_spec (s : FileSession) (hover : option Z) (off : Z) :
  effectiveOffset s hover = Some off ->
  let view := data (file s) in
  (0 <= off < byteLength view ->
   exists b w d,
     inspectorValues s hover = Ok (Some (b, w, d))
     /\ getUint8 view off = Ok b
     /\ (off + 2 <= byteLength view -> getUint16 view off true = Ok w)
     /\ (byteLength view < off + 2 -> w = 0)
     /\ (off + 4 <= byteLength view -> getUint32 view off true = Ok d)
     /\ (byteLength view < off + 4 -> d = 0))
  /\ (off < 0 \/ byteLength view <= off -> inspectorValues s hover = Throw RangeError).
Proof.
  intros He view. unfold inspectorValues. rewrite He. fold view. split.
  - intros Hoff. destruct (getUint8_ok view off) as (b & Hb & _); [lia..|].
    rewrite Hb. cbn [bind]. do 3 eexists. split; [reflexivity|]. split; [reflexivity|].
    unfold getUint16, getUint32.
    destruct (getUint_orZero 2 view off true) as [Z2 O2].
    destruct (getUint_orZero 4 view off true) as [Z4 O4].
    repeat split; intros; [apply O2 | apply Z2 | apply O4 | apply Z4]; cbn; lia.
  - intros Hout. unfold getUint8, getUint, view_bytes.
    destruct Hout as [Hneg|Hbig].
    + destruct (Z.leb_spec 0 off); [lia|]. reflexivity.
    + destruct ((0 <=? off) && (off + Z.of_nat 1 <=? byteLength view)) eqn:E;
        [cbn in E; lia | reflexivity].
Qed.

Lemma inspector_values_spec_witness :
  let f := fileOf (bytes [0x4D; 0x5A; 0x90]) [] in
  let s := mkSession "7f1c" f (Some (mkSelection 3 0 None)) 0 [] (-1) false in
  inspectorValues s (Some 2) = Ok (Some (0x90, 0, 0))
  /\ inspectorValues s None = Throw RangeError.
Proof.
  cbv zeta. split; [reflexivity|].
  apply (inspector_values_spec
           (mkSession "7f1c" (fileOf (bytes [0x4D; 0x5A; 0x90]) [])
                      (Some (mkSelection 3 0 None)) 0 [] (-1) false) None 3);
    [reflexivity | cbn; lia].
Defined.

Lemma activeSession_onHover (off : option Z) (st : AppState) :
  activeSession (onHover off st) = activeSession st.
Proof. reflexivity. Qed.

Lemma activeSession_onSelectionChange (st : AppState) (s : FileSession) (off sz : Z) :
  activeSession st = Some s -> session_id s <> EmptyString ->
  activeSession (onSelectionChange off sz st)
  = Some (mkSession (session_id s) (file s)
            (Some (mkSelection off sz (search_regions off (regions (file s)) None)))
            (viewOffset s) (searchResults s) (currentSearchIndex s) (isSearchOpen s)).
Proof.
  intros Ha Hne. unfold onSelectionChange. rewrite Ha. cbv zeta.
  now rewrite (activeSession_update st _ s Ha Hne).
Qed.

(** Pressing the mouse on a byte and dragging to another byte selects the
    bytes from the lower to the higher of the two offsets, both included; the
    selection lies inside the file, and the copy takes exactly these bytes.
    The hover offset that the move leaves is an offset of the file, so the
    inspector returns values for it. *)
Theorem drag_selects_range (st : AppState) (s : FileSession)
    (x0 y0 x1 y1 a b : Z) :
  activeSession st = Some s -> session_id s <> EmptyString ->
  file_size (file s) = byteLength (data (file s)) ->
  0 <= viewOffset s ->
  getOffsetFromCoords (file s) (viewOffset s) x0 y0 = Some a ->
  getOffsetFromCoords (file s) (viewOffset s) x1 y1 = Some b ->
  let '(drag, st1) := handleMouseDown s None x0 y0 st in
  exists s1 s2,
    activeSession st1 = Some s1
    /\ activeSession (handleMouseMove s1 drag x1 y1 st1) = Some s2
    /\ (exists region,
          selection s2
          = Some (mkSelection (Z.min a b) (Z.max a b - Z.min a b + 1) region))
    /\ 0 <= Z.min a b /\ Z.max a b < file_size (file s2)
    /\ getSelectedBytes (Some s2)
       = Some (bytes_at (data (file s)) (Z.min a b) (Z.max a b - Z.min a b + 1))
    /\ hoverOffset (handleMouseMove s1 drag x1 y1 st1) = Some b
    /\ returns (inspectorValues s2 (Some b)).
Proof.
  intros Ha Hne Hsize Hvo Ea Eb.
  destruct (getOffsetFromCoords_range _ _ _ _ _ Ea) as [Ha1 Ha0].
  destruct (getOffsetFromCoords_range _ _ _ _ _ Eb) as [Hb1 Hb0].
  specialize (Ha0 Hvo). specialize (Hb0 Hvo).
  unfold handleMouseDown. rewrite Ea.
  set (s1 := mkSession (session_id s) (file s)
               (Some (mkSelection a 1 (search_regions a (regions (file s)) None)))
               (viewOffset s) (searchResults s) (currentSearchIndex s) (isSearchOpen s)).
  assert (H1 : activeSession (onSelectionChange a 1 st) = Some s1)
    by now apply activeSession_onSelectionChange.
  exists s1.
  set (start := Z.min a b). set (sz := Z.max a b - Z.min a b + 1).
  assert (Hmove : exists s2,
            activeSession (handleMouseMove s1 (Some a) x1 y1 (onSelectionChange a 1 st))
            = Some s2
            /\ file s2 = file s
            /\ exists region, selection s2 = Some (mkSelection start sz region)).
  { unfold handleMouseMove. cbv zeta. cbn [file viewOffset s1]. rewrite Eb.
    rewrite activeSession_onHover. fold sz. fold start.
    destruct (selectionDiffers (selection s1) start sz) eqn:Ed.
    - rewrite (activeSession_onSelectionChange _ s1 start sz H1 Hne).
      eexists. split; [reflexivity|]. split; [reflexivity|]. eexists. reflexivity.
    - exists s1. split; [exact H1|]. split; [reflexivity|].
      cbn [selection s1 selectionDiffers sel_offset sel_size] in Ed.
      apply orb_false_iff in Ed. destruct Ed as [E1 E2].
      apply negb_false_iff in E1, E2. apply Z.eqb_eq in E1, E2.
      eexists. cbn [selection s1]. rewrite E1, E2. reflexivity. }
  destruct Hmove as (s2 & Hs2 & Hfile & region & Hsel).
  exists s2. split; [exact H1|]. split; [exact Hs2|]. split; [eauto|].
  rewrite Hfile. split; [unfold start; lia|]. split; [lia|]. split; [|split].
  - rewrite (getSelectedBytes_inside s2 (mkSelection start sz region));
      rewrite ?Hfile; cbn [sel_offset sel_size]; try assumption;
      unfold start, sz; try lia. reflexivity.
  - unfold handleMouseMove. cbv zeta. cbn [file viewOffset s1]. rewrite Eb. reflexivity.
  - apply inspectorValues_in_file. rewrite Hfile. lia.
Qed.

Lemma drag_selects_range_witness :
  let f := fileOf (bytes (repeat 0x41 40)) [] in
  let s := mkSession "7f1c" f None 0 [] (-1) false in
  let st := mkAppState [s] (Some "7f1c"%string) None dark false false in
  getOffsetFromCoords f 0 154 10 = Some 2
  /\ getOffsetFromCoords f 0 645 30 = Some 21
  /\ exists s1 s2,
       activeSession (snd (handleMouseDown s None 154 10 st)) = Some s1
       /\ activeSession (handleMouseMove s1 (Some 2) 645 30
                           (snd (handleMouseDown s None 154 10 st))) = Some s2
       /\ getSelectedBytes (Some s2) = Some (bytes_at (data f) 2 20).
Proof.
  cbv zeta. split; [reflexivity|]. split; [reflexivity|].
  pose proof (drag_selects_range
                (mkAppState [mkSession "7f1c" (fileOf (bytes (repeat 0x41 40)) [])
                                       None 0 [] (-1) false]
                            (Some "7f1c"%string) None dark false false)
                (mkSession "7f1c" (fileOf (bytes (repeat 0x41 40)) []) None 0 [] (-1) false)
                154 10 645 30 2 21 eq_refl) as H.
  specialize (H ltac:(discriminate) eq_refl ltac:(cbn; lia) eq_refl eq_refl).
  cbn [handleMouseDown] in H.
  change (getOffsetFromCoords _ _ 154 10) with (Some 2) in H. cbv iota beta in H.
  destruct H as (s1 & s2 & H1 & H2 & _ & _ & _ & Hcopy & _).
  exists s1, s2. split; [exact H1|]. split; [exact H2|]. exact Hcopy.
Defined.

(** ** The search dialog *)

Lemma searchPE_fuel (regex_valid : jsstring -> bool)
    (regex_exec : jsstring -> jsstring -> Z -> option (Z * Z))
    (f : ParsedFile) (query : jsstring) (mode : SearchMode) (useRegex : bool) :
  searchPE regex_valid regex_exec f query mode useRegex <> OutOfFuel.
Proof.
  unfold searchPE. destruct query as [|c q]; [discriminate|].
  destruct mode.
  - destruct (_ || _); discriminate.
  - destruct useRegex; [|discriminate]. destruct (_ <? _); [discriminate|].
    destruct (regex_valid _); [|discriminate].
    destruct (regexLoop_fuel regex_exec (sectionsMetadata f) (c :: q)
                (map decode_latin1 (data f)) RESULT_LIMIT 0 []) as (out & ->);
      [cbn; lia | unfold RESULT_LIMIT; cbn; lia | discriminate].
  - destruct useRegex; discriminate.
Qed.

Lemma exn_message_search (regex_valid : jsstring -> bool)
    (regex_exec : jsstring -> jsstring -> Z -> option (Z * Z))
    (f : ParsedFile) (query : jsstring) (mode : SearchMode) (useRegex : bool) (e : exn) :
  searchPE regex_valid regex_exec f query mode useRegex = Throw e ->
  exn_message e <> EmptyString.
Proof.
  unfold searchPE. destruct query as [|c q]; [discriminate|].
  destruct mode.
  - destruct (_ || _); [|discriminate]. intro H. injection H as <-. discriminate.
  - destruct useRegex; [|discriminate]. destruct (_ <? _).
    + intro H. injection H as <-. discriminate.
    + destruct (regex_valid _).
      * destruct (regexLoop_fuel regex_exec (sectionsMetadata f) (c :: q)
                    (map decode_latin1 (data f)) RESULT_LIMIT 0 []) as (out & ->);
          [cbn; lia | unfold RESULT_LIMIT; cbn; lia | discriminate].
      * intro H. injection H as <-. discriminate.
  - destruct useRegex; [|discriminate]. intro H. injection H as <-. discriminate.
Qed.

Lemma activeSession_onResults (st : AppState) (s : FileSession)
    (results : list SearchResult) :
  activeSession st = Some s -> session_id s <> EmptyString ->
  activeSession (onResults results st)
  = Some (mkSession (session_id s) (file s) (selection s)
            (match results with
             | first :: _ => rowStart (res_offset first)
             | [] => viewOffset s
             end)
            results
            (match results with _ :: _ => 0 | [] => -1 end)
            (isSearchOpen s)).
Proof.
  intros Ha Hne. unfold onResults, onResults_from. cbv zeta.
  set (p1 := mkPartial None None (Some results) _ None).
  assert (H1 : activeSession (updateActiveSession st p1 st) = Some (merge s p1))
    by now apply activeSession_update.
  destruct results as [|first rest]; [exact H1|].
  set (st1 := updateActiveSession st p1 st) in *.
  set (p2 := mkPartial None _ None (Some 0) None).
  (* the second update runs on [st1], with the guard of the rendered state *)
  destruct (activeSession_In st s Ha) as [_ Hact].
  destruct (updateActiveSession_ids st p1 st) as [_ Haid]. fold st1 in Haid.
  unfold updateActiveSession at 1.
  unfold isActive in Hact. destruct (activeSessionId st) as [a|] eqn:Ea; [|discriminate].
  apply String.eqb_eq in Hact. subst a.
  destruct (String.eqb_spec (session_id s) ""); [contradiction|].
  unfold activeSession in *. cbn [withSessions sessions activeSessionId].
  rewrite Haid in *. rewrite find_map_active.
  - rewrite H1. cbn [option_map merge p1 session_id isActive].
    rewrite String.eqb_refl. reflexivity.
  - intro x. destruct (isActive _ x); reflexivity.
Qed.

(** A search from the dialog always ends, and no exception leaves it. An
    exception of [searchPE] becomes the error text of the dialog and nothing
    else changes; an empty result shows "No matches found." and clears the
    results of the session; otherwise the results are installed in the active
    session, the first one is current and the view starts at its row, while
    the selection stays as it was. *)
Theorem handleSearch_outcome (regex_valid : jsstring -> bool)
    (regex_exec : jsstring -> jsstring -> Z -> option (Z * Z))
    (st : AppState) (s : FileSession) (query : jsstring) (mode : SearchMode)
    (useRegex : bool) (dlg : DialogState) :
  activeSession st = Some s -> session_id s <> EmptyString -> query <> [] ->
  exists dlg' st',
    handleSearch regex_valid regex_exec (file s) query mode useRegex dlg st
    = Ok (dlg', st')
    /\ ((exists e msg,
           searchPE regex_valid regex_exec (file s) query mode useRegex = Throw e
           /\ dlg_error dlg' = Some msg /\ msg = exn_message e /\ msg <> EmptyString
           /\ localResults dlg' = localResults dlg /\ st' = st)
        \/ (searchPE regex_valid regex_exec (file s) query mode useRegex = Ok []
            /\ dlg_error dlg' = Some "No matches found."%string
            /\ activeSession st'
               = Some (mkSession (session_id s) (file s) (selection s) (viewOffset s)
                                 [] (-1) (isSearchOpen s)))
        \/ (exists first rest,
              searchPE regex_valid regex_exec (file s) query mode useRegex
              = Ok (first :: rest)
              /\ dlg_error dlg' = None /\ localResults dlg' = first :: rest
              /\ activeSession st'
                 = Some (mkSession (session_id s) (file s) (selection s)
                                   (rowStart (res_offset first)) (first :: rest) 0
                                   (isSearchOpen s)))).
Proof.
  intros Ha Hne Hq. unfold handleSearch. destruct query as [|c q]; [contradiction|].
  pose proof (searchPE_fuel regex_valid regex_exec (file s) (c :: q) mode useRegex) as Hfuel.
  pose proof (exn_message_search regex_valid regex_exec (file s) (c :: q) mode useRegex)
    as Hmsg.
  destruct (searchPE regex_valid regex_exec (file s) (c :: q) mode useRegex)
    as [res|e|]; [| |contradiction].
  - do 2 eexists. split; [reflexivity|]. right.
    rewrite (activeSession_onResults st s res Ha Hne). destruct res as [|first rest].
    + left. repeat split.
    + right. exists first, rest. repeat split.
  - do 2 eexists. split; [reflexivity|]. left. exists e, (exn_message e).
    specialize (Hmsg e eq_refl). cbn [dlg_error localResults].
    destruct (String.eqb_spec (exn_message e) ""); [contradiction|]. repeat split.
    exact Hmsg.
Qed.

Lemma handleSearch_outcome_witness :
  let f := fileOf (bytes [0x4D; 0x5A; 0x90; 0x4D; 0x5A]) [] in
  let s := mkSession "7f1c" f (Some (mkSelection 2 1 None)) 0 [] (-1) true in
  let st := mkAppState [s] (Some "7f1c"%string) None dark false false in
  exists dlg' st',
    handleSearch (fun _ => true) exec_never f (js "MZ") ModeAscii false (mkDialog None []) st
    = Ok (dlg', st')
    /\ dlg_error dlg' = None
    /\ activeSession st'
       = Some (mkSession "7f1c" f (Some (mkSelection 2 1 None)) 0
                 [mkResult 0 2 None (js "MZ"); mkResult 3 2 None (js "MZ")] 0 true).
Proof.
  cbv zeta.
  destruct (handleSearch_outcome (fun _ => true) exec_never
              (mkAppState [mkSession "7f1c" (fileOf (bytes [0x4D; 0x5A; 0x90; 0x4D; 0x5A]) [])
                             (Some (mkSelection 2 1 None)) 0 [] (-1) true]
                          (Some "7f1c"%string) None dark false false)
              (mkSession "7f1c" (fileOf (bytes [0x4D; 0x5A; 0x90; 0x4D; 0x5A]) [])
                         (Some (mkSelection 2 1 None)) 0 [] (-1) true)
              (js "MZ") ModeAscii false (mkDialog None []))
    as (dlg' & st' & Hrun & Hcases); [reflexivity | discriminate | discriminate |].
  exists dlg', st'. split; [exact Hrun|].
  destruct Hcases as [(e & msg & Hthrow & _) | [(Hnil & _) | (first & rest & Hres & Herr & _ & Hact)]];
    [discriminate Hthrow | discriminate Hnil |].
  split; [exact Herr|]. rewrite Hact. cbn in Hres. injection Hres as <- <-. reflexivity.
Defined.

(** ** The region invariant where the bounds are checked: ELF *)

Lemma leaf_in_ok (fs P S : Z) (k : PERegion) :
  leaf_in P S k -> P + S <= fs -> deep_forallb (node_okb fs) k = true.
Proof.
  intros (Hk & Hs & Ho & He) Hfs. destruct k as [nm o sz ty kids].
  cbn [children size offset] in *. subst kids. unfold node_okb. okb.
Qed.

Lemma node_with_leaves (fs P S : Z) (nm : string) (ty : RegionType) (kids : list PERegion) :
  0 <= S -> P + S <= fs -> Forall (leaf_in P S) kids ->
  deep_forallb (node_okb fs) (mkRegion nm P S ty kids) = true.
Proof.
  intros HS Hfs Hkids. cbn [deep_forallb]. unfold node_okb at 1. cbn [size offset children].
  repeat (apply andb_true_intro; split); try (apply Z.leb_le; lia).
  - apply forallb_forall. intros k Hk. rewrite Forall_forall in Hkids.
    destruct (Hkids k Hk) as (_ & _ & Ho & He). unfold withinb. cbn [offset size].
    apply andb_true_intro; split; apply Z.leb_le; lia.
  - apply forallb_forall. intros k Hk. rewrite Forall_forall in Hkids.
    eapply leaf_in_ok; [apply Hkids; exact Hk | exact Hfs].
Qed.

(** A sum of doubles that stays below 2^53 is the sum of the integers. *)
Lemma js_add_le (a b L : Z) :
  0 <= a -> 0 <= b -> L < 2 ^ 53 -> js_add a b <= L -> a + b <= L.
Proof.
  intros Ha Hb HL H. unfold js_add in H.
  destruct (Z_le_gt_dec (a + b) (2 ^ 53)) as [Hs|Hs].
  - rewrite js_round_exact in H by lia. exact H.
  - pose proof (js_round_large (a + b) ltac:(lia)). lia.
Qed.

Lemma js_round_le (a L : Z) :
  0 <= a -> L < 2 ^ 53 -> js_round a <= L -> js_round a = a.
Proof.
  intros Ha HL H.
  destruct (Z_le_gt_dec a (2 ^ 53)) as [Hs|Hs].
  - apply js_round_exact. lia.
  - pose proof (js_round_large a ltac:(lia)). lia.
Qed.

Lemma regions_okb_perm (fs : Z) (l l' : list PERegion) :
  Permutation l l' -> regions_okb fs l = regions_okb fs l'.
Proof.
  unfold regions_okb. induction 1; cbn [forallb].
  - reflexivity.
  - now rewrite IHPermutation.
  - rewrite !andb_assoc. f_equal. apply andb_comm.
  - congruence.
Qed.

Lemma regions_okb_app (fs : Z) (l l' : list PERegion) :
  regions_okb fs (l ++ l') = regions_okb fs l && regions_okb fs l'.
Proof. apply forallb_app. Qed.

Lemma regions_okb_leaves (fs : Z) (l : list PERegion) :
  Forall (leaf_in 0 fs) l -> regions_okb fs l = true.
Proof.
  intro H. apply forallb_forall. intros r Hr. rewrite Forall_forall in H.
  eapply leaf_in_ok; [apply H; exact Hr | lia].
Qed.

(** The program headers tile their table. *)
Lemma wp_programHeaders_tiles (view : buffer) (is64 isLE : bool)
    (phOffset e_phentsize total : Z) (n : nat) :
  0 <= e_phentsize ->
  forall i kids,
    0 <= i -> (i + Z.of_nat n) * e_phentsize <= total ->
    Forall (leaf_in phOffset total) kids ->
    wp (Forall (leaf_in phOffset total))
       (programHeaders_loop view is64 isLE phOffset e_phentsize n i kids).
Proof.
  intro Hent. induction n as [|n IH]; intros i kids Hi Htot Hkids;
    cbn [programHeaders_loop]; [exact Hkids|].
  repeat wp_step; (apply IH; [lia | lia |]); apply Forall_app; (split; [exact Hkids|]);
    (constructor; [|constructor]); unfold leaf_in; cbn [children size offset];
    repeat split; nia.
Qed.

Lemma wp_tempSections_ok (view : buffer) (is64 isLE : bool)
    (shOffset e_shentsize total : Z) (n : nat) :
  0 <= e_shentsize ->
  forall i acc,
    0 <= i -> (i + Z.of_nat n) * e_shentsize <= total ->
    Forall (temp_ok shOffset e_shentsize total) acc ->
    wp (Forall (temp_ok shOffset e_shentsize total))
       (tempSections_loop view is64 isLE shOffset e_shentsize n i acc).
Proof.
  intro Hent. induction n as [|n IH]; intros i acc Hi Htot Hacc;
    cbn [tempSections_loop]; [exact Hacc|].
  repeat wp_step; (apply IH; [lia | lia |]); apply Forall_app; (split; [exact Hacc|]);
    (constructor; [|constructor]); unfold temp_ok;
    cbn [ts_headerOffset ts_offset ts_size];
    repeat match goal with
      | H : getUint _ _ _ _ = Ok _ |- _ => apply getUint_value in H; destruct H as (H & _)
      end; repeat split; nia.
Qed.

Lemma wp_elfSections_ok (view : buffer) (stringTableOffset e_shentsize shOffset total : Z)
    (secs : list TempSection) :
  byteLength view < 2 ^ 53 -> 0 <= e_shentsize ->
  Forall (temp_ok shOffset e_shentsize total) secs ->
  forall acc,
    Forall (leaf_in shOffset total) (scan_headers acc) ->
    Forall (leaf_in 0 (byteLength view)) (scan_data acc) ->
    wp (fun scan => Forall (leaf_in shOffset total) (scan_headers scan)
                    /\ Forall (leaf_in 0 (byteLength view)) (scan_data scan))
       (elfSections_loop view stringTableOffset e_shentsize secs acc).
Proof.
  intros Hlen Hent Hsecs. induction Hsecs as [|sec rest Hsec _ IH]; intros acc Hh Hd;
    cbn [elfSections_loop]; [now split|].
  destruct Hsec as (H1 & H2 & H3 & H4).
  repeat wp_step; apply IH; cbn [scan_headers scan_data].
  all: apply Forall_app; (split; [assumption|]).
  all: try (constructor; [|constructor]; unfold leaf_in; cbn [children size offset];
            repeat split; lia).
  all: match goal with
       | |- Forall _ (if ?c then _ else _) => destruct c eqn:Ec; [|constructor]
       end.
  all: tests.
  all: constructor; [|constructor]; unfold leaf_in, Number_of_bigint in *;
    cbn [children size offset].
  all: pose proof (js_round_nonneg (ts_offset sec) H3);
    pose proof (js_round_nonneg (ts_size sec) H4).
  all: match goal with
       | H : js_add _ _ <= _ |- _ => apply js_add_le in H; [|lia..]
       end.
  all: repeat split; lia.
Qed.

Ltac read_facts :=
  repeat match goal with
    | H : getUint 1 _ _ _ = Ok _ |- _ =>
        apply getUint_value in H; change (256 ^ Z.of_nat 1) with 256 in H;
        change (Z.of_nat 1) with 1 in H
    | H : getUint 2 _ _ _ = Ok _ |- _ => apply getUint16_value in H
    | H : getUint 4 _ _ _ = Ok _ |- _ => apply getUint32_value in H
    | H : getUint 8 _ _ _ = Ok _ |- _ => apply getBigUint64_value in H
    end.

Lemma elf_header_ok (fs hs w : Z) :
  (hs = 64 /\ w = 8) \/ (hs = 52 /\ w = 4) -> hs <= fs ->
  regions_okb fs
    [mkRegion "ELF Header" 0 hs ELF_HEADER
       [ field "Magic" 0 4; field "Class" 4 1; field "Data" 5 1;
         field "Type" 16 2; field "Machine" 18 2; field "Entry" 24 w ]] = true.
Proof.
  intros Hw Hfs. unfold regions_okb, node_okb. okb.
Qed.

Lemma table_ok (fs P S : Z) (nm : string) (ty : RegionType) (kids : list PERegion) :
  0 <= S -> P + S <= fs -> Forall (leaf_in P S) kids ->
  regions_okb fs [mkRegion nm P S ty kids] = true.
Proof.
  intros. unfold regions_okb. cbn [forallb]. rewrite andb_true_r.
  now apply node_with_leaves.
Qed.

Ltac elf_finish :=
  intros _; split; [reflexivity|];
  cbn [file_size regions fst];
  rewrite (regions_okb_perm _ _ _ (sort_by_offset_perm _));
  tests;
  repeat match goal with
    | H : js_add _ _ <= byteLength _ |- _ => apply js_add_le in H; [|nia..]
    end;
  rewrite ?regions_okb_app;
  rewrite elf_header_ok
    by first [ split; [left; split; reflexivity | lia]
             | (left; split; reflexivity) | (right; split; reflexivity) | lia ];
  rewrite ?table_ok by first [assumption | apply Z.mul_nonneg_nonneg; lia];
  rewrite ?regions_okb_leaves by assumption;
  reflexivity.

Lemma wp_parseELF_regions (buf : buffer) (fileName : string) (isDarkMode : bool) :
  byteLength buf < 2 ^ 53 ->
  wp (fun pf => isValid pf = true ->
                file_size pf = byteLength buf
                /\ regions_okb (file_size pf) (regions pf) = true)
     (parseELF buf fileName isDarkMode).
Proof.
  intro Hlen. unfold parseELF. cbv zeta.
  repeat wp_step; try (cbn [invalidFile isValid]; discriminate).
  all: match goal with
       | H : getUint 1 _ 4 true = Ok ?c |- _ => destruct (c =? 2) eqn:E64
       end.
  all: tests.
  all: repeat match goal with
         | H : getUint 2 _ _ _ = Ok _ |- _ => apply getUint16_value in H
         end.
  all: unfold Number_of_bigint in *.
  all: repeat match goal with
         | H : 0 <= ?v |- context [js_round ?v] =>
             lazymatch goal with
             | _ : 0 <= js_round v |- _ => fail
             | _ => pose proof (js_round_nonneg v H)
             end
         end.
  all: repeat match goal with
         | H : js_add _ _ <= byteLength _ |- _ => apply js_add_le in H; [|nia..]
         end.
  all: repeat first
         [ wp_step
         | match goal with
           | |- wp _ (bind (programHeaders_loop _ _ _ _ ?ent (Z.to_nat ?num) _ _) _) =>
               eapply wp_bind;
               [ apply (wp_programHeaders_tiles _ _ _ _ ent (num * ent));
                 [lia | lia | nia | constructor]
               | wp_intro ]
           | |- wp _ (bind (tempSections_loop _ _ _ _ ?ent (Z.to_nat ?num) _ _) _) =>
               eapply wp_bind;
               [ apply (wp_tempSections_ok _ _ _ _ ent (num * ent));
                 [lia | lia | nia | constructor]
               | wp_intro ]
           | |- wp _ (bind (elfSections_loop _ _ _ _ _) _) =>
               eapply wp_bind;
               [ eapply wp_elfSections_ok;
                 [assumption | lia | eassumption | constructor | constructor]
               | wp_intro;
                 match goal with H : _ /\ _ |- _ => destruct H end ]
           end
         | elf_finish ].
Qed.

(** Every region of a file that [parseELF] returns as valid has a size that
    is not negative and ends inside the file, and every child lies within its
    parent: on the ELF path the region invariant of the data model holds. (The
    buffer has less than 2^53 bytes, as every [ArrayBuffer].) *)
Theorem parseELF_regions_ok (buf : buffer) (fileName : string) (isDarkMode : bool)
    (pf : ParsedFile) :
  byteLength buf < 2 ^ 53 ->
  parseELF buf fileName isDarkMode = Ok pf ->
  isValid pf = true ->
  file_size pf = byteLength buf
  /\ regions_okb (file_size pf) (regions pf) = true.
Proof.
  intros Hlen Hpf Hvalid.
  pose proof (wp_parseELF_regions buf fileName isDarkMode Hlen) as W.
  rewrite Hpf in W. exact (W Hvalid).
Qed.

Lemma parseELF_regions_ok_witness :
  exists pf,
    parseELF elfOneSegment "one.elf" true = Ok pf
    /\ List.length (regions pf) = 2%nat
    /\ file_size pf = 84
    /\ regions_okb (file_size pf) (regions pf) = true.
Proof.
  eexists. split; [vm_compute; reflexivity|]. split; [reflexivity|].
  apply (parseELF_regions_ok elfOneSegment "one.elf" true);
    [vm_compute; reflexivity | vm_compute; reflexivity | reflexivity].
Defined.

(** ** The walk over the segments of a JPEG *)

Lemma tiled_weaken (l : list PERegion) :
  forall lo hi hi', tiled lo l hi -> hi <= hi' -> tiled lo l hi'.
Proof.
  induction l as [|r rest IH]; intros lo hi hi' H Hle; cbn [tiled] in *; [lia|].
  destruct H as (H1 & H2 & H3). repeat split; [assumption..|]. eapply IH; eassumption.
Qed.

Lemma tiled_snoc (l : list PERegion) (r : PERegion) :
  forall lo mid hi,
    tiled lo l mid -> mid <= offset r -> 0 <= size r -> offset r + size r <= hi ->
    tiled lo (l ++ [r]) hi.
Proof.
  induction l as [|x rest IH]; intros lo mid hi H Hm Hs Hh; cbn [tiled app] in *.
  - repeat split; lia.
  - destruct H as (H1 & H2 & H3). repeat split; [assumption..|]. eapply IH; eassumption.
Qed.

Lemma tiled_bounds (l : list PERegion) :
  forall lo hi, tiled lo l hi ->
    lo <= hi /\ Forall (fun r => lo <= offset r /\ 0 <= size r
                                 /\ offset r + size r <= hi) l.
Proof.
  induction l as [|r rest IH]; intros lo hi H; cbn [tiled] in H.
  - split; [exact H | constructor].
  - destruct H as (H1 & H2 & H3). destruct (IH _ _ H3) as [Hle Hall]. split; [lia|].
    constructor; [lia|]. eapply Forall_impl; [|exact Hall]. cbv beta. intros; lia.
Qed.

Lemma only_last_snoc (nm : string) (l : list PERegion) (r : PERegion) :
  Forall (fun x => name x <> nm) l -> only_last nm (l ++ [r]).
Proof.
  intros Hall before x after E Hx. symmetry in E.
  destruct (snoc_split before x after l r) as [(Ha & _) | Hin]; [now symmetry | exact Ha |].
  rewrite Forall_forall in Hall. now destruct (Hall x Hin).
Qed.

Lemma only_last_none (nm : string) (l : list PERegion) :
  Forall (fun x => name x <> nm) l -> only_last nm l.
Proof.
  intros Hall before x after -> Hx. rewrite Forall_forall in Hall.
  destruct (Hall x); [apply in_or_app; right; now left | exact Hx].
Qed.

(** Only the marker 0xD9 is named "EOI". *)
Lemma jpeg_EOI_name (markerByte : Z) :
  0 <= markerByte < 256 -> markerByte <> 217 ->
  firstWord (jpegMarkerName markerByte) <> "EOI"%string.
Proof.
  intros Hb Hne.
  pose (p := fun m => (m =? 217) || negb (String.eqb (firstWord (jpegMarkerName m)) "EOI")).
  assert (Hp : p markerByte = true) by (apply byte_forall; [vm_compute; reflexivity | exact Hb]).
  unfold p in Hp. apply orb_true_iff in Hp. destruct Hp as [Hp|Hp].
  - apply Z.eqb_eq in Hp. contradiction.
  - apply negb_true_iff in Hp. now apply String.eqb_neq.
Qed.

(** The scan ends at or after its start, inside the file. *)
Lemma wp_entropyScan_range (view : buffer) :
  forall (fuel : nat) (scanEnd : Z),
    Z.max 0 (byteLength view - scanEnd) < Z.of_nat fuel ->
    scanEnd <= byteLength view ->
    wp (fun e => scanEnd <= e <= byteLength view) (entropyScan view fuel scanEnd).
Proof.
  induction fuel as [|fuel IH]; intros scanEnd Hfuel Hle; [lia|].
  cbn [entropyScan].
  repeat wp_step; tests; try (cbn [wp]; lia);
    (eapply wp_weaken; [apply IH; lia | cbv beta; intros; lia]).
Qed.

Lemma getUint8_range (view : buffer) (off v : Z) (le : bool) :
  getUint 1 view off le = Ok v -> 0 <= v < 256.
Proof. intro H. apply getUint_value in H. exact (proj1 H). Qed.

Lemma getUint16_range (view : buffer) (off v : Z) (le : bool) :
  getUint 2 view off le = Ok v -> 0 <= v < 65536.
Proof. intro H. apply getUint16_value in H. exact (proj1 H). Qed.

Ltac byte_ranges :=
  repeat match goal with
    | H : getUint 1 _ _ _ = Ok ?v |- _ =>
        lazymatch goal with
        | _ : 0 <= v < 256 |- _ => fail
        | _ => pose proof (getUint8_range _ _ _ _ H)
        end
    | H : getUint 2 _ _ _ = Ok ?v |- _ =>
        lazymatch goal with
        | _ : 0 <= v < 65536 |- _ => fail
        | _ => pose proof (getUint16_range _ _ _ _ H)
        end
    end.

Ltac jpeg_solve :=
  repeat match goal with
    | |- _ /\ _ => split
    | |- tiled _ ((_ ++ [?s]) ++ [_]) _ =>
        eapply (tiled_snoc _ _ _ (offset s + size s)); [|cbn [offset size]; lia ..]
    | |- tiled _ (_ ++ [_]) _ =>
        eapply tiled_snoc; [eassumption | cbn [offset size]; lia ..]
    | |- tiled _ _ _ => eapply tiled_weaken; [eassumption | lia]
    | |- only_last _ (_ ++ [_]) => apply only_last_snoc; assumption
    | |- only_last _ _ => apply only_last_none; assumption
    | |- Forall _ (_ ++ [_]) =>
        apply Forall_app; split; [|constructor; [|constructor]]
    | |- Forall _ _ => assumption
    | |- name _ <> _ => cbn [name]; apply jpeg_EOI_name; lia
    | |- name _ <> _ => cbn [name]; discriminate
    | |- seg_start _ _ => unfold seg_start; cbn [type offset]; intros _; assumption
    | |- seg_start _ _ => unfold seg_start; cbn [type]; discriminate
    end.

Lemma wp_parseJPEG_loop_tiled (view : buffer) :
  forall (fuel : nat) (off : Z) (regions : list PERegion),
    0 <= off <= byteLength view ->
    Z.max 0 (byteLength view - off) < Z.of_nat fuel ->
    tiled 0 regions off ->
    Forall (fun x => name x <> "EOI"%string) regions ->
    Forall (seg_start view) regions ->
    wp (fun out => tiled 0 out (byteLength view) /\ only_last "EOI" out
                   /\ Forall (seg_start view) out)
       (parseJPEG_loop view fuel off regions).
Proof.
  induction fuel as [|fuel IH]; intros off regions H0 Hfuel Ht Hn Hs; [lia|].
  cbn [parseJPEG_loop].
  repeat wp_step; tests; byte_ranges; subst; try lia.
  all: try (cbn [wp]; jpeg_solve; fail).
  all: try (apply IH; [lia | lia | jpeg_solve..]; fail).
  all: eapply wp_bind;
    [apply wp_entropyScan_range; unfold byteLength in *; lia|].
  all: intros scanEnd Hscan; cbv beta in Hscan.
  all: repeat wp_step; tests; try lia.
  all: try (apply IH; [lia | lia | jpeg_solve..]; fail).
Qed.

(** The top-level regions of a JPEG parse follow one another in the file
    without overlap: each has a size that is not negative, starts at or after
    the end of the region before it and ends inside the file. Every segment
    region starts at a byte 0xFF, and a segment named "EOI" is the last region:
    the walk stops at the end-of-image marker. *)
Theorem parseJPEG_walk (buf : buffer) (fileName : string) (isDarkMode : bool)
    (pf : ParsedFile) :
  parseJPEG buf fileName isDarkMode = Ok pf ->
  tiled 0 (regions pf) (file_size pf)
  /\ only_last "EOI" (regions pf)
  /\ Forall (seg_start buf) (regions pf).
Proof.
  intro Hpf. unfold parseJPEG in Hpf. cbv zeta in Hpf.
  pose proof (wp_parseJPEG_loop_tiled buf (S (List.length buf)) 0 []) as W.
  destruct (parseJPEG_loop buf (S (List.length buf)) 0 []) as [out | e |];
    cbn [bind] in Hpf; try discriminate.
  injection Hpf as <-. cbn [regions file_size]. apply W.
  - unfold byteLength. lia.
  - unfold byteLength. lia.
  - cbn. lia.
  - constructor.
  - constructor.
Qed.

Lemma parseJPEG_walk_witness :
  let buf := bytes [0xFF; 0xD8; 0xFF; 0xE0; 0x00; 0x04; 0x61; 0x62; 0xFF; 0xD9; 0x00; 0xFF] in
  exists pf,
    parseJPEG buf "a.jpg" true = Ok pf
    /\ map range_of (regions pf) = [(0, 2); (2, 6); (8, 2)]
    /\ tiled 0 (regions pf) (file_size pf)
    /\ only_last "EOI" (regions pf)
    /\ Forall (seg_start buf) (regions pf).
Proof.
  cbv zeta. eexists. split; [vm_compute; reflexivity|]. split; [reflexivity|].
  apply (parseJPEG_walk
           (bytes [0xFF; 0xD8; 0xFF; 0xE0; 0x00; 0x04; 0x61; 0x62; 0xFF; 0xD9; 0x00; 0xFF])
           "a.jpg" true).
  vm_compute. reflexivity.
Defined.

(** ** The boxes of an ISO-BMFF (HEIC) file *)

Lemma deep_Forall_unfold (P : PERegion -> Prop) (r : PERegion) :
  deep_Forall P r <-> P r /\ Forall (deep_Forall P) (children r).
Proof.
  destruct r as [nm o sz ty kids]. cbn [deep_Forall children].
  assert (E : (fix all (l : list PERegion) : Prop :=
                 match l with
                 | [] => True
                 | k :: l' => deep_Forall P k /\ all l'
                 end) kids <-> Forall (deep_Forall P) kids).
  { induction kids as [|k kids IH]; [split; constructor|]. split.
    - intros [Hk Hl]. constructor; [exact Hk | now apply IH].
    - intro H. inversion H; subst. split; [assumption | now apply IH]. }
  now rewrite E.
Qed.

Lemma tiled_lower (l : list PERegion) (lo lo' hi : Z) :
  tiled lo l hi -> lo' <= lo -> tiled lo' l hi.
Proof.
  destruct l as [|r rest]; cbn [tiled]; intros H Hle; [lia|].
  destruct H as (H1 & H2 & H3). repeat split; [lia | assumption..].
Qed.

Lemma filter_boxes (fields nested : list PERegion) :
  Forall (fun r => type r <> HEIC_BOX /\ children r = []) fields ->
  Forall boxP nested ->
  filter is_box (fields ++ nested) = nested.
Proof.
  intros Hf Hn. rewrite filter_app.
  assert (E1 : filter is_box fields = []).
  { induction Hf as [|f fields [Hty _] _ IH]; [reflexivity|]. cbn [filter].
    unfold is_box at 1. destruct (type f); try contradiction; exact IH. }
  assert (E2 : filter is_box nested = nested).
  { induction Hn as [|b nested [Hty _] _ IH]; [reflexivity|]. cbn [filter].
    unfold is_box at 1. rewrite Hty. cbn. now rewrite IH. }
  now rewrite E1, E2.
Qed.

(** A box region over fields and nested boxes. *)
Lemma heic_box_ok (nm : string) (off sz : Z) (fields nested : list PERegion) :
  8 <= sz ->
  Forall (fun r => type r <> HEIC_BOX /\ children r = []) fields ->
  Forall boxP nested ->
  tiled off nested (off + sz) ->
  boxP (mkRegion nm off sz HEIC_BOX (fields ++ nested)).
Proof.
  intros Hsz Hf Hn Ht. split; [reflexivity|]. apply deep_Forall_unfold.
  cbn [children]. split.
  - intros _. cbn [size offset children]. split; [exact Hsz|].
    now rewrite filter_boxes.
  - apply Forall_app. split.
    + eapply Forall_impl; [|exact Hf]. intros f [Hty Hk]. apply deep_Forall_unfold.
      rewrite Hk. split; [intro; contradiction | constructor].
    + eapply Forall_impl; [|exact Hn]. now intros b [_ Hb].
Qed.

Lemma wp_parseBoxes_tiled (view : buffer) :
  byteLength view <= 2 ^ 53 ->
  forall (fuel : nat) (off endOff lo : Z) (boxes : list PERegion),
    0 <= off ->
    endOff <= byteLength view ->
    Z.max 0 (byteLength view - off) < Z.of_nat fuel ->
    tiled lo boxes (Z.min off endOff) ->
    Forall boxP boxes ->
    wp (fun out => tiled lo out endOff /\ Forall boxP out)
       (parseBoxes view fuel off endOff boxes).
Proof.
  intro Hlen.
  induction fuel as [|fuel IH]; intros off endOff lo boxes H0 Hend Hfuel Ht Hb; [lia|].
  cbn [parseBoxes].
  assert (Hret : tiled lo boxes endOff /\ Forall boxP boxes)
    by (split; [eapply tiled_weaken; [exact Ht | lia] | exact Hb]).
  assert (Hnext : forall boxSize nm kids,
            8 <= boxSize -> off + 8 <= endOff ->
            (8 <= Z.min (js_add off boxSize) endOff - off ->
             boxP (mkRegion nm off (Z.min (js_add off boxSize) endOff - off) HEIC_BOX kids)) ->
            wp (fun out => tiled lo out endOff /\ Forall boxP out)
               (parseBoxes view fuel (js_add off boxSize) endOff
                  (boxes ++ [mkRegion nm off (Z.min (js_add off boxSize) endOff - off)
                                      HEIC_BOX kids]))).
  { intros boxSize nm kids Hbs Ho Hbox.
    assert (off + 8 <= js_add off boxSize)
      by (unfold js_add; apply js_round_lower; lia).
    apply IH; [lia | lia | lia | |].
    - eapply tiled_snoc; [exact Ht | cbn [offset size]; lia..].
    - apply Forall_app. split; [exact Hb | constructor; [apply Hbox; lia | constructor]]. }
  assert (Hnested : forall content boxSize,
            off + 8 <= content -> off + 8 <= endOff -> 8 <= boxSize ->
            wp (fun nested =>
                  tiled off nested (off + (Z.min (js_add off boxSize) endOff - off))
                  /\ Forall boxP nested)
               (parseBoxes view fuel content (Z.min (js_add off boxSize) endOff) [])).
  { intros content boxSize Hc Ho Hbs.
    assert (off + 8 <= js_add off boxSize)
      by (unfold js_add; apply js_round_lower; lia).
    eapply wp_weaken.
    - apply (IH content (Z.min (js_add off boxSize) endOff)
                (Z.min content (Z.min (js_add off boxSize) endOff)) []);
        [lia | lia | lia | cbn [tiled]; lia | constructor].
    - cbv beta. intros nested [Hn1 Hn2]. split; [|exact Hn2].
      replace (off + (Z.min (js_add off boxSize) endOff - off))
        with (Z.min (js_add off boxSize) endOff) by lia.
      eapply tiled_lower; [exact Hn1 | lia]. }
  repeat wp_step; tests; try exact Hret.
  all: cbn [fst snd].
  all: unfold Number_of_bigint in *.
  all: repeat first
         [ wp_step
         | eapply wp_bind; [apply Hnested; lia | intros nested [Hn1 Hn2]]
         | apply Hnext; [lia | lia | intro Hsz] ].
  all: first
         [ apply heic_box_ok;
           [ lia
           | cbn [app]; repeat (constructor; [split; [discriminate | reflexivity]|]);
             constructor
           | assumption | assumption ]
         | match goal with
           | |- boxP (mkRegion _ _ _ _ ?K) =>
               replace K with (K ++ []) by apply app_nil_r;
               apply heic_box_ok;
               [ lia
               | cbn [app]; repeat (constructor; [split; [discriminate | reflexivity]|]);
                 constructor
               | constructor | cbn [tiled]; lia ]
           end ].
Qed.

(** The top-level boxes of an ISO-BMFF parse follow one another in the file
    without overlap and end inside it; every box region, at any depth, spans
    at least its 8-byte header, and the boxes nested in a container follow
    one another inside the container without overlap. (The buffer has at most
    2^53 bytes, as every [ArrayBuffer].) *)
Theorem parseHEIC_boxes (buf : buffer) (fileName : string) (isDarkMode : bool)
    (pf : ParsedFile) :
  byteLength buf <= 2 ^ 53 ->
  parseHEIC buf fileName isDarkMode = Ok pf ->
  tiled 0 (regions pf) (file_size pf)
  /\ Forall boxP (regions pf).
Proof.
  intros Hlen Hpf. unfold parseHEIC in Hpf. cbv zeta in Hpf.
  pose proof (wp_parseBoxes_tiled buf Hlen (S (List.length buf)) 0 (byteLength buf) 0 [])
    as W.
  destruct (parseBoxes buf (S (List.length buf)) 0 (byteLength buf) []) as [out | e |];
    cbn [bind] in Hpf; try discriminate.
  injection Hpf as <-. cbn [regions file_size]. apply W.
  - lia.
  - lia.
  - unfold byteLength. lia.
  - cbn [tiled]. unfold byteLength. lia.
  - constructor.
Qed.


Lemma parseHEIC_boxes_witness :
  exists pf,
    parseHEIC heicSample "a.heic" true = Ok pf
    /\ map range_of (regions pf) = [(0, 16); (16, 24)]
    /\ map (fun r => map range_of (filter is_box (children r))) (regions pf)
       = [[]; [(24, 16)]]
    /\ tiled 0 (regions pf) (file_size pf)
    /\ Forall boxP (regions pf).
Proof.
  eexists. split; [vm_compute; reflexivity|]. split; [reflexivity|].
  split; [reflexivity|].
  apply (parseHEIC_boxes heicSample "a.heic" true); [vm_compute; discriminate|].
  vm_compute. reflexivity.
Defined.

(* ================================================================== *)
(** ** The section data of a PE file *)

Lemma insert_by_offset_sorted (r : PERegion) (l : list PERegion) :
  StronglySorted Z.le (map offset l) ->
  StronglySorted Z.le (map offset (insert_by_offset r l)).
Proof.
  induction l as [|x l IH]; cbn [insert_by_offset map]; intro Hs.
  - constructor; constructor.
  - destruct (offset r <=? offset x) eqn:E; tests.
    + cbn [map]. constructor; [exact Hs|].
      inversion Hs as [|? ? _ Hall]; subst.
      constructor; [exact E|].
      eapply Forall_impl; [|exact Hall]. cbn. intros; lia.
    + cbn [map]. inversion Hs as [|? ? Hs' Hall]; subst.
      constructor; [now apply IH|].
      rewrite Forall_forall. intros y Hy.
      apply in_map_iff in Hy. destruct Hy as [z [<- Hz]].
      apply (Permutation_in _ (insert_by_offset_perm r l)) in Hz.
      destruct Hz as [<- | Hz]; [lia|].
      rewrite Forall_forall in Hall. apply Hall. now apply in_map.
Qed.

Lemma sort_by_offset_sorted (l : list PERegion) :
  StronglySorted Z.le (map offset (sort_by_offset l)).
Proof.
  unfold sort_by_offset. induction l as [|x l IH]; cbn [fold_right].
  - constructor.
  - now apply insert_by_offset_sorted.
Qed.

Lemma filter_all {A : Type} (f : A -> bool) (l : list A) :
  Forall (fun x => f x = true) l -> filter f l = l.
Proof.
  induction 1 as [|x l Hx _ IH]; cbn [filter]; [reflexivity|].
  now rewrite Hx, IH.
Qed.

Lemma section_region_is_data (len : Z) (metas : list SectionMetadata) :
  Forall (fun r => is_section_data r = true) (map (section_region len) metas).
Proof. rewrite Forall_forall. intros r Hr. apply in_map_iff in Hr.
  destruct Hr as [m [<- _]]. reflexivity. Qed.

(** The loop over the section headers: one metadata entry per header, and the
    data regions of those entries that pass the test. *)
Lemma wp_sections_loop_data (view : buffer) (sectionHeadersOffset : Z) (n : nat) :
  forall i acc,
    wp (fun scan =>
          exists metas,
            List.length metas = n
            /\ scan_meta scan = scan_meta acc ++ metas
            /\ scan_data scan
               = scan_data acc
                 ++ map (section_region (byteLength view))
                        (filter (has_data (byteLength view)) metas))
       (sections_loop view sectionHeadersOffset n i acc).
Proof.
  induction n as [|n IH]; intros i acc; cbn [sections_loop].
  - exists []. cbn. now rewrite !app_nil_r.
  - repeat wp_step.
    eapply wp_weaken; [apply IH|].
    intros scan [metas [Hlen [Hm Hd]]]. cbn [scan_meta scan_data] in Hm, Hd.
    match type of Hm with
      _ = (_ ++ [?m]) ++ _ => exists (m :: metas)
    end.
    split; [cbn; now rewrite Hlen|].
    split; [now rewrite Hm, <- app_assoc|].
    rewrite Hd, <- app_assoc. f_equal.
    cbn [filter].
    match goal with
      |- (if ?c then _ else _) ++ _ = map _ (if has_data ?l ?m then _ else _) =>
        change (has_data l m) with c; destruct c
    end; reflexivity.
Qed.

Lemma sorted_sections_are_data (len : Z) (metas : list SectionMetadata) :
  filter is_section_data (sort_by_offset (map (section_region len) metas))
  = sort_by_offset (map (section_region len) metas).
Proof.
  apply filter_all. rewrite Forall_forall. intros r Hr.
  apply (Permutation_in _ (sort_by_offset_perm _)) in Hr.
  pose proof (section_region_is_data len metas) as H.
  rewrite Forall_forall in H. now apply H.
Qed.

Ltac pe_finish :=
  intros scan [metas [Hlen [Hm Hd]]]; cbn [scan_meta scan_data app] in Hm, Hd;
  repeat wp_step; intros _; cbn [sectionsMetadata regions];
  (split;
   [ eexists; split; [eassumption|]; split; [eassumption|];
     split; [eassumption|];
     match goal with
       H : getUint 2 _ (?a + 4 + 2) _ = Ok ?n |- _ =>
         replace (a + 6) with (a + 4 + 2) by lia;
         rewrite Hm, Hlen, Z2Nat.id by (apply getUint16_range in H; lia);
         exact H
     end
   | rewrite Hm, Hd;
     match goal with |- context [if ?c then _ else _] => destruct c end;
     rewrite ?filter_app; cbn [filter is_section_data type RegionType_eqb app];
     rewrite sorted_sections_are_data, ?app_nil_r; reflexivity ]).

Lemma wp_parsePE_sections (buf : buffer) (fileName : string) (isDarkMode : bool) :
  wp (pe_sections_post buf) (parsePE buf fileName isDarkMode).
Proof.
  unfold parsePE, pe_sections_post. cbv zeta.
  repeat wp_step; try (intro; discriminate); tests; subst.
  - wp_call wp_optionalHeaderFields.
    match goal with x : (list PERegion * Z * Z)%type |- _ => destruct x as [[fields dd] nrva] end.
    repeat wp_step. wp_call wp_dataDirs_loop.
    repeat wp_step.
    eapply wp_bind; [apply wp_sections_loop_data|]. pe_finish.
  - eapply wp_bind; [apply wp_sections_loop_data|]. pe_finish.
Qed.

(** A file that [parsePE] returns as valid starts with "MZ", has the
    signature "PE\0\0" at [e_lfanew], and has one metadata entry for each of
    the sections that the file header declares. Its regions of type
    [SECTION_DATA] are, in ascending order of offset, the raw data of the
    sections that are not empty and start behind offset 0 inside the file,
    each cut at the end of the file: every one of them lies inside the file. *)
Theorem parsePE_section_data (buf : buffer) (fileName : string) (isDarkMode : bool)
    (pf : ParsedFile) :
  parsePE buf fileName isDarkMode = Ok pf ->
  isValid pf = true ->
  let len := byteLength buf in
  let sdata := filter is_section_data (regions pf) in
  (exists e_lfanew,
      getUint16 buf 0 true = Ok 0x5A4D
      /\ getUint32 buf 0x3C true = Ok e_lfanew
      /\ getUint32 buf e_lfanew true = Ok 0x00004550
      /\ getUint16 buf (e_lfanew + 6) true
         = Ok (Z.of_nat (List.length (sectionsMetadata pf))))
  /\ Permutation sdata
       (map (section_region len) (filter (has_data len) (sectionsMetadata pf)))
  /\ StronglySorted Z.le (map offset sdata)
  /\ Forall (fun r => 0 < offset r /\ 0 < size r /\ offset r + size r <= len) sdata.
Proof.
  intros Hpf Hvalid len sdata.
  pose proof (wp_returns _ _ _ (wp_parsePE_sections buf fileName isDarkMode) Hpf Hvalid)
    as [Hsig Hdata].
  fold len in Hdata. fold sdata in Hdata.
  split; [exact Hsig|].
  assert (Hperm : Permutation sdata
       (map (section_region len) (filter (has_data len) (sectionsMetadata pf)))).
  { rewrite Hdata. apply sort_by_offset_perm. }
  split; [exact Hperm|].
  split; [rewrite Hdata; apply sort_by_offset_sorted|].
  rewrite Forall_forall. intros r Hr.
  apply (Permutation_in _ Hperm) in Hr.
  apply in_map_iff in Hr. destruct Hr as [sec [<- Hsec]].
  apply filter_In in Hsec. destruct Hsec as [_ Hsec].
  unfold has_data in Hsec. tests. cbn [section_region offset size]. lia.
Qed.

Lemma parsePE_section_data_witness :
  exists pf,
    parsePE peSample "a.exe" true = Ok pf
    /\ sectionsMetadata pf = [mkSection ".text" 0x1000 16 128 32]
    /\ filter is_section_data (regions pf)
       = [mkRegion "Section: .text" 128 16 SECTION_DATA []]
    /\ Permutation (filter is_section_data (regions pf))
         (map (section_region 144) (filter (has_data 144) (sectionsMetadata pf)))
    /\ StronglySorted Z.le (map offset (filter is_section_data (regions pf))).
Proof.
  eexists. split; [vm_compute; reflexivity|].
  split; [reflexivity|]. split; [reflexivity|].
  pose proof (parsePE_section_data peSample "a.exe" true _ eq_refl eq_refl)
    as [_ [Hperm [Hsorted _]]].
  split; [exact Hperm | exact Hsorted].
Defined.

(* ================================================================== *)
(** ** The view follows the target of a jump *)

Lemma ceilDiv_above (a b : Z) : 0 < b -> a <= ceilDiv a b * b.
Proof.
  intro Hb. unfold ceilDiv.
  pose proof (Z.mul_div_le (- a) b Hb). nia.
Qed.

Lemma ceilDiv_nonneg (a b : Z) : 0 < b -> 0 <= a -> 0 <= ceilDiv a b.
Proof.
  intros Hb Ha. unfold ceilDiv.
  assert (- a / b <= 0) by (apply Z.div_le_upper_bound; lia). lia.
Qed.

(** A view offset inside the file, after the floor to a line: the first line
    of the frame holds every byte of the file of that line. *)
Lemma first_line_drawn (s : FileSession) (height off : Z) :
  0 <= height ->
  0 <= off < file_size (file s) ->
  viewOffset s / 16 = off / 16 ->
  shown_on_top s height off.
Proof.
  intros Hh Hoff Hv.
  unfold shown_on_top, drawnInFrame, startVisibleOffsetOf, startLineOf, visibleLinesOf,
    BYTES_PER_LINE, LINE_HEIGHT in *.
  rewrite Hv.
  pose proof (Z.mul_div_le off 16 ltac:(lia)).
  pose proof (Z.mul_succ_div_gt off 16 ltac:(lia)).
  split; [lia|].
  exists 0, (off - off / 16 * 16).
  pose proof (ceilDiv_nonneg height 20 ltac:(lia) Hh).
  pose proof (ceilDiv_above (file_size (file s)) 16 ltac:(lia)).
  repeat split; lia.
Qed.

Lemma rowStart_line (off : Z) : rowStart off / 16 = off / 16.
Proof. unfold rowStart. now rewrite Z.div_mul by lia. Qed.

(** A jump to a search result, the choice of a region in the sidebar and
    "go to offset" move the view to the line of the target: when the target
    is a byte of the file, the next frame draws it, on its first line. The
    wheel never moves the view out of a file that is not empty: the view
    offset stays an offset of the file, and the frame draws that byte. *)
Theorem view_follows_target (st : AppState) (s : FileSession) (height off : Z) :
  activeSession st = Some s ->
  session_id s <> EmptyString ->
  0 <= height ->
  0 <= off < file_size (file s) ->
  (forall index res,
      0 <= index < Z.of_nat (List.length (searchResults s)) ->
      nth_error (searchResults s) (Z.to_nat index) = Some res ->
      res_offset res = off ->
      exists s', activeSession (jumpToSearchResult index st) = Some s'
                 /\ file s' = file s /\ shown_on_top s' height off)
  /\ (forall region,
      offset region = off ->
      exists s', activeSession (handleRegionSelect region st) = Some s'
                 /\ file s' = file s /\ shown_on_top s' height off)
  /\ (exists s', activeSession (goToOffset (Some off) st) = Some s'
                 /\ file s' = file s /\ shown_on_top s' height off)
  /\ (forall deltaY,
      exists s', activeSession (handleWheel s deltaY st) = Some s'
                 /\ file s' = file s
                 /\ 0 <= viewOffset s' < file_size (file s)
                 /\ shown_on_top s' height (viewOffset s')).
Proof.
  intros Ha Hne Hh Hoff. split; [|split; [|split]].
  - intros index res Hidx Hres <-.
    eexists. split; [apply (jumpToSearchResult_active index st s res Ha Hne Hidx Hres)|].
    split; [reflexivity|].
    apply first_line_drawn; [exact Hh | exact Hoff |].
    cbn [viewOffset]. apply rowStart_line.
  - intros region <-. unfold handleRegionSelect. rewrite Ha.
    rewrite (activeSession_update st _ s Ha Hne).
    eexists. split; [reflexivity|]. split; [reflexivity|].
    apply first_line_drawn; [exact Hh | exact Hoff |].
    cbn [merge viewOffset p_viewOffset orElse]. apply rowStart_line.
  - unfold goToOffset. rewrite Ha.
    rewrite (activeSession_update st _ s Ha Hne).
    eexists. split; [reflexivity|]. split; [reflexivity|].
    apply first_line_drawn; [exact Hh | exact Hoff |].
    cbn [merge viewOffset p_viewOffset orElse]. apply rowStart_line.
  - intro deltaY. unfold handleWheel, onScroll. cbv zeta.
    rewrite (activeSession_update st _ s Ha Hne).
    eexists. split; [reflexivity|]. split; [reflexivity|].
    cbn [merge viewOffset p_viewOffset orElse file].
    assert (Hr : 0 <= Z.max 0 (Z.min (file_size (file s) - 1)
                      (viewOffset s + Z.sgn deltaY * 3 * BYTES_PER_LINE))
                 < file_size (file s)) by lia.
    split; [exact Hr|].
    apply first_line_drawn; [exact Hh | exact Hr | reflexivity].
Qed.

Lemma view_follows_target_witness :
  let f := fileOf (bytes (repeat 0x90 40)) [] in
  let rs := [mkResult 35 2 None [144; 144]] in
  let s := mkSession "7f1c" f None 0 rs 0 true in
  let st := mkAppState [s] (Some "7f1c"%string) None dark false false in
  (exists s', activeSession (jumpToSearchResult 0 st) = Some s'
              /\ viewOffset s' = 32 /\ shown_on_top s' 400 35)
  /\ (exists s', activeSession (handleWheel s 120 st) = Some s'
              /\ viewOffset s' = 39 /\ shown_on_top s' 400 39).
Proof.
  cbv zeta.
  destruct (view_follows_target
              (mkAppState [mkSession "7f1c" (fileOf (bytes (repeat 0x90 40)) []) None 0
                             [mkResult 35 2 None [144; 144]] 0 true]
                          (Some "7f1c"%string) None dark false false)
              (mkSession "7f1c" (fileOf (bytes (repeat 0x90 40)) []) None 0
                         [mkResult 35 2 None [144; 144]] 0 true)
              400 35)
    as (Hjump & _ & _ & Hwheel).
  - reflexivity.
  - discriminate.
  - lia.
  - cbn. lia.
  - split.
    + destruct (Hjump 0 (mkResult 35 2 None [144; 144])) as (s' & Hs' & _ & Hshown).
      * cbn. lia.
      * reflexivity.
      * reflexivity.
      * exists s'. split; [exact Hs'|]. split; [|exact Hshown].
        cbn in Hs'. injection Hs' as <-. reflexivity.
    + destruct (Hwheel 120) as (s' & Hs' & _ & _ & Hshown).
      exists s'. split; [exact Hs'|].
      cbn in Hs'. injection Hs' as <-. split; [reflexivity | exact Hshown].
Defined.
